(** * hello-wasm-nitro: the enclave executor and the host relay

    A shallow embedding of the Go sources of the enclave executor
    (secret injection into WAT templates, compile bridge, execution,
    connection loop) and of the host relay (connection bookkeeping and
    request forwarding), with the properties of the design document stated
    and settled against it.

    Go strings are byte sequences: they are modelled by [string], whose
    characters are the 256 values of [ascii].  Fixed-width integers are
    modelled by [Z] with the wrap-around written out. *)

From Stdlib Require Import ZArith List Bool Ascii String Lia.
From stdpp Require Import base option gmap strings.

Local Open Scope string_scope.
Local Open Scope Z_scope.

(** ** Fixed-width integers of the Go runtime *)

Module GoInt.

(** Two's-complement reduction to a signed [bits]-wide integer. *)
Definition wrapS (bits : Z) (z : Z) : Z :=
  (z + 2 ^ (bits - 1)) mod 2 ^ bits - 2 ^ (bits - 1).

(** Reduction to an unsigned [bits]-wide integer. *)
Definition wrapU (bits : Z) (z : Z) : Z := z mod 2 ^ bits.

Definition int32 (z : Z) : Z := wrapS 32 z.
Definition int64 (z : Z) : Z := wrapS 64 z.
Definition uint64 (z : Z) : Z := wrapU 64 z.

Definition minInt32 : Z := - 2 ^ 31.
Definition maxInt32 : Z := 2 ^ 31 - 1.

Definition inInt (bits : Z) (z : Z) : Prop :=
  - 2 ^ (bits - 1) <= z < 2 ^ (bits - 1).

Definition byteOf (c : ascii) : Z := Z.of_N (N_of_ascii c).

End GoInt.

(** ** UTF-8 decoding as performed by [for _, c := range s] *)

Module Utf8.
Import GoInt.

Definition RuneError : Z := 0xFFFD.

(** Continuation byte range [locb, hicb]. *)
Definition locb : Z := 0x80.
Definition hicb : Z := 0xBF.

(** Size of the encoding announced by a first byte (0 when the byte cannot
    start a valid sequence) together with the range accepted for the second
    byte: the [first] and [acceptRanges] tables of unicode/utf8. *)
Definition firstInfo (b0 : Z) : Z * (Z * Z) :=
  if b0 <? 0xC2 then (0, (locb, hicb))
  else if b0 <? 0xE0 then (2, (locb, hicb))
  else if b0 =? 0xE0 then (3, (0xA0, hicb))
  else if b0 <? 0xED then (3, (locb, hicb))
  else if b0 =? 0xED then (3, (locb, 0x9F))
  else if b0 <? 0xF0 then (3, (locb, hicb))
  else if b0 =? 0xF0 then (4, (0x90, hicb))
  else if b0 <? 0xF4 then (4, (locb, hicb))
  else if b0 =? 0xF4 then (4, (locb, 0x8F))
  else (0, (locb, hicb)).

Definition inRange (lo hi b : Z) : bool := (lo <=? b) && (b <=? hi).

Definition cont (b : Z) : Z := Z.land b 0x3F.

(** The runes of a string in iteration order.  An ill-formed sequence
    yields [RuneError] and advances by one byte. *)
Fixpoint runes (s : string) : list Z :=
  match s with
  | EmptyString => []
  | String c0 r0 =>
    let b0 := byteOf c0 in
    if b0 <? 0x80 then b0 :: runes r0
    else
      let '(sz, (lo, hi)) := firstInfo b0 in
      let bad := RuneError :: runes r0 in
      if sz =? 0 then bad
      else match r0 with
      | EmptyString => bad
      | String c1 r1 =>
        let b1 := byteOf c1 in
        if negb (inRange lo hi b1) then bad
        else if sz =? 2 then
          Z.lor (Z.shiftl (Z.land b0 0x1F) 6) (cont b1) :: runes r1
        else match r1 with
        | EmptyString => bad
        | String c2 r2 =>
          let b2 := byteOf c2 in
          if negb (inRange locb hicb b2) then bad
          else if sz =? 3 then
            Z.lor (Z.shiftl (Z.land b0 0x0F) 12)
              (Z.lor (Z.shiftl (cont b1) 6) (cont b2)) :: runes r2
          else match r2 with
          | EmptyString => bad
          | String c3 r3 =>
            let b3 := byteOf c3 in
            if negb (inRange locb hicb b3) then bad
            else
              Z.lor (Z.shiftl (Z.land b0 0x07) 18)
                (Z.lor (Z.shiftl (cont b1) 12)
                   (Z.lor (Z.shiftl (cont b2) 6) (cont b3))) :: runes r3
          end
        end
      end
  end.

End Utf8.

(** ** The parts of strconv and fmt used by the executor *)

Module Strconv.
Import GoInt.

Inductive NumError := ErrSyntax | ErrRange.

(** [lower(c)]: the byte with bit 0x20 set. *)
Definition lower (c : Z) : Z := Z.lor c 0x20.

(** The digit value of a byte in [ParseUint], [None] for a byte that is no
    digit in any base. *)
Definition digitVal (c : Z) : option Z :=
  if (0x30 <=? c) && (c <=? 0x39) then Some (c - 0x30)
  else if (0x61 <=? lower c) && (lower c <=? 0x7A) then Some (lower c - 0x61 + 10)
  else None.

(** The digit loop of [ParseUint] for an explicit base (2..36): [n] is the
    accumulator, [cutoff] the smallest number whose product with the base
    overflows 64 bits, [maxVal] the largest value of the requested size. *)
Fixpoint parseUintLoop (base cutoff maxVal : Z) (n : Z) (s : string)
  : Z * option NumError :=
  match s with
  | EmptyString => (n, None)
  | String c r =>
    match digitVal (byteOf c) with
    | None => (0, Some ErrSyntax)
    | Some d =>
      if base <=? d then (0, Some ErrSyntax)
      else if cutoff <=? n then (maxVal, Some ErrRange)
      else
        let n0 := n * base in
        let n1 := uint64 (n0 + d) in
        if (n1 <? n0) || (maxVal <? n1) then (maxVal, Some ErrRange)
        else parseUintLoop base cutoff maxVal n1 r
    end
  end.

Definition ParseUint (s : string) (base bitSize : Z) : Z * option NumError :=
  match s with
  | EmptyString => (0, Some ErrSyntax)
  | _ =>
    let cutoff := (2 ^ 64 - 1) / base + 1 in
    let maxVal := 2 ^ bitSize - 1 in
    parseUintLoop base cutoff maxVal 0 s
  end.

Definition ParseInt (s : string) (base bitSize : Z) : Z * option NumError :=
  match s with
  | EmptyString => (0, Some ErrSyntax)
  | String c0 r0 =>
    let neg := Ascii.eqb c0 "-" in
    let s1 := if Ascii.eqb c0 "+" || neg then r0 else s in
    match ParseUint s1 base bitSize with
    | (_, Some ErrSyntax) => (0, Some ErrSyntax)
    | (un, _) =>
      let cutoff := 2 ^ (bitSize - 1) in
      if negb neg && (cutoff <=? un) then (cutoff - 1, Some ErrRange)
      else if neg && (cutoff <? un) then (- cutoff, Some ErrRange)
      else (if neg then int64 (- int64 un) else int64 un, None)
    end
  end.

Definition digitChar (d : Z) : ascii := ascii_of_N (Z.to_N (0x30 + d)).

(** Decimal digits of an unsigned 64-bit value, least significant first,
    pushed in front of [acc].  Twenty digits are enough for 64 bits. *)
Fixpoint formatBits (fuel : nat) (u : Z) (acc : string) : string :=
  match fuel with
  | O => acc
  | S f =>
    let acc' := String (digitChar (u mod 10)) acc in
    if u <? 10 then acc' else formatBits f (u / 10) acc'
  end.

Definition FormatUint (u : Z) : string := formatBits 20 u EmptyString.

(** [%d] for a signed 64-bit value. *)
Definition FormatInt (i : Z) : string :=
  if i <? 0 then String "-" (FormatUint (uint64 (- i))) else FormatUint (uint64 i).

End Strconv.

(** ** The parts of package strings used by the executor *)

Module Strings.

(** The double quote character and a helper that writes WAT text with
    single quotes standing for double quotes. *)
Definition dquote : ascii := ascii_of_nat 34.

Fixpoint wat (s : string) : string :=
  match s with
  | EmptyString => EmptyString
  | String c r => String (if Ascii.eqb c "'" then dquote else c) (wat r)
  end.

(** [s[:n]] and [s[n:]] *)
Fixpoint takeS (n : nat) (s : string) : string :=
  match n, s with
  | S k, String c r => String c (takeS k r)
  | _, _ => EmptyString
  end.

Fixpoint dropS (n : nat) (s : string) : string :=
  match n, s with
  | S k, String _ r => dropS k r
  | _, _ => s
  end.

(** [strings.HasPrefix(s, p)] *)
Fixpoint HasPrefix (s p : string) : bool :=
  match p, s with
  | EmptyString, _ => true
  | String a p', String b s' => Ascii.eqb a b && HasPrefix s' p'
  | String _ _, EmptyString => false
  end.

(** [strings.Index(s, substr)]: the byte offset of the first occurrence,
    [None] where Go returns -1. *)
Fixpoint Index (s substr : string) : option nat :=
  if HasPrefix s substr then Some O
  else match s with
       | EmptyString => None
       | String _ r => option_map S (Index r substr)
       end.

(** [strings.Contains(s, substr)] *)
Definition Contains (s substr : string) : bool :=
  match Index s substr with Some _ => true | None => false end.

(** [strings.Replace(s, old, new, 1)] for a non-empty [old]: the first
    occurrence is replaced, a string without occurrence is returned as it
    is. *)
Definition ReplaceFirst (s old new : string) : string :=
  match Index s old with
  | None => s
  | Some j => takeS j s ++ new ++ dropS (j + String.length old) s
  end.

(** [strings.ReplaceAll(s, old, new)] for a non-empty [old]: successive
    non-overlapping occurrences from the left.  Every round consumes at
    least one byte, so [String.length s] rounds suffice. *)
Fixpoint replaceAllLoop (fuel : nat) (s old new : string) : string :=
  match fuel with
  | O => s
  | S f =>
    match Index s old with
    | None => s
    | Some j =>
      takeS j s ++ new ++ replaceAllLoop f (dropS (j + String.length old) s) old new
    end
  end.

Definition ReplaceAll (s old new : string) : string :=
  replaceAllLoop (String.length s) s old new.

End Strings.

(** ** The import pattern of the template processor *)

Module Regexp.
Import GoInt Strings.

(** One element of [FindAllStringSubmatch]: the whole match and the three
    capture groups. *)
Record Submatch := {
  fullImport : string;
  secretName : string;
  globalName : string;
  wasmType : string
}.

(** [\s] is [\t\n\f\r ] *)
Definition isSpace (c : ascii) : bool :=
  let b := byteOf c in
  (b =? 9) || (b =? 10) || (b =? 12) || (b =? 13) || (b =? 32).

(** Any character but the double quote. *)
Definition notQuote (c : ascii) : bool := negb (Ascii.eqb c dquote).

(** Any character but white space and the closing parenthesis. *)
Definition identChar (c : ascii) : bool := negb (isSpace c) && negb (Ascii.eqb c ")").

(** The longest prefix whose characters satisfy [f], and the rest. *)
Fixpoint span (f : ascii -> bool) (s : string) : string * string :=
  match s with
  | EmptyString => (EmptyString, EmptyString)
  | String c r =>
    if f c then let '(a, b) := span f r in (String c a, b)
    else (EmptyString, s)
  end.

(** A literal at the head of [s]: the rest after it. *)
Definition lit (p s : string) : option string :=
  if HasPrefix s p then Some (dropS (String.length p) s) else None.

(** [c*] and [c+] for a character class followed by something outside the
    class: the greedy match is the only one that can succeed. *)
Definition star (f : ascii -> bool) (s : string) : option (string * string) :=
  Some (span f s).

Definition plus (f : ascii -> bool) (s : string) : option (string * string) :=
  match span f s with
  | (EmptyString, _) => None
  | p => Some p
  end.

(** [(i32|i64|f32|f64)] *)
Definition numType (s : string) : option (string * string) :=
  let t := takeS 3 s in
  if String.eqb t "i32" || String.eqb t "i64" || String.eqb t "f32" || String.eqb t "f64"
  then Some (t, dropS 3 s) else None.

(** The pattern
    [\(import\s+Q[^Q]*Q\s+Q([^Q]+)Q\s+\(global\s+\$([^\s\)]+)\s+(i32|i64|f32|f64)\)\)]
    (Q the double quote) anchored at the head of [s]: the submatch and the
    text after it.  Each repetition is followed by a character outside its
    class, so the pattern has at most one match at a position. *)
Definition matchAt (s : string) : option (Submatch * string) :=
  r0 ← lit "(import" s;
  '(w1, r1) ← plus isSpace r0;
  r2 ← lit (String dquote EmptyString) r1;
  '(modn, r3) ← star notQuote r2;
  r4 ← lit (String dquote EmptyString) r3;
  '(w2, r5) ← plus isSpace r4;
  r6 ← lit (String dquote EmptyString) r5;
  '(name, r7) ← plus notQuote r6;
  r8 ← lit (String dquote EmptyString) r7;
  '(w3, r9) ← plus isSpace r8;
  r10 ← lit "(global" r9;
  '(w4, r11) ← plus isSpace r10;
  r12 ← lit "$" r11;
  '(ident, r13) ← plus identChar r12;
  '(w5, r14) ← plus isSpace r13;
  '(ty, r15) ← numType r14;
  r16 ← lit "))" r15;
  Some ({| fullImport :=
             "(import" ++ w1 ++ String dquote modn ++ String dquote w2
             ++ String dquote name ++ String dquote w3
             ++ "(global" ++ w4 ++ "$" ++ ident ++ w5 ++ ty ++ "))";
           secretName := name;
           globalName := ident;
           wasmType := ty |}, r16).

(** The scanning loop of [FindAll]: leftmost matches, none overlapping.
    [skip] counts the bytes of the last match still to be passed over and
    [gap] collects the text since the last match.  The result lists every
    match with the text in front of it, and the text after the last one. *)
Fixpoint scan (s : string) (skip : nat) (gap : string)
  : list (string * Submatch) * string :=
  match s with
  | EmptyString => ([], gap)
  | String c r =>
    match skip with
    | S k => scan r k gap
    | O =>
      match matchAt s with
      | Some (m, _) =>
        let '(ps, tl) := scan r (String.length (fullImport m) - 1) EmptyString in
        ((gap, m) :: ps, tl)
      | None => scan r O (gap ++ String c EmptyString)
      end
    end
  end.

Definition pieces (s : string) : list (string * Submatch) * string :=
  scan s O EmptyString.

(** [importPattern.FindAllStringSubmatch(s, -1)] *)
Definition FindAllStringSubmatch (s : string) : list Submatch :=
  map snd (fst (pieces s)).

End Regexp.

(** ** The enclave executor *)

Module Executor.
Import GoInt Strconv Strings Regexp.

Inductive outcome (A : Type) :=
| Ok (a : A)
| Err (msg : string).
Arguments Ok {A} a.
Arguments Err {A} msg.

(** How a call that runs code of the guest module ends.  The executor sets
    no deadline and no fuel and recovers from no panic: such a call returns,
    or it panics and ends the process, or it never returns. *)
Inductive completion (A : Type) :=
| Returns (a : A)
| Panics
| Diverges.
Arguments Returns {A} a.
Arguments Panics {A}.
Arguments Diverges {A}.

Record WASMRequest := {
  WASMCode : string;
  FunctionName : string;
  Args : list Z;
  Secrets : gmap string string
}.

Record WASMResponse := {
  Result : Z;
  Error : string
}.

(** simpleStringHash *)
Definition simpleStringHash (s : string) : Z :=
  let hash := fold_left (fun hash c => int32 (hash * 31 + int32 c)) (Utf8.runes s) 0 in
  if hash <? 0 then int32 (- hash) else hash.

(** The two file names of the compile bridge. *)
Definition tmpDir : string := "/tmp".
Definition watFile : string := tmpDir ++ "/temp.wat".
Definition wasmFile : string := tmpDir ++ "/temp.wasm".

(** What compileWATToWASM asks of the operating system, in order. *)
Inductive SysCall :=
| WriteFile (path data : string)
| Run (cmd : string) (args : list string)
| ReadFile (path : string)
| Remove (path : string).

(** The answers of the operating system to one run of the compile bridge:
    the error of the write if any, the combined output and the error of the
    compiler, and the content read back. *)
Record CompileEnv := {
  writeErr : string -> string -> option string;
  runWat2wasm : list string -> string * option string;
  readBack : string -> outcome string
}.

(** compileWATToWASM: the outcome and the system calls made, the deferred
    removals last and in reverse order of their registration. *)
Definition compileWATToWASM (env : CompileEnv) (watCode : string)
  : outcome string * list SysCall :=
  match writeErr env watFile watCode with
  | Some e => (Err ("failed to write WAT file: " ++ e), [WriteFile watFile watCode])
  | None =>
    let args := [watFile; "-o"; wasmFile] in
    match runWat2wasm env args with
    | (output, Some e) =>
      (Err ("wat2wasm compilation failed: " ++ e ++ ", output: " ++ output),
       [WriteFile watFile watCode; Run "wat2wasm" args; Remove watFile])
    | (_, None) =>
      let calls := [WriteFile watFile watCode; Run "wat2wasm" args;
                    ReadFile wasmFile; Remove wasmFile; Remove watFile] in
      match readBack env wasmFile with
      | Err e => (Err ("failed to read compiled WASM file: " ++ e), calls)
      | Ok wasmBytes => (Ok wasmBytes, calls)
      end
    end
  end.

(** isWATText *)
Definition isWATText (input : string) : bool :=
  match input with
  | EmptyString => false
  | String c _ =>
    Ascii.eqb c "(" && (Contains input "module" || Contains input "func")
  end.

(** The hex fallback loop of base64DecodeWASM over a string of even length:
    [None] at the first pair that ParseUint rejects. *)
Fixpoint hexLoop (cleaned : string) : option string :=
  match cleaned with
  | String a (String b r) =>
    match ParseUint (String a (String b EmptyString)) 16 8 with
    | (v, None) =>
      match hexLoop r with
      | Some tl => Some (String (ascii_of_N (Z.to_N v)) tl)
      | None => None
      end
    | (_, Some _) => None
    end
  | _ => Some EmptyString
  end.

(** The values a call into a module can hand back to Go. *)
Inductive Val :=
| VI32 (z : Z)
| VI64 (z : Z)
| VF32
| VF64
| VNil
| VMany (n : nat)
| VOther (goType : string).

Definition typeName (v : Val) : string :=
  match v with
  | VI32 _ => "int32"
  | VI64 _ => "int64"
  | VF32 => "float32"
  | VF64 => "float64"
  | VNil => "<nil>"
  | VMany _ => "[]wasmtime.Val"
  | VOther goType => goType
  end.

Section Engine.

(** [strconv.ParseFloat(secret, 64)] followed by the [%g] rendering of the
    parsed value; [None] when ParseFloat reports an error.  Floating point
    is outside the embedding and enters as a parameter. *)
Variable floatLiteral : string -> option string.

(** [base64.StdEncoding.DecodeString]: the decoded bytes or the message of
    the error. *)
Variable base64Std : string -> outcome string.

(** The WebAssembly runtime: modules, instances, exports and calls.
    Instantiation runs the start function of the module and a call runs the
    exported function: these two run code of the guest. *)
Variables (Module_ Instance Extern Func : Type).
Variable NewModule : string -> outcome Module_.
Variable NewInstance : Module_ -> completion (outcome Instance).
Variable GetExport : Instance -> string -> option Extern.
Variable ExternFunc : Extern -> option Func.
Variable Call : Func -> list Z -> completion (outcome Val).

(** convertSecretToWASMValue *)
Definition convertSecretToWASMValue (secret wasmType : string) : outcome string :=
  if String.eqb wasmType "i32" then
    match ParseInt secret 10 32 with
    | (intVal, None) => Ok (FormatInt intVal)
    | _ => Ok (FormatInt (simpleStringHash secret))
    end
  else if String.eqb wasmType "i64" then
    match ParseInt secret 10 64 with
    | (intVal, None) => Ok (FormatInt intVal)
    | _ => Ok (FormatInt (int64 (simpleStringHash secret)))
    end
  else if String.eqb wasmType "f32" || String.eqb wasmType "f64" then
    match floatLiteral secret with
    | Some lit => Ok lit
    | None => Err ("cannot convert string secret to float type " ++ wasmType)
    end
  else Err ("unsupported WASM type: " ++ wasmType).

(** The inline definition that takes the place of an import. *)
Definition globalDef (globalName wasmType wasmValue : string) : string :=
  "(global $" ++ globalName ++ " " ++ wasmType ++ " (" ++ wasmType
  ++ ".const " ++ wasmValue ++ "))".

(** The loop of injectSecretsIntoWAT over the matches, [result] being the
    working text. *)
Fixpoint injectLoop (secrets : gmap string string) (matches : list Submatch)
    (result : string) : outcome string :=
  match matches with
  | [] => Ok result
  | m :: rest =>
    match secrets !! secretName m with
    | Some secretValue =>
      match convertSecretToWASMValue secretValue (wasmType m) with
      | Err e => Err ("failed to convert secret " ++ secretName m ++ ": " ++ e)
      | Ok wasmValue =>
        injectLoop secrets rest
          (ReplaceFirst result (fullImport m)
             (globalDef (globalName m) (wasmType m) wasmValue))
      end
    | None => injectLoop secrets rest result
    end
  end.

(** injectSecretsIntoWAT *)
Definition injectSecretsIntoWAT (watCode : string) (secrets : gmap string string)
  : outcome string :=
  injectLoop secrets (FindAllStringSubmatch watCode) watCode.

(** base64DecodeWASM *)
Definition base64DecodeWASM (encoded : string) : outcome string :=
  let cleaned := ReplaceAll encoded " " EmptyString in
  let cleaned := ReplaceAll cleaned (String (ascii_of_nat 10) EmptyString) EmptyString in
  let cleaned := ReplaceAll cleaned (String (ascii_of_nat 9) EmptyString) EmptyString in
  match base64Std cleaned with
  | Err err =>
    if Nat.eqb (String.length cleaned mod 2) 0 then
      match hexLoop cleaned with
      | None => Err err
      | Some hexDecoded => Ok hexDecoded
      end
    else Err err
  | Ok decoded => Ok decoded
  end.

(** ExecuteWASM: the pair of the returned value and the error, as in Go,
    when the function returns. *)
Definition ExecuteWASM (env : CompileEnv) (wasmCode functionName : string)
    (args : list Z) (secrets : gmap string string) : completion (Z * option string) :=
  let loaded : outcome (outcome Module_) :=
    if isWATText wasmCode then
      let processed :=
        if bool_decide (secrets = ∅) then Ok wasmCode
        else injectSecretsIntoWAT wasmCode secrets in
      match processed with
      | Err e => Err ("failed to inject secrets: " ++ e)
      | Ok processedWAT =>
        match fst (compileWATToWASM env processedWAT) with
        | Err e => Err ("failed to compile WAT to WASM: " ++ e)
        | Ok wasmBytes => Ok (NewModule wasmBytes)
        end
      end
    else
      match base64DecodeWASM wasmCode with
      | Err e => Err ("failed to decode WASM bytecode: " ++ e)
      | Ok wasmBytes => Ok (NewModule wasmBytes)
      end in
  match loaded with
  | Err e => Returns (0, Some e)
  | Ok (Err e) => Returns (0, Some ("failed to create WASM module: " ++ e))
  | Ok (Ok module) =>
    match NewInstance module with
    | Panics => Panics
    | Diverges => Diverges
    | Returns (Err e) => Returns (0, Some ("failed to create WASM instance: " ++ e))
    | Returns (Ok instance) =>
      match GetExport instance functionName with
      | None =>
        Returns (0, Some ("function '" ++ functionName ++ "' not found in WASM module"))
      | Some exportedFunc =>
        match ExternFunc exportedFunc with
        | None => Returns (0, Some ("'" ++ functionName ++ "' is not a function"))
        | Some wasmFunc =>
          match Call wasmFunc args with
          | Panics => Panics
          | Diverges => Diverges
          | Returns (Err e) => Returns (0, Some ("WASM function call failed: " ++ e))
          | Returns (Ok (VI32 resultVal)) => Returns (resultVal, None)
          | Returns (Ok v) =>
            Returns (0, Some ("unexpected return type from WASM function: " ++ typeName v))
          end
        end
      end
    end
  end.

(** The response handleConnection builds for one decoded request, when
    ExecuteWASM returns. *)
Definition respond (env : CompileEnv) (wasmReq : WASMRequest)
  : completion WASMResponse :=
  match ExecuteWASM env (WASMCode wasmReq) (FunctionName wasmReq) (Args wasmReq)
          (Secrets wasmReq) with
  | Returns (result, Some err) =>
    Returns {| Result := result; Error := "WASM execution failed: " ++ err |}
  | Returns (result, None) => Returns {| Result := result; Error := EmptyString |}
  | Panics => Panics
  | Diverges => Diverges
  end.

(** How the task of a connection ends: handleConnection returns and the
    connection is closed, the process ends in a panic, or the task stays
    inside a call for ever. *)
Inductive ending := Closed | Crashed | Blocked.

(** handleConnection.  The connection delivers the requests of [incoming]
    and then fails to decode (end of stream); each request comes with the
    answers of the operating system for its compilation and with the
    outcome of writing its response.  The result lists the responses handed
    to the encoder, in order, and tells how the task ends. *)
Fixpoint handleConnection (incoming : list (WASMRequest * CompileEnv * bool))
  : list WASMResponse * ending :=
  match incoming with
  | [] => ([], Closed)
  | (wasmReq, env, encodeOk) :: later =>
    match respond env wasmReq with
    | Panics => ([], Crashed)
    | Diverges => ([], Blocked)
    | Returns response =>
      if encodeOk then
        let '(responses, how) := handleConnection later in (response :: responses, how)
      else ([response], Closed)
    end
  end.

End Engine.

End Executor.

(** ** The host relay *)

Module Host.
Import Executor.

Section Relay.

(** The connections to the enclave, as handed out by [vsock.Dial]. *)
Variable Conn : Type.

Record HostService := {
  enclaveConn : option Conn;
  enclaveConnected : bool
}.

Definition NewHostService : HostService :=
  {| enclaveConn := None; enclaveConnected := false |}.



(** What the relay does on the outside, in order. *)
Inductive Event :=
| Dial
| Send (c : Conn) (req : WASMRequest)
| Receive (c : Conn)
| Reply (resp : WASMResponse).

(** The answers of the outside world while one request is handled: the
    outcome of a dial, the error of writing the request, the outcome of
    reading the response, and whether the reply reaches the client.  The
    relay sets no deadline on the read of the response: [received] is
    [None] when that read never returns. *)
Record IO := {
  dial : outcome Conn;
  sendErr : option string;
  received : option (outcome WASMResponse);
  replyOk : bool
}.

(** connectToEnclave *)
Definition connectToEnclave (io : IO) (h : HostService)
  : HostService * option string * list Event :=
  if enclaveConnected h then (h, None, [])
  else
    match dial io with
    | Err e => (h, Some ("failed to connect to enclave: " ++ e), [Dial])
    | Ok conn =>
      ({| enclaveConn := Some conn; enclaveConnected := true |}, None, [Dial])
    end.

Definition noResponse : WASMResponse := {| Result := 0; Error := EmptyString |}.

(** forwardToEnclave: it reads the service and never writes it.  The
    result is what the call returns, [None] when it never returns, and the
    events; [Receive] is the start of the read of the response. *)
Definition forwardToEnclave (io : IO) (h : HostService) (req : WASMRequest)
  : option (WASMResponse * option string) * list Event :=
  match enclaveConnected h, enclaveConn h with
  | true, Some conn =>
    match sendErr io with
    | Some e =>
      (Some (noResponse, Some ("failed to send request to enclave: " ++ e)),
       [Send conn req])
    | None =>
      match received io with
      | None => (None, [Send conn req; Receive conn])
      | Some (Err e) =>
        (Some (noResponse, Some ("failed to decode WASM response from enclave: " ++ e)),
         [Send conn req; Receive conn])
      | Some (Ok response) => (Some (response, None), [Send conn req; Receive conn])
      end
    end
  | _, _ => (Some (noResponse, Some "not connected to enclave"), [])
  end.

(** One round of the loop of handleClientConnection for a decoded request:
    the service afterwards, whether the loop goes on to the next request
    (it does not when the function returns, nor when the round never
    ends), and the events. *)
Definition handleRequest (io : IO) (h : HostService) (req : WASMRequest)
  : HostService * bool * list Event :=
  let '(h1, connErr, ev1) :=
    if enclaveConnected h then (h, None, []) else connectToEnclave io h in
  match connErr with
  | Some e =>
    (h1, true,
     (ev1 ++ [Reply {| Result := 0; Error := "Could not connect to enclave: " ++ e |}])%list)
  | None =>
    match forwardToEnclave io h1 req with
    | (None, ev2) => (h1, false, (ev1 ++ ev2)%list)
    | (Some (_, Some e), ev2) =>
      (h1, true,
       (ev1 ++ ev2
        ++ [Reply {| Result := 0; Error := "Enclave communication error: " ++ e |}])%list)
    | (Some (wasmResp, None), ev2) =>
      (h1, replyOk io, (ev1 ++ ev2 ++ [Reply wasmResp])%list)
    end
  end.

(** handleClientConnection over the requests the client sends before it
    disconnects, each with the answers of the outside world; the events
    end with those of a round that never ends. *)
Fixpoint handleClientConnection (h : HostService) (incoming : list (WASMRequest * IO))
  : HostService * list Event :=
  match incoming with
  | [] => (h, [])
  | (req, io) :: later =>
    let '(h1, continue, ev) := handleRequest io h req in
    if continue then
      let '(h2, evs) := handleClientConnection h1 later in (h2, (ev ++ evs)%list)
    else (h1, ev)
  end.

End Relay.

Arguments Dial {Conn}.
Arguments Reply {Conn} resp.

(** *** Several client tasks on the one channel

    Every accepted client connection runs handleClientConnection in a task
    of its own, and all of them call forwardToEnclave on the same service.
    The interleaving model below takes whole messages as the unit of
    transfer: a task writes its request in one piece, and its decoder,
    made for the call, takes the next response and possibly further
    messages that are lost with the decoder when the call returns.  A
    write and a read can fail.  The enclave answers the requests of the
    channel in their order of arrival, as the loop of its handleConnection
    does. *)

Section Interleaving.

Variable Conn : Type.

(** What the enclave answers to a request. *)
Variable enclave : WASMRequest -> WASMResponse.

(** Where a client task stands in its call of forwardToEnclave. *)
Inductive Pc :=
| Calling (req : WASMRequest)
| Holding (req : WASMRequest)
| Waiting (req : WASMRequest)
| Leaving (req : WASMRequest) (resp : outcome WASMResponse)
| Returned (req : WASMRequest) (resp : outcome WASMResponse).

(** The read-write lock [mu] (number of read holders, write holder), the
    service, the messages under way in the two directions of the channel,
    and the client tasks. *)
Record System := {
  readers : nat;
  writerHeld : bool;
  service : HostService Conn;
  upstream : list WASMRequest;
  downstream : list WASMResponse;
  clients : list Pc
}.

(** The next step of client task [i], the next answer of the enclave, a
    failing write or read of task [i] with the error of the connection,
    and a read of task [i] whose decoder takes [extra] messages beyond the
    response. *)
Inductive Action :=
| Client (i : nat)
| Enclave
| WriteFails (i : nat) (e : string)
| ReadFails (i : nat) (e : string)
| ReadsAhead (i : nat) (extra : nat).

Definition setClient (s : System) (i : nat) (pc : Pc) : System :=
  {| readers := readers s; writerHeld := writerHeld s; service := service s;
     upstream := upstream s; downstream := downstream s;
     clients := <[i := pc]> (clients s) |}.

(** One atomic step; [None] when the action is blocked or not available. *)
Definition step (a : Action) (s : System) : option System :=
  match a with
  | Enclave =>
    match upstream s with
    | [] => None
    | req :: rest =>
      Some {| readers := readers s; writerHeld := writerHeld s; service := service s;
              upstream := rest; downstream := (downstream s ++ [enclave req])%list;
              clients := clients s |}
    end
  | Client i =>
    match clients s !! i with
    | None => None
    | Some (Calling req) =>
      (* h.mu.RLock(): read holders exclude a write holder only *)
      if writerHeld s then None
      else Some {| readers := S (readers s); writerHeld := false; service := service s;
                   upstream := upstream s; downstream := downstream s;
                   clients := <[i := Holding req]> (clients s) |}
    | Some (Holding req) =>
      match enclaveConnected _ (service s), enclaveConn _ (service s) with
      | true, Some _ =>
        (* encoder.Encode(req) *)
        Some {| readers := readers s; writerHeld := writerHeld s; service := service s;
                upstream := (upstream s ++ [req])%list; downstream := downstream s;
                clients := <[i := Waiting req]> (clients s) |}
      | _, _ => Some (setClient s i (Leaving req (Err "not connected to enclave")))
      end
    | Some (Waiting req) =>
      (* decoder.Decode(&response) *)
      match downstream s with
      | [] => None
      | response :: rest =>
        Some {| readers := readers s; writerHeld := writerHeld s; service := service s;
                upstream := upstream s; downstream := rest;
                clients := <[i := Leaving req (Ok response)]> (clients s) |}
      end
    | Some (Leaving req resp) =>
      (* the deferred h.mu.RUnlock() *)
      Some {| readers := pred (readers s); writerHeld := writerHeld s;
              service := service s; upstream := upstream s; downstream := downstream s;
              clients := <[i := Returned req resp]> (clients s) |}
    | Some (Returned _ _) => None
    end
  | WriteFails i e =>
    match clients s !! i with
    | Some (Holding req) =>
      match enclaveConnected _ (service s), enclaveConn _ (service s) with
      | true, Some _ =>
        (* encoder.Encode(req) returns an error *)
        Some (setClient s i
                (Leaving req (Err ("failed to send request to enclave: " ++ e))))
      | _, _ => None
      end
    | _ => None
    end
  | ReadFails i e =>
    match clients s !! i with
    | Some (Waiting req) =>
      (* decoder.Decode(&response) returns an error *)
      Some (setClient s i
              (Leaving req (Err ("failed to decode WASM response from enclave: " ++ e))))
    | _ => None
    end
  | ReadsAhead i extra =>
    match clients s !! i with
    | Some (Waiting req) =>
      (* decoder.Decode(&response) with further messages in its buffer *)
      match downstream s with
      | [] => None
      | response :: rest =>
        Some {| readers := readers s; writerHeld := writerHeld s; service := service s;
                upstream := upstream s; downstream := skipn extra rest;
                clients := <[i := Leaving req (Ok response)]> (clients s) |}
      end
    | _ => None
    end
  end.

Fixpoint run (schedule : list Action) (s : System) : option System :=
  match schedule with
  | [] => Some s
  | a :: later =>
    match step a s with
    | Some s' => run later s'
    | None => None
    end
  end.

(** All client tasks about to forward, on an established channel. *)
Definition start (conn : Conn) (reqs : list WASMRequest) : System :=
  {| readers := 0; writerHeld := false;
     service := {| enclaveConn := Some conn; enclaveConnected := true |};
     upstream := []; downstream := []; clients := map Calling reqs |}.

End Interleaving.

End Host.

(** ** Decimal numerals, for the statements about value coercion *)

Module Decimal.
Import GoInt.

Definition isDigit (c : ascii) : bool := (0x30 <=? byteOf c) && (byteOf c <=? 0x39).

Fixpoint allDigits (s : string) : bool :=
  match s with
  | EmptyString => true
  | String c r => isDigit c && allDigits r
  end.

(** The number a digit string denotes after the digits read so far gave [n]. *)
Fixpoint decValue (n : Z) (s : string) : Z :=
  match s with
  | EmptyString => n
  | String c r => decValue (n * 10 + (byteOf c - 0x30)) r
  end.

(** The cutoff of the digit loop of ParseUint in base ten. *)
Definition cutoff10 : Z := (2 ^ 64 - 1) / 10 + 1.

(** Decimal numerals as [%d] prints them: an optional minus sign, then
    either the single digit zero or digits that do not start with zero;
    no minus sign in front of zero. *)
Definition canonicalDecimal (s : string) : bool :=
  match s with
  | EmptyString => false
  | String c r =>
    if Ascii.eqb c "-" then
      match r with
      | EmptyString => false
      | String d r' => isDigit d && negb (Ascii.eqb d "0") && allDigits r'
      end
    else if Ascii.eqb c "0" then
      match r with EmptyString => true | _ => false end
    else isDigit c && allDigits r
  end.
End Decimal.

(** ** The polynomial hash, for the statements about the fallback literal *)

Module Polynomial.

(** The polynomial in 31 over the integers whose coefficients are the code
    points, the first code point with the highest power. *)
Fixpoint polynomial (cs : list Z) : Z :=
  match cs with
  | [] => 0
  | c :: r => c * 31 ^ Z.of_nat (List.length r) + polynomial r
  end.

(** The 32-bit two's-complement integer congruent to [z] modulo 2^32. *)
Definition residue32 (z : Z) : Z := (z + 2 ^ 31) mod 2 ^ 32 - 2 ^ 31.

(** The polynomial hash: the polynomial of the code points as a 32-bit
    integer, negated in 32-bit arithmetic when it is negative. *)
Definition hash32 (cs : list Z) : Z :=
  let p := residue32 (polynomial cs) in
  if p <? 0 then residue32 (- p) else p.

End Polynomial.


(** ** Cleaning and hex pairs, for the statements about binary decoding *)

Module Encoding.
Import GoInt Executor.

(** [s] without the occurrences of [c]. *)
Fixpoint removeChar (c : ascii) (s : string) : string :=
  match s with
  | EmptyString => EmptyString
  | String a r => if Ascii.eqb c a then removeChar c r else String a (removeChar c r)
  end.

(** The input without spaces, newlines and tabs. *)
Definition cleaned (encoded : string) : string :=
  removeChar (ascii_of_nat 9) (removeChar (ascii_of_nat 10) (removeChar " " encoded)).

(** The value of a hex digit, upper or lower case. *)
Definition hexVal (c : ascii) : option Z :=
  let b := byteOf c in
  if (0x30 <=? b) && (b <=? 0x39) then Some (b - 0x30)
  else if (0x61 <=? b) && (b <=? 0x66) then Some (b - 0x61 + 10)
  else if (0x41 <=? b) && (b <=? 0x46) then Some (b - 0x41 + 10)
  else None.

(** The bytes that the pairs of hex digits of [s] denote; [None] when some
    pair holds a character that is no hex digit. *)
Fixpoint hexBytes (s : string) : option string :=
  match s with
  | String a (String b r) =>
    match hexVal a, hexVal b, hexBytes r with
    | Some x, Some y, Some tl => Some (String (ascii_of_N (Z.to_N (16 * x + y))) tl)
    | _, _, _ => None
    end
  | _ => Some EmptyString
  end.

(** A decoder for standard base64 with padding, to run the executor on
    concrete inputs: carriage returns and newlines are skipped, the rest
    must come in groups of four characters of the alphabet, the last group
    possibly padded.  The message of the error does not carry the offset
    that Go reports. *)
Definition sextet (c : ascii) : option Z :=
  let b := byteOf c in
  if (0x41 <=? b) && (b <=? 0x5A) then Some (b - 0x41)
  else if (0x61 <=? b) && (b <=? 0x7A) then Some (b - 0x61 + 26)
  else if (0x30 <=? b) && (b <=? 0x39) then Some (b - 0x30 + 52)
  else if b =? 0x2B then Some 62
  else if b =? 0x2F then Some 63
  else None.

Definition byteChar (z : Z) : ascii := ascii_of_N (Z.to_N (z mod 256)).

Fixpoint quanta (s : string) : option string :=
  match s with
  | EmptyString => Some EmptyString
  | String a (String b (String c (String d r))) =>
    match sextet a, sextet b with
    | Some x, Some y =>
      let b0 := byteChar (x * 4 + y / 16) in
      match sextet c, sextet d with
      | Some z, Some w =>
        match quanta r with
        | Some tl =>
          Some (String b0 (String (byteChar (y * 16 + z / 4))
                  (String (byteChar (z * 64 + w)) tl)))
        | None => None
        end
      | Some z, None =>
        if Ascii.eqb d "=" && match r with EmptyString => true | _ => false end
        then Some (String b0 (String (byteChar (y * 16 + z / 4)) EmptyString))
        else None
      | None, _ =>
        if Ascii.eqb c "=" && Ascii.eqb d "="
           && match r with EmptyString => true | _ => false end
        then Some (String b0 EmptyString)
        else None
      end
    | _, _ => None
    end
  | _ => None
  end.

Definition stdDecode (s : string) : outcome string :=
  match quanta (removeChar (ascii_of_nat 13) (removeChar (ascii_of_nat 10) s)) with
  | Some bytes => Ok bytes
  | None => Err "illegal base64 data"
  end.

End Encoding.

(** ** Rewriting in place, for the statements about the template processor *)

Module Template.
Import Strings Regexp Executor.

(** The text that a split into matches and gaps stands for. *)
Fixpoint render (ps : list (string * Submatch)) (tl : string) : string :=
  match ps with
  | [] => tl
  | (gap, m) :: rest => gap ++ fullImport m ++ render rest tl
  end.

(** The inline global definition [(global $ident k (k.const literal))]. *)
Definition inlineGlobal (ident k literal : string) : string :=
  "(global $" ++ ident ++ " " ++ k ++ " (" ++ k ++ ".const " ++ literal ++ "))".

(** A placeholder import in the usual layout, its parts separated by
    single spaces: [(import Qmodule Q Qname Q (global $ident k))], Q the
    double quote. *)
Record Decl := {
  dModule : string;
  dName : string;
  dIdent : string;
  dKind : string
}.

Definition declText (d : Decl) : string :=
  "(import " ++ String dquote (dModule d ++ String dquote (" " ++ String dquote
    (dName d ++ String dquote (" (global $" ++ dIdent d ++ " " ++ dKind d ++ "))")))).

Definition declMatch (d : Decl) : Submatch :=
  {| fullImport := declText d; secretName := dName d;
     globalName := dIdent d; wasmType := dKind d |}.

Fixpoint allS (f : ascii -> bool) (s : string) : bool :=
  match s with
  | EmptyString => true
  | String c r => f c && allS f r
  end.

Definition nonEmpty (s : string) : bool :=
  match s with EmptyString => false | String _ _ => true end.

(** The module name holds no double quote, the name is not empty and holds
    none, the identifier is not empty and holds neither white space nor a
    closing parenthesis, and the kind is one of the four numeric kinds. *)
Definition wfDecl (d : Decl) : bool :=
  allS notQuote (dModule d)
  && nonEmpty (dName d) && allS notQuote (dName d)
  && nonEmpty (dIdent d) && allS identChar (dIdent d)
  && (String.eqb (dKind d) "i32" || String.eqb (dKind d) "i64"
      || String.eqb (dKind d) "f32" || String.eqb (dKind d) "f64").

(** Text between declarations in which no import can begin. *)
Definition quiet (gap : string) : bool := negb (Contains gap "(im").

(** Gaps and declarations as gaps and matches. *)
Definition located (ds : list (string * Decl)) : list (string * Submatch) :=
  map (fun p => (fst p, declMatch (snd p))) ds.

(** [old] occurs in [text] right after [a], and nowhere earlier. *)
Definition firstOccurrence (a old b text : string) : Prop :=
  text = a ++ old ++ b /\
  forall a' b', text = a' ++ old ++ b' -> (String.length a <= String.length a')%nat.

(** [old] does not occur in [text]. *)
Definition absent (old text : string) : Prop :=
  forall a b, text <> a ++ old ++ b.

Section InPlace.
Variable floatLiteral : string -> option string.
Variable secrets : gmap string string.

(** The matches taken in order against the working text: a match without
    secret leaves the text as it is; a match whose secret has a literal
    has the first remaining occurrence of its text replaced by the inline
    global definition, and nothing replaced when no occurrence remains; a
    secret without literal ends the rewriting with its error. *)
Inductive Rewritten : list Submatch -> string -> outcome string -> Prop :=
| RwEnd text : Rewritten [] text (Ok text)
| RwNoSecret m ms text out :
    secrets !! secretName m = None ->
    Rewritten ms text out ->
    Rewritten (m :: ms) text out
| RwNoLiteral m ms text secretValue e :
    secrets !! secretName m = Some secretValue ->
    convertSecretToWASMValue floatLiteral secretValue (wasmType m) = Err e ->
    Rewritten (m :: ms) text
      (Err ("failed to convert secret " ++ secretName m ++ ": " ++ e))
| RwFirst m ms text secretValue literal a b out :
    secrets !! secretName m = Some secretValue ->
    convertSecretToWASMValue floatLiteral secretValue (wasmType m) = Ok literal ->
    firstOccurrence a (fullImport m) b text ->
    Rewritten ms (a ++ inlineGlobal (globalName m) (wasmType m) literal ++ b) out ->
    Rewritten (m :: ms) text out
| RwAbsent m ms text secretValue literal out :
    secrets !! secretName m = Some secretValue ->
    convertSecretToWASMValue floatLiteral secretValue (wasmType m) = Ok literal ->
    absent (fullImport m) text ->
    Rewritten ms text out ->
    Rewritten (m :: ms) text out.

(** What stands for a declaration in the output: the declaration itself
    when its name has no secret, else the inline global definition. *)
Definition replacement (m : Submatch) : outcome string :=
  match secrets !! secretName m with
  | None => Ok (fullImport m)
  | Some secretValue =>
    match convertSecretToWASMValue floatLiteral secretValue (wasmType m) with
    | Err e => Err ("failed to convert secret " ++ secretName m ++ ": " ++ e)
    | Ok literal => Ok (inlineGlobal (globalName m) (wasmType m) literal)
    end
  end.

(** The source with every declaration replaced where it stands. *)
Fixpoint inPlace (ps : list (string * Submatch)) (tl : string) : outcome string :=
  match ps with
  | [] => Ok tl
  | (gap, m) :: rest =>
    match replacement m with
    | Err e => Err e
    | Ok r =>
      match inPlace rest tl with
      | Err e => Err e
      | Ok t => Ok (gap ++ r ++ t)
      end
    end
  end.

(** [old] occurs in [pre ++ old] at the end only. *)
Definition firstAt (pre old : string) : bool :=
  match Index (pre ++ old) old with
  | Some j => Nat.eqb j (String.length pre)
  | None => false
  end.

(** No declaration that has a secret is preceded, in the working text of
    the moment it is replaced, by another occurrence of its own text.
    [done] is the working text in front of the declarations still to come. *)
Fixpoint separated (done : string) (ps : list (string * Submatch)) : bool :=
  match ps with
  | [] => true
  | (gap, m) :: rest =>
    match secrets !! secretName m with
    | None => separated (done ++ gap ++ fullImport m) rest
    | Some _ =>
      match replacement m with
      | Err _ => true
      | Ok r => firstAt (done ++ gap) (fullImport m) && separated (done ++ gap ++ r) rest
      end
    end
  end.

End InPlace.
End Template.

(** ** The requests a connection loop gets to decode *)

Module Stream.
Import Strings Executor.

(** The requests that handleConnection decodes from [incoming]: it stops
    reading after the first response that cannot be written. *)
Fixpoint decoded (incoming : list (WASMRequest * CompileEnv * bool))
  : list (WASMRequest * CompileEnv) :=
  match incoming with
  | [] => []
  | (wasmReq, env, encodeOk) :: later =>
    (wasmReq, env) :: (if encodeOk then decoded later else [])
  end.

Section Stages.
Variable floatLiteral : string -> option string.
Variable base64Std : string -> outcome string.
Variables (Module_ Instance Extern Func : Type).
Variable NewModule : string -> outcome Module_.
Variable NewInstance : Module_ -> completion (outcome Instance).
Variable GetExport : Instance -> string -> option Extern.
Variable ExternFunc : Extern -> option Func.
Variable Call : Func -> list Z -> completion (outcome Val).

(** The binary module of a request: compiled from the text with its
    secrets injected when the code is WAT text, decoded otherwise. *)
Definition obtained (env : CompileEnv) (req : WASMRequest) (wasmBytes : string) : Prop :=
  (isWATText (WASMCode req) = true /\
   exists processedWAT,
     (if bool_decide (Secrets req = ∅) then Ok (WASMCode req)
      else injectSecretsIntoWAT floatLiteral (WASMCode req) (Secrets req))
     = Ok processedWAT /\
     fst (compileWATToWASM env processedWAT) = Ok wasmBytes)
  \/ (isWATText (WASMCode req) = false /\
      base64DecodeWASM base64Std (WASMCode req) = Ok wasmBytes).

(** Execution succeeds with the value [v]: the module is obtained, created
    and instantiated, the export exists and is a function, and its call
    with the arguments of the request returns the i32 value [v]. *)
Definition succeeds (env : CompileEnv) (req : WASMRequest) (v : Z) : Prop :=
  exists wasmBytes module instance exportedFunc wasmFunc,
    obtained env req wasmBytes /\
    NewModule wasmBytes = Ok module /\
    NewInstance module = Returns (Ok instance) /\
    GetExport instance (FunctionName req) = Some exportedFunc /\
    ExternFunc exportedFunc = Some wasmFunc /\
    Call wasmFunc (Args req) = Returns (Ok (VI32 v)).

End Stages.

End Stream.

(** ** Concrete services, requests and answers of the outside world *)

Module Scenario.
Import Executor Host.

Definition established : HostService nat :=
  {| enclaveConn := Some 7%nat; enclaveConnected := true |}.

Definition squareOf (n : Z) : WASMRequest :=
  {| WASMCode := "(module)"; FunctionName := "square"; Args := [n]; Secrets := ∅ |}.

(** The write of the request fails. *)
Definition brokenWrite : IO nat :=
  {| dial := Err "connection refused"; sendErr := Some "broken pipe";
     received := Some (Err "EOF"); replyOk := true |}.

(** The request is written, the read of the response fails. *)
Definition brokenRead : IO nat :=
  {| dial := Err "connection refused"; sendErr := None;
     received := Some (Err "EOF"); replyOk := true |}.

(** The request is written and the response never comes. *)
Definition silent : IO nat :=
  {| dial := Err "connection refused"; sendErr := None;
     received := None; replyOk := true |}.

(** Two client tasks overlap on the channel: both take the read lock, both
    write their request, the enclave answers the two requests in order, and
    the second task reads first. *)
Definition overlapping : list Action :=
  [Client 0; Client 1; Client 0; Client 1; Enclave; Enclave;
   Client 1; Client 0; Client 1; Client 0].

(** Two client tasks overlap, the write of the first fails and the read of
    the second fails. *)
Definition failing : list Action :=
  [Client 0; Client 1; WriteFails 0 "broken pipe"; Client 1; Client 0;
   ReadFails 1 "EOF"; Client 1].

(** As [overlapping], but the decoder of the second task takes both
    responses: nothing is left for the first task. *)
Definition starving : list Action :=
  [Client 0; Client 1; Client 0; Client 1; Enclave; Enclave;
   ReadsAhead 1 1; Client 1].

End Scenario.

(** ** Templates and secrets to run the template processor on *)

Module Samples.
Import Strings Regexp.

(** A module text in which the text of the second declaration also occurs
    inside the first, and a secret for the second declaration only. *)
Definition overlapSource : string :=
  wat "(module (import '(import ' ' ' (global $x i32)) ' (global $y i32)) (import ' ' ' (global $x i32)) ' (global $y i32)) (func))".

Definition overlapFirst : Submatch :=
  {| fullImport := wat "(import '(import ' ' ' (global $x i32))";
     secretName := " "; globalName := "x"; wasmType := "i32" |}.

Definition overlapSecond : Submatch :=
  {| fullImport := wat "(import ' ' ' (global $x i32)) ' (global $y i32))";
     secretName := wat " (global $x i32)) "; globalName := "y"; wasmType := "i32" |}.

Definition overlapSecrets : gmap string string :=
  {[ wat " (global $x i32)) " := "5" ]}.

(** Two identical declarations that have a secret, one that has none, and
    a secret that no declaration names. *)
Definition repeatedSource : string :=
  wat "(module (import 'env' 'K' (global $K i32)) (import 'env' 'K' (global $K i32)) (import 'env' 'L' (global $L i64)))".

Definition repeatedSecrets : gmap string string := {[ "K" := "42"; "UNUSED" := "1" ]}.

(** The same source as gaps and declarations. *)
Definition repeatedDecls : list (string * Template.Decl) :=
  [("(module ", {| Template.dModule := "env"; Template.dName := "K";
                   Template.dIdent := "K"; Template.dKind := "i32" |});
   (" ", {| Template.dModule := "env"; Template.dName := "K";
            Template.dIdent := "K"; Template.dKind := "i32" |});
   (" ", {| Template.dModule := "env"; Template.dName := "L";
            Template.dIdent := "L"; Template.dKind := "i64" |})].

(** One declaration that has a secret and one that has none. *)
Definition mixedSource : string :=
  wat "(module (import 'env' 'K' (global $K i32)) (import 'env' 'L' (global $L i64)) (func))".

Definition importK : Submatch :=
  {| fullImport := wat "(import 'env' 'K' (global $K i32))";
     secretName := "K"; globalName := "K"; wasmType := "i32" |}.

Definition importL : Submatch :=
  {| fullImport := wat "(import 'env' 'L' (global $L i64))";
     secretName := "L"; globalName := "L"; wasmType := "i64" |}.

Definition mixedPieces : list (string * Submatch) :=
  [("(module ", importK); (" ", importL)].

End Samples.

(** ** Logging helper of the executor *)

Module Logging.
Import Strings.

(** maskSecret *)
Definition maskSecret (secret : string) : string :=
  if (String.length secret <=? 8)%nat then "***"
  else takeS 4 secret ++ "***" ++ dropS (String.length secret - 4) secret.

End Logging.

(** ** Substrings and blank text, for the statements about input detection *)

Module Text.

(** [sub] occurs in [s]. *)
Definition occurs (sub s : string) : Prop :=
  exists a b, s = a ++ sub ++ b.

(** Only spaces, newlines and tabs. *)
Fixpoint onlyBlank (w : string) : bool :=
  match w with
  | EmptyString => true
  | String c r =>
    (Ascii.eqb c " " || Ascii.eqb c (ascii_of_nat 10) || Ascii.eqb c (ascii_of_nat 9))
    && onlyBlank r
  end.

(** The kinds that the import pattern can capture. *)
Definition numericKind (k : string) : Prop :=
  k = "i32" \/ k = "i64" \/ k = "f32" \/ k = "f64".

Definition floatKind (k : string) : Prop := k = "f32" \/ k = "f64".

(** The two lower-case hex digits of every byte, in order. *)
Definition hexDigit (n : Z) : ascii :=
  if n <? 10 then ascii_of_N (Z.to_N (0x30 + n)) else ascii_of_N (Z.to_N (0x57 + n)).

Fixpoint hexEncode (bytes : string) : string :=
  match bytes with
  | EmptyString => EmptyString
  | String c r =>
    String (hexDigit (GoInt.byteOf c / 16))
      (String (hexDigit (GoInt.byteOf c mod 16)) (hexEncode r))
  end.

End Text.

(** ** The command-line client *)

Module Client.
Import GoInt Strconv Strings Executor.

(** [strconv.Atoi] on a 64-bit platform: the value of the numeral, or the
    kind of the error. *)
Definition Atoi (s : string) : Z * option NumError := ParseInt s 10 64.

(** The argument loop of main: every argument after the function name goes
    through Atoi and is then converted to int32.  The first argument that
    Atoi rejects ends the program ([log.Fatalf]): the result then names
    that argument and the kind of the error. *)
Fixpoint parseArgs (osArgs : list string) : list Z + string * NumError :=
  match osArgs with
  | [] => inl []
  | a :: rest =>
    match Atoi a with
    | (_, Some err) => inr (a, err)
    | (arg, None) =>
      match parseArgs rest with
      | inr bad => inr bad
      | inl args => inl (int32 arg :: args)
      end
    end
  end.

(** The [asciiSpace] table of package strings: tab, newline, vertical tab,
    form feed, carriage return and space. *)
Definition asciiSpace (c : ascii) : bool :=
  let b := byteOf c in
  (b =? 9) || (b =? 10) || (b =? 11) || (b =? 12) || (b =? 13) || (b =? 32).

Definition RuneSelf : Z := 0x80.

Section Input.

(** The Unicode paths of [strings.TrimSpace], taken as soon as a byte
    outside ASCII is met: [TrimFunc(s, unicode.IsSpace)] and
    [TrimRightFunc(s, unicode.IsSpace)]. *)
Variable TrimFunc TrimRightFunc : string -> string.

(** The first loop of TrimSpace.  [inr t]: the loop stopped and [t] is
    [s[start:]]; [inl t]: the byte at [start] is outside ASCII and [t] is
    [s[start:]]. *)
Fixpoint trimStart (s : string) : string + string :=
  match s with
  | EmptyString => inr EmptyString
  | String c r =>
    if RuneSelf <=? byteOf c then inl s
    else if asciiSpace c then trimStart r
    else inr s
  end.

(** The second loop of TrimSpace on [t = s[start:]], with [stop] counted
    from [start].  The loop keeps [stop] within the text, so the byte at
    [stop - 1] exists. *)
Fixpoint trimStop (t : string) (stop : nat) : string :=
  match stop with
  | O => takeS O t
  | S k =>
    match String.get k t with
    | Some c =>
      if RuneSelf <=? byteOf c then TrimRightFunc (takeS (S k) t)
      else if asciiSpace c then trimStop t k
      else takeS (S k) t
    | None => takeS (S k) t
    end
  end.

(** [strings.TrimSpace] *)
Definition TrimSpace (s : string) : string :=
  match trimStart s with
  | inl t => TrimFunc t
  | inr t => trimStop t (String.length t)
  end.

(** isInlineWAT *)
Definition isInlineWAT (input : string) : bool :=
  HasPrefix (TrimSpace input) "(module".

(** The code that main sends: the first argument itself when it looks
    like inline WAT, the content of the file of that name otherwise.  A
    file that cannot be read ends the program ([log.Fatalf]). *)
Definition chooseCode (readFile : string -> outcome string) (wasmInput : string)
    : outcome string :=
  if isInlineWAT wasmInput then Ok wasmInput
  else match readFile wasmInput with
       | Ok content => Ok content
       | Err e => Err ("Failed to read WASM file " ++ wasmInput ++ ": " ++ e)
       end.

End Input.

(** Text of ASCII spaces only, and text of ASCII bytes only. *)
Fixpoint onlySpace (w : string) : bool :=
  match w with
  | EmptyString => true
  | String c r => asciiSpace c && onlySpace r
  end.

Fixpoint ascii7 (s : string) : bool :=
  match s with
  | EmptyString => true
  | String c r => (byteOf c <? RuneSelf) && ascii7 r
  end.

End Client.

(** ** An operating system and a runtime to run the executor on *)

Module Bench.
Import Executor.

(** Every file operation and the compiler succeed; nothing is produced. *)
Definition quietEnv : CompileEnv :=
  {| writeErr := fun _ _ => None;
     runWat2wasm := fun _ => (EmptyString, None);
     readBack := fun _ => Ok EmptyString |}.

(** The source file cannot be written. *)
Definition fullDiskEnv : CompileEnv :=
  {| writeErr := fun _ _ => Some "no space left on device";
     runWat2wasm := fun _ => (EmptyString, None);
     readBack := fun _ => Ok EmptyString |}.

(** The header of a binary module, base64-encoded. *)
Definition headerBase64 : string := "AGFzbQEAAAA=".

(** An enclave that squares the first argument of a request. *)
Definition squaring (req : WASMRequest) : WASMResponse :=
  {| Result := GoInt.int32 (hd 0 (Args req) * hd 0 (Args req)); Error := EmptyString |}.

(** Where the schedule [Scenario.failing] leaves two client tasks that
    asked for the squares of 7 and of 3: both have returned an error, and
    the request of the second is still under way. *)
Definition failed : Host.System nat :=
  {| Host.readers := 0; Host.writerHeld := false; Host.service := Scenario.established;
     Host.upstream := [Scenario.squareOf 3]; Host.downstream := [];
     Host.clients :=
       [Host.Returned (Scenario.squareOf 7)
          (Err "failed to send request to enclave: broken pipe");
        Host.Returned (Scenario.squareOf 3)
          (Err "failed to decode WASM response from enclave: EOF")] |}.

End Bench.

(** ** Counting, for the statements about the relay *)

Module Tally.
Import Executor Host.

Definition isReply {Conn : Type} (e : Event Conn) : bool :=
  match e with Reply _ => true | _ => false end.

(** A task holds the read lock from its RLock to its RUnlock. *)
Definition holdsLock (pc : Pc) : bool :=
  match pc with
  | Holding _ | Waiting _ | Leaving _ _ => true
  | Calling _ | Returned _ _ => false
  end.

Definition lockHolders (tasks : list Pc) : nat :=
  List.length (List.filter holdsLock tasks).

(** The states a single client task and its channel can be in when the
    task forwards [req] on an established channel: nothing is under way
    before the request is written and after the response is read, and from
    the write on the request or its response is under way. *)
Definition soloState {Conn : Type} (enclave : WASMRequest -> WASMResponse)
    (req : WASMRequest) (s : System Conn) : Prop :=
  let idle := upstream Conn s = [] /\ downstream Conn s = [] in
  let flying :=
    (upstream Conn s = [req] /\ downstream Conn s = []) \/
    (upstream Conn s = [] /\ downstream Conn s = [enclave req]) in
  (clients Conn s = [Calling req] /\ idle) \/
  (clients Conn s = [Holding req] /\ idle) \/
  (clients Conn s = [Waiting req] /\ flying) \/
  (exists resp,
     (clients Conn s = [Leaving req resp] \/ clients Conn s = [Returned req resp]) /\
     ((resp = Ok (enclave req) /\ idle) \/
      (exists e, resp = Err ("failed to send request to enclave: " ++ e) /\ idle) \/
      (exists e, resp = Err ("failed to decode WASM response from enclave: " ++ e)
                 /\ flying))).

(** The lock as the tasks account for it. *)
Definition balanced {Conn : Type} (s : System Conn) : Prop :=
  readers Conn s = lockHolders (clients Conn s) /\ writerHeld Conn s = false.

Definition soloInv {Conn : Type} (enclave : WASMRequest -> WASMResponse)
    (req : WASMRequest) (s : System Conn) : Prop :=
  soloState enclave req s /\
  enclaveConnected Conn (service Conn s) = true /\
  enclaveConn Conn (service Conn s) <> None.

End Tally.

(** * Properties *)

Module GoIntFacts.
Import GoInt.

Lemma wrapS_range bits z : 0 < bits -> inInt bits (wrapS bits z).
Proof.
  intros Hb. unfold inInt, wrapS.
  assert (H2 : 2 ^ bits = 2 * 2 ^ (bits - 1)).
  { replace bits with (Z.succ (bits - 1)) at 1 by lia. apply Z.pow_succ_r. lia. }
  assert (Hp : 0 < 2 ^ (bits - 1)) by (apply Z.pow_pos_nonneg; lia).
  pose proof (Z.mod_pos_bound (z + 2 ^ (bits - 1)) (2 ^ bits)) as Hm.
  lia.
Qed.

Lemma wrapS_small bits z : 0 < bits -> inInt bits z -> wrapS bits z = z.
Proof.
  intros Hb [Hlo Hhi]. unfold wrapS.
  assert (H2 : 2 ^ bits = 2 * 2 ^ (bits - 1)).
  { replace bits with (Z.succ (bits - 1)) at 1 by lia. apply Z.pow_succ_r. lia. }
  rewrite Z.mod_small by lia. lia.
Qed.

Lemma int32_range z : - 2 ^ 31 <= int32 z < 2 ^ 31.
Proof. apply (wrapS_range 32). lia. Qed.

Lemma int64_small z : - 2 ^ 63 <= z < 2 ^ 63 -> int64 z = z.
Proof. intros H. apply (wrapS_small 64); [lia | exact H]. Qed.

Lemma uint64_small z : 0 <= z < 2 ^ 64 -> uint64 z = z.
Proof. intros H. unfold uint64, wrapU. apply Z.mod_small. exact H. Qed.

Lemma byteOf_range c : 0 <= byteOf c < 256.
Proof.
  unfold byteOf. pose proof (N_ascii_bounded c) as H. lia.
Qed.

End GoIntFacts.

Module StringFacts.
Import Strings.

Lemma app_cons c (s t : string) : String c s ++ t = String c (s ++ t).
Proof. reflexivity. Qed.

Lemma app_empty_l (s : string) : EmptyString ++ s = s.
Proof. reflexivity. Qed.

Lemma app_empty_r (s : string) : s ++ EmptyString = s.
Proof. induction s as [| c s IH]; [reflexivity |]. rewrite app_cons. now f_equal. Qed.

Lemma app_assoc (s t u : string) : (s ++ t) ++ u = s ++ t ++ u.
Proof.
  induction s as [| c s IH]; [reflexivity |].
  rewrite !app_cons. now f_equal.
Qed.

Lemma length_app (s t : string) :
  String.length (s ++ t) = (String.length s + String.length t)%nat.
Proof.
  induction s as [| c s IH]; [reflexivity |].
  rewrite app_cons. cbn [String.length]. now rewrite IH.
Qed.

End StringFacts.

Module StrconvFacts.
Import GoInt Strconv Decimal GoIntFacts.

Lemma digitVal_decimal c d :
  digitVal (byteOf c) = Some d -> d < 10 ->
  isDigit c = true /\ d = byteOf c - 0x30.
Proof.
  unfold digitVal, isDigit. intros H Hd.
  destruct ((48 <=? byteOf c) && (byteOf c <=? 57)) eqn:E.
  - injection H as <-. split; reflexivity.
  - destruct ((97 <=? lower (byteOf c)) && (lower (byteOf c) <=? 122)) eqn:E2;
      [| discriminate].
    injection H as <-. apply andb_true_iff in E2 as [E2 _].
    apply Z.leb_le in E2. lia.
Qed.

Lemma digitVal_of_digit c :
  isDigit c = true -> digitVal (byteOf c) = Some (byteOf c - 0x30).
Proof. unfold digitVal, isDigit. intros ->. reflexivity. Qed.

Lemma digitChar_of_digit c :
  isDigit c = true -> digitChar (byteOf c - 0x30) = c.
Proof.
  intros _. unfold digitChar, byteOf.
  replace (48 + (Z.of_N (N_of_ascii c) - 48)) with (Z.of_N (N_of_ascii c)) by lia.
  rewrite N2Z.id. apply ascii_N_embedding.
Qed.

Lemma uint64_no_wrap n0 d :
  0 <= n0 < 2 ^ 64 -> 0 <= d < 2 ^ 64 ->
  (uint64 (n0 + d) <? n0) = false -> uint64 (n0 + d) = n0 + d.
Proof.
  intros Hn Hd H. apply Z.ltb_ge in H.
  destruct (Z_lt_ge_dec (n0 + d) (2 ^ 64)) as [Hs | Hb].
  - apply uint64_small. lia.
  - exfalso. unfold uint64, wrapU in H.
    replace (n0 + d) with ((n0 + d - 2 ^ 64) + 1 * 2 ^ 64) in H by lia.
    rewrite Z.mod_add in H by lia.
    rewrite Z.mod_small in H by lia. lia.
Qed.

(** A successful run of the digit loop in base ten read decimal digits only
    and accumulated their value without wrap-around. *)
Lemma parseUintLoop_decimal s : forall n maxVal v,
  0 <= n -> maxVal < 2 ^ 64 ->
  parseUintLoop 10 cutoff10 maxVal n s = (v, None) ->
  allDigits s = true /\ v = decValue n s /\ n <= v /\
  (s <> EmptyString -> v <= maxVal).
Proof.
  induction s as [| c r IH]; intros n maxVal v Hn Hmax H; simpl in H.
  - injection H as <-. simpl. repeat split; try lia. congruence.
  - destruct (digitVal (byteOf c)) as [d |] eqn:Ed; [| discriminate].
    destruct (10 <=? d) eqn:Eb; [discriminate |].
    apply Z.leb_gt in Eb.
    destruct (cutoff10 <=? n) eqn:Ec; [discriminate |].
    apply Z.leb_gt in Ec.
    destruct ((uint64 (n * 10 + d) <? n * 10) || (maxVal <? uint64 (n * 10 + d))) eqn:Eo;
      [discriminate |].
    apply orb_false_iff in Eo as [Eo1 Eo2].
    destruct (digitVal_decimal c d Ed Eb) as [Hdig ->].
    pose proof (byteOf_range c) as Hc.
    assert (Hdlo : 0 <= byteOf c - 48).
    { unfold isDigit in Hdig. apply andb_true_iff in Hdig as [Hd1 _].
      apply Z.leb_le in Hd1. lia. }
    assert (Hn0 : 0 <= n * 10 < 2 ^ 64).
    { assert (Hcut : cutoff10 = 1844674407370955162) by reflexivity.
      rewrite Hcut in Ec. change (2 ^ 64) with 18446744073709551616. clear - Hn Ec. lia. }
    rewrite (uint64_no_wrap (n * 10) (byteOf c - 48)) in H, Eo2 by lia.
    apply Z.ltb_ge in Eo2.
    assert (Hn1 : 0 <= n * 10 + (byteOf c - 48)) by lia.
    destruct (IH _ _ _ Hn1 Hmax H) as (Hall & Hv & Hle & Hbound).
    simpl. rewrite Hdig, Hall. repeat split; try assumption; try lia.
    intros _. destruct r as [| c' r'].
    + simpl in Hv. lia.
    + apply Hbound. congruence.
Qed.

(** The loop reports a range error with the largest value of the size. *)
Lemma parseUintLoop_range s : forall base cutoff maxVal n v,
  parseUintLoop base cutoff maxVal n s = (v, Some ErrRange) -> v = maxVal.
Proof.
  induction s as [| c r IH]; intros base cutoff maxVal n v H; simpl in H.
  - discriminate.
  - destruct (digitVal (byteOf c)) as [d |]; [| discriminate].
    destruct (base <=? d); [discriminate |].
    destruct (cutoff <=? n); [injection H as <-; reflexivity |].
    destruct ((uint64 (n * base + d) <? n * base) || (maxVal <? uint64 (n * base + d)));
      [injection H as <-; reflexivity |].
    eapply IH. exact H.
Qed.

(** A larger size accepts what a smaller size accepts, with the same value. *)
Lemma parseUintLoop_mono s : forall base cutoff maxVal maxVal' n v,
  maxVal <= maxVal' ->
  parseUintLoop base cutoff maxVal n s = (v, None) ->
  parseUintLoop base cutoff maxVal' n s = (v, None).
Proof.
  induction s as [| c r IH]; intros base cutoff maxVal maxVal' n v Hle H; simpl in *.
  - exact H.
  - destruct (digitVal (byteOf c)) as [d |]; [| discriminate].
    destruct (base <=? d); [discriminate |].
    destruct (cutoff <=? n); [discriminate |].
    destruct ((uint64 (n * base + d) <? n * base) || (maxVal <? uint64 (n * base + d))) eqn:Eo;
      [discriminate |].
    apply orb_false_iff in Eo as [Eo1 Eo2]. rewrite Eo1. simpl.
    apply Z.ltb_ge in Eo2.
    replace (maxVal' <? uint64 (n * base + d)) with false
      by (symmetry; apply Z.ltb_ge; lia).
    eapply IH; eassumption.
Qed.

End StrconvFacts.

Module FormatFacts.
Import GoInt Strconv Decimal GoIntFacts StrconvFacts StringFacts.

Lemma isDigit_bounds c : isDigit c = true -> 0 <= byteOf c - 48 < 10.
Proof.
  unfold isDigit. intros H. apply andb_true_iff in H as [H1 H2].
  apply Z.leb_le in H1, H2. lia.
Qed.

Lemma decValue_lower r : forall n,
  allDigits r = true -> 0 <= n ->
  n * 10 ^ Z.of_nat (String.length r) <= decValue n r.
Proof.
  induction r as [| c r IH]; intros n Hall Hn;
    cbn [decValue allDigits String.length] in *.
  - change (10 ^ Z.of_nat 0) with 1. lia.
  - apply andb_true_iff in Hall as [Hc Hr].
    pose proof (isDigit_bounds c Hc) as Hd.
    assert (Hn' : 0 <= n * 10 + (byteOf c - 48)) by lia.
    specialize (IH (n * 10 + (byteOf c - 48)) Hr Hn').
    rewrite Nat2Z.inj_succ, Z.pow_succ_r by lia.
    assert (0 <= 10 ^ Z.of_nat (String.length r)) by (apply Z.pow_nonneg; lia).
    nia.
Qed.

(** Printing the value of a digit string that continues a positive number
    gives back the digits in front of what printing that number gives. *)
Lemma formatBits_decValue r : forall n f acc,
  allDigits r = true -> 0 < n ->
  decValue n r < 10 ^ Z.of_nat f ->
  formatBits f (decValue n r) acc = formatBits (f - String.length r) n (r ++ acc).
Proof.
  induction r as [| c r IH]; intros n f acc Hall Hn Hlt;
    cbn [decValue allDigits String.length] in *.
  - now rewrite Nat.sub_0_r.
  - apply andb_true_iff in Hall as [Hc Hr].
    pose proof (isDigit_bounds c Hc) as Hd.
    set (n' := n * 10 + (byteOf c - 48)) in *.
    assert (Hn' : 10 <= n') by (subst n'; lia).
    assert (Hn0 : 0 < n') by lia.
    assert (Hn1 : 0 <= n') by lia.
    rewrite (IH n' f acc Hr Hn0 Hlt).
    pose proof (decValue_lower r n' Hr Hn1) as Hlow.
    assert (Hf : (String.length r + 1 < f)%nat).
    { destruct (Nat.lt_ge_cases (String.length r + 1) f) as [Hok | Hbad]; [exact Hok |].
      exfalso.
      assert (10 ^ Z.of_nat f <= 10 ^ Z.of_nat (String.length r + 1))
        by (apply Z.pow_le_mono_r; lia).
      rewrite Nat2Z.inj_add, Z.pow_add_r in H by lia.
      change (10 ^ Z.of_nat 1) with 10 in H.
      assert (0 < 10 ^ Z.of_nat (String.length r)) by (apply Z.pow_pos_nonneg; lia).
      nia. }
    replace (f - String.length r)%nat with (S (f - S (String.length r))) by lia.
    simpl formatBits.
    replace (n' <? 10) with false by (symmetry; apply Z.ltb_ge; lia).
    replace (n' mod 10) with (byteOf c - 48)
      by (subst n'; rewrite Z.add_comm, Z.mod_add by lia; symmetry; apply Z.mod_small; lia).
    replace (n' / 10) with n
      by (subst n'; rewrite Z.add_comm, Z.div_add by lia;
          rewrite Z.div_small by lia; lia).
    now rewrite digitChar_of_digit, app_cons.
Qed.

Lemma FormatUint_decimal c r :
  isDigit c = true -> c <> "0"%char -> allDigits r = true ->
  decValue 0 (String c r) < 2 ^ 64 ->
  FormatUint (decValue 0 (String c r)) = String c r.
Proof.
  intros Hc Hnz Hr Hlt. cbn [decValue] in *.
  replace (0 * 10 + (byteOf c - 48)) with (byteOf c - 48) in * by lia.
  pose proof (isDigit_bounds c Hc) as Hd.
  assert (Hpos : 0 < byteOf c - 48).
  { destruct (Z.eq_dec (byteOf c) 48) as [E | E]; [| lia].
    exfalso. apply Hnz. unfold byteOf in E.
    rewrite <- (ascii_N_embedding c).
    replace (N_of_ascii c) with 48%N by lia. reflexivity. }
  assert (Hnn : 0 <= byteOf c - 48) by lia.
  pose proof (decValue_lower r (byteOf c - 48) Hr Hnn) as Hlow.
  assert (Hlen : (String.length r < 20)%nat).
  { destruct (Nat.lt_ge_cases (String.length r) 20) as [Hok | Hbad]; [exact Hok |].
    exfalso.
    assert (10 ^ Z.of_nat 20 <= 10 ^ Z.of_nat (String.length r))
      by (apply Z.pow_le_mono_r; lia).
    change (10 ^ Z.of_nat 20) with 100000000000000000000 in H.
    change (2 ^ 64) with 18446744073709551616 in Hlt. nia. }
  unfold FormatUint.
  rewrite (formatBits_decValue r (byteOf c - 48) 20 EmptyString Hr Hpos).
  - replace (20 - String.length r)%nat with (S (19 - String.length r)) by lia.
    simpl formatBits.
    replace (byteOf c - 48 <? 10) with true by (symmetry; apply Z.ltb_lt; lia).
    rewrite Z.mod_small by lia.
    now rewrite digitChar_of_digit, app_empty_r.
  - change (10 ^ Z.of_nat 20) with 100000000000000000000.
    change (2 ^ 64) with 18446744073709551616 in Hlt. lia.
Qed.

Lemma FormatUint_zero : FormatUint 0 = "0".
Proof. reflexivity. Qed.

End FormatFacts.

Module ParseIntFacts.
Import GoInt Strconv Decimal GoIntFacts StrconvFacts StringFacts FormatFacts.

(** The unsigned part of a successful ParseInt in base ten. *)
Lemma ParseUint_decimal body bits un e :
  bits = 32 \/ bits = 64 ->
  ParseUint body 10 bits = (un, e) -> e <> Some ErrSyntax ->
  (e = None /\ body <> EmptyString /\ allDigits body = true /\
   un = decValue 0 body /\ 0 <= un <= 2 ^ bits - 1)
  \/ (e = Some ErrRange /\ un = 2 ^ bits - 1).
Proof.
  intros Hbits H Hne. unfold ParseUint in H.
  destruct body as [| c r]; [injection H as <- <-; congruence |].
  change ((2 ^ 64 - 1) / 10 + 1) with cutoff10 in H.
  destruct e as [[] |].
  - congruence.
  - right. split; [reflexivity |]. eapply parseUintLoop_range. exact H.
  - left. split; [reflexivity |].
    assert (Hmax : 2 ^ bits - 1 < 2 ^ 64) by (destruct Hbits as [-> | ->]; reflexivity).
    destruct (parseUintLoop_decimal _ _ _ _ (Z.le_refl 0) Hmax H) as (Ha & Hv & Hle & Hb).
    repeat split; try assumption; try congruence. apply Hb. congruence.
Qed.

Lemma int64_neg_unsigned un :
  0 <= un <= 2 ^ 63 -> int64 (- int64 un) = - un.
Proof.
  intros H. destruct (Z.eq_dec un (2 ^ 63)) as [-> | Hne].
  - reflexivity.
  - rewrite (int64_small un) by lia. apply int64_small. lia.
Qed.

(** What a successful ParseInt in base ten has read and returned. *)
Lemma ParseInt_decimal s bits n :
  bits = 32 \/ bits = 64 ->
  ParseInt s 10 bits = (n, None) ->
  exists body,
    body <> EmptyString /\ allDigits body = true /\
    ((s = body \/ s = String "+" body) /\ n = decValue 0 body /\
       0 <= n < 2 ^ (bits - 1)
     \/ s = String "-" body /\ n = - decValue 0 body /\
       - 2 ^ (bits - 1) <= n <= 0).
Proof.
  intros Hbits H. unfold ParseInt in H.
  destruct s as [| c0 r0]; [discriminate |].
  set (neg := Ascii.eqb c0 "-") in *.
  set (s1 := if Ascii.eqb c0 "+" || neg then r0 else String c0 r0) in *.
  destruct (ParseUint s1 10 bits) as [un e] eqn:EU.
  assert (Hne : e <> Some ErrSyntax) by (intros ->; discriminate).
  assert (Hpow : 2 ^ (bits - 1) < 2 ^ bits - 1 /\ 2 ^ (bits - 1) <= 2 ^ 63)
    by (destruct Hbits as [-> | ->]; split; vm_compute; congruence).
  assert (Hgo :
    (if negb neg && (2 ^ (bits - 1) <=? un) then (2 ^ (bits - 1) - 1, Some ErrRange)
     else if neg && (2 ^ (bits - 1) <? un) then (- 2 ^ (bits - 1), Some ErrRange)
     else (if neg then int64 (- int64 un) else int64 un, None)) = (n, None)).
  { destruct e as [[] |]; [congruence | exact H | exact H]. }
  clear H.
  destruct (ParseUint_decimal s1 bits un e Hbits EU Hne)
    as [(-> & Hnz & Hall & Hun & Hr) | (-> & Hun)].
  - exists s1. split; [exact Hnz |]. split; [exact Hall |].
    destruct neg eqn:En; cbn [negb andb] in Hgo.
    + destruct (2 ^ (bits - 1) <? un) eqn:Ec; [discriminate |].
      apply Z.ltb_ge in Ec. injection Hgo as <-.
      right. apply Ascii.eqb_eq in En. subst c0.
      assert (Hs1 : s1 = r0) by (subst s1; rewrite orb_true_r; reflexivity).
      rewrite int64_neg_unsigned by lia. rewrite <- Hun, Hs1.
      split; [reflexivity | split; [reflexivity | lia]].
    + destruct (2 ^ (bits - 1) <=? un) eqn:Ec; [discriminate |].
      apply Z.leb_gt in Ec. injection Hgo as <-.
      left. rewrite int64_small by lia. rewrite <- Hun.
      split; [| split; [reflexivity | lia]].
      subst s1. rewrite orb_false_r.
      destruct (Ascii.eqb c0 "+") eqn:Ep.
      * apply Ascii.eqb_eq in Ep. subst c0. right. reflexivity.
      * left. reflexivity.
  - exfalso. destruct neg; cbn [negb andb] in Hgo.
    + replace (2 ^ (bits - 1) <? un) with true in Hgo
        by (symmetry; apply Z.ltb_lt; lia). discriminate.
    + replace (2 ^ (bits - 1) <=? un) with true in Hgo
        by (symmetry; apply Z.leb_le; lia). discriminate.
Qed.

(** What parses as a 32-bit integer parses as a 64-bit integer, with the
    same value. *)
Lemma ParseInt_32_64 s n :
  ParseInt s 10 32 = (n, None) -> ParseInt s 10 64 = (n, None).
Proof.
  intros H.
  destruct (ParseInt_decimal s 32 n (or_introl eq_refl) H) as (body & Hnz & Hall & Hcase).
  unfold ParseInt in *. destruct s as [| c0 r0]; [discriminate |].
  set (neg := Ascii.eqb c0 "-") in *.
  set (s1 := if Ascii.eqb c0 "+" || neg then r0 else String c0 r0) in *.
  destruct (ParseUint s1 10 32) as [un e] eqn:EU.
  assert (Hne : e <> Some ErrSyntax) by (intros ->; discriminate).
  destruct (ParseUint_decimal s1 32 un e (or_introl eq_refl) EU Hne)
    as [(-> & Hnz1 & Hall1 & Hun & Hr) | (-> & Hun)].
  - assert (EU64 : ParseUint s1 10 64 = (un, None)).
    { unfold ParseUint in *. destruct s1; [discriminate |].
      eapply parseUintLoop_mono; [| exact EU]. vm_compute. congruence. }
    rewrite EU64.
    change (2 ^ (32 - 1)) with 2147483648 in H.
    change (2 ^ (64 - 1)) with 9223372036854775808.
    destruct neg; cbn [negb andb] in *.
    + destruct (2147483648 <? un) eqn:Ec; [discriminate |].
      apply Z.ltb_ge in Ec.
      replace (9223372036854775808 <? un) with false
        by (symmetry; apply Z.ltb_ge; lia).
      exact H.
    + destruct (2147483648 <=? un) eqn:Ec; [discriminate |].
      apply Z.leb_gt in Ec.
      replace (9223372036854775808 <=? un) with false
        by (symmetry; apply Z.leb_gt; lia).
      exact H.
  - exfalso. subst un. destruct neg; cbn [negb andb] in H; vm_compute in H; discriminate.
Qed.

End ParseIntFacts.

Module CoercionProps.
Import GoInt Strconv Decimal Executor.
Import GoIntFacts StrconvFacts StringFacts FormatFacts ParseIntFacts.

Section WithFloat.
Variable floatLiteral : string -> option string.

Lemma hash_fold_range (l : list Z) : forall a,
  - 2 ^ 31 <= a < 2 ^ 31 ->
  - 2 ^ 31 <= fold_left (fun hash c => int32 (hash * 31 + int32 c)) l a < 2 ^ 31.
Proof.
  induction l as [| c l IH]; intros a Ha; cbn [fold_left].
  - exact Ha.
  - apply IH. apply int32_range.
Qed.

(** The hash is a 32-bit value, and it is negative for one accumulator
    only: the smallest 32-bit integer, whose negation wraps to itself. *)
Lemma simpleStringHash_range s :
  - 2 ^ 31 <= simpleStringHash s < 2 ^ 31.
Proof.
  unfold simpleStringHash.
  pose proof (hash_fold_range (Utf8.runes s) 0 ltac:(lia)) as H.
  destruct (_ <? 0); [apply int32_range | exact H].
Qed.

Lemma simpleStringHash_sign s :
  0 <= simpleStringHash s \/ simpleStringHash s = - 2 ^ 31.
Proof.
  unfold simpleStringHash.
  pose proof (hash_fold_range (Utf8.runes s) 0 ltac:(lia)) as H.
  set (h := fold_left _ _ _) in *.
  destruct (h <? 0) eqn:E.
  - apply Z.ltb_lt in E. destruct (Z.eq_dec h (- 2 ^ 31)) as [-> | Hne].
    + right. reflexivity.
    + left. unfold int32. rewrite wrapS_small; [lia | lia |].
      unfold inInt. change (2 ^ (32 - 1)) with (2 ^ 31). lia.
  - apply Z.ltb_ge in E. left. exact E.
Qed.

Lemma convert_i32_fallback s e :
  snd (ParseInt s 10 32) = Some e ->
  convertSecretToWASMValue floatLiteral s "i32" = Ok (FormatInt (simpleStringHash s)).
Proof.
  intros H. unfold convertSecretToWASMValue. cbn [String.eqb Ascii.eqb Bool.eqb].
  destruct (ParseInt s 10 32) as [v [e' |]]; [reflexivity | discriminate].
Qed.

Lemma convert_i64_fallback s e :
  snd (ParseInt s 10 64) = Some e ->
  convertSecretToWASMValue floatLiteral s "i64"
  = Ok (FormatInt (int64 (simpleStringHash s))).
Proof.
  intros H. unfold convertSecretToWASMValue. cbn [String.eqb Ascii.eqb Bool.eqb].
  destruct (ParseInt s 10 64) as [v [e' |]]; [reflexivity | discriminate].
Qed.

Lemma ParseInt_64_fails_32 s e :
  snd (ParseInt s 10 64) = Some e -> exists e', snd (ParseInt s 10 32) = Some e'.
Proof.
  intros H. destruct (ParseInt s 10 32) as [n [e' |]] eqn:E32; [eauto |].
  apply ParseInt_32_64 in E32. rewrite E32 in H. discriminate.
Qed.

(** Printing a canonical numeral's value gives the numeral back. *)
Lemma FormatInt_canonical s bits n :
  bits = 32 \/ bits = 64 ->
  ParseInt s 10 bits = (n, None) -> canonicalDecimal s = true -> FormatInt n = s.
Proof.
  intros Hbits HP Hcan.
  assert (Hpow : 2 ^ (bits - 1) <= 2 ^ 63)
    by (destruct Hbits as [-> | ->]; vm_compute; congruence).
  destruct (ParseInt_decimal s bits n Hbits HP) as (body & Hnz & Hall & Hcase).
  unfold canonicalDecimal in Hcan.
  destruct Hcase as [([-> | ->] & Hn & Hr) | (-> & Hn & Hr)].
  - destruct body as [| c r]; [congruence |].
    destruct (Ascii.eqb c "-") eqn:Em.
    { apply Ascii.eqb_eq in Em. subst c. discriminate Hall. }
    destruct (Ascii.eqb c "0") eqn:Ez.
    + apply Ascii.eqb_eq in Ez. subst c. destruct r; [| discriminate].
      subst n. reflexivity.
    + apply Ascii.eqb_neq in Ez. apply andb_true_iff in Hcan as [Hc Hrr].
      unfold FormatInt. replace (n <? 0) with false by (symmetry; apply Z.ltb_ge; lia).
      rewrite uint64_small by (change (2 ^ 64) with (2 * 2 ^ 63); lia).
      subst n. apply FormatUint_decimal; try assumption.
      change (2 ^ 64) with (2 * 2 ^ 63). lia.
  - cbn [Ascii.eqb Bool.eqb] in Hcan. destruct body; discriminate.
  - cbn [Ascii.eqb Bool.eqb] in Hcan.
    destruct body as [| d r]; [discriminate |].
    apply andb_true_iff in Hcan as [Hcan Hrr].
    apply andb_true_iff in Hcan as [Hd Hdz].
    apply negb_true_iff, Ascii.eqb_neq in Hdz.
    pose proof (isDigit_bounds d Hd) as Hdb.
    assert (Hdpos : 0 < byteOf d - 48).
    { destruct (Z.eq_dec (byteOf d) 48) as [E | E]; [| lia].
      exfalso. apply Hdz. unfold byteOf in E.
      rewrite <- (ascii_N_embedding d).
      replace (N_of_ascii d) with 48%N by lia. reflexivity. }
    assert (Hnn : 0 <= 0 * 10 + (byteOf d - 48)) by lia.
    pose proof (decValue_lower r _ Hrr Hnn) as Hlow.
    assert (0 < 10 ^ Z.of_nat (String.length r)) by (apply Z.pow_pos_nonneg; lia).
    assert (Hv : 0 < decValue 0 (String d r)) by (cbn [decValue]; nia).
    unfold FormatInt. replace (n <? 0) with true by (symmetry; apply Z.ltb_lt; lia).
    f_equal. rewrite uint64_small by (change (2 ^ 64) with (2 * 2 ^ 63); lia).
    subst n. rewrite Z.opp_involutive.
    apply FormatUint_decimal; try assumption.
    change (2 ^ 64) with (2 * 2 ^ 63). lia.
Qed.

(** A digit string is all zeros, or it has the value of the digit string
    that is left after the leading zeros. *)
Lemma decValue_strip body :
  allDigits body = true ->
  decValue 0 body = 0 \/
  exists c r,
    isDigit c = true /\ c <> "0"%char /\ allDigits r = true /\
    decValue 0 body = decValue 0 (String c r) /\
    (String.length (String c r) <= String.length body)%nat /\
    (String.length (String c r) = String.length body -> body = String c r).
Proof.
  induction body as [| a b IH]; intros Hall.
  - left. reflexivity.
  - cbn [allDigits] in Hall. apply andb_true_iff in Hall as [Ha Hb].
    destruct (Ascii.eqb a "0") eqn:Ez.
    + apply Ascii.eqb_eq in Ez. subst a.
      change (decValue 0 (String "0" b)) with (decValue 0 b).
      destruct (IH Hb) as [H0 | (c & r & Hc & Hnz & Hr & Hv & Hlen & Heq)].
      * left. exact H0.
      * right. exists c, r. cbn [String.length] in *.
        repeat split; try assumption; lia.
    + apply Ascii.eqb_neq in Ez. right. exists a, b.
      repeat split; try assumption; try reflexivity; try lia.
Qed.

(** The numeral that FormatUint prints for the value of a digit string is
    that string only if the string is the digit zero or starts with another
    digit. *)
Lemma FormatUint_verbatim body :
  allDigits body = true -> body <> EmptyString -> decValue 0 body < 2 ^ 64 ->
  FormatUint (decValue 0 body) = body ->
  body = "0" \/ exists c r, body = String c r /\ c <> "0"%char.
Proof.
  intros Hall Hne Hlt Hfmt.
  destruct (decValue_strip body Hall) as [H0 | (c & r & Hc & Hnz & Hr & Hv & Hlen & Heq)].
  - left. rewrite H0 in Hfmt. symmetry. exact Hfmt.
  - right. exists c, r. split; [| exact Hnz].
    rewrite Hv in Hfmt, Hlt.
    rewrite (FormatUint_decimal c r Hc Hnz Hr Hlt) in Hfmt.
    symmetry. exact Hfmt.
Qed.

(** A numeral that comes back from parsing and printing is canonical. *)
Lemma FormatInt_verbatim s bits n :
  bits = 32 \/ bits = 64 ->
  ParseInt s 10 bits = (n, None) -> FormatInt n = s -> canonicalDecimal s = true.
Proof.
  intros Hbits HP Hfmt.
  assert (Hpow : 2 ^ (bits - 1) <= 2 ^ 63)
    by (destruct Hbits as [-> | ->]; vm_compute; congruence).
  destruct (ParseInt_decimal s bits n Hbits HP) as (body & Hnz & Hall & Hcase).
  assert (Hhead : forall c r, body = String c r -> isDigit c = true /\ allDigits r = true).
  { intros c r ->. cbn [allDigits] in Hall. now apply andb_true_iff in Hall. }
  assert (Hminus : isDigit "-" = false) by reflexivity.
  assert (Hplus : isDigit "+" = false) by reflexivity.
  destruct Hcase as [(Hs & Hn & Hr) | (-> & Hn & Hr)].
  - assert (Hu : FormatInt n = FormatUint (decValue 0 body)).
    { unfold FormatInt. replace (n <? 0) with false by (symmetry; apply Z.ltb_ge; lia).
      rewrite uint64_small by (change (2 ^ 64) with (2 * 2 ^ 63); lia). now subst n. }
    assert (Hlt : decValue 0 body < 2 ^ 64)
      by (change (2 ^ 64) with (2 * 2 ^ 63); lia).
    destruct Hs as [-> | ->].
    + rewrite Hu in Hfmt.
      destruct (FormatUint_verbatim body Hall Hnz Hlt Hfmt) as [-> | (c & r & -> & Hc)];
        [reflexivity |].
      destruct (Hhead c r eq_refl) as [Hd Hrr]. unfold canonicalDecimal.
      destruct (Ascii.eqb c "-") eqn:Em.
      { apply Ascii.eqb_eq in Em. subst c. congruence. }
      apply Ascii.eqb_neq in Hc. rewrite Hc. now rewrite Hd, Hrr.
    + exfalso. rewrite Hu in Hfmt.
      destruct (decValue_strip body Hall) as [H0 | (c & r & Hc & Hcz & Hrr & Hv & _)].
      * rewrite H0 in Hfmt. discriminate.
      * rewrite Hv in Hfmt, Hlt.
        rewrite (FormatUint_decimal c r Hc Hcz Hrr Hlt) in Hfmt.
        injection Hfmt as -> _. congruence.
  - destruct (Z.eq_dec (decValue 0 body) 0) as [E0 | Hpos].
    + exfalso. rewrite E0 in Hn. subst n. discriminate.
    + assert (Hv : 0 <= decValue 0 body) by lia.
      unfold FormatInt in Hfmt.
      replace (n <? 0) with true in Hfmt by (symmetry; apply Z.ltb_lt; lia).
      injection Hfmt as Hfmt.
      rewrite uint64_small in Hfmt by (change (2 ^ 64) with (2 * 2 ^ 63); lia).
      replace (- n) with (decValue 0 body) in Hfmt by lia.
      assert (Hlt : decValue 0 body < 2 ^ 64)
        by (change (2 ^ 64) with (2 * 2 ^ 63); lia).
      destruct (FormatUint_verbatim body Hall Hnz Hlt Hfmt) as [-> | (c & r & -> & Hc)].
      * exfalso. apply Hpos. reflexivity.
      * destruct (Hhead c r eq_refl) as [Hd Hrr]. unfold canonicalDecimal.
        cbn [Ascii.eqb Bool.eqb]. apply Ascii.eqb_neq in Hc.
        now rewrite Hd, Hc, Hrr.
Qed.

End WithFloat.

(** The decoding of the bytes of a string into runes: one, two and three
    bytes, a byte that starts no sequence, and an encoded surrogate. *)
Example runes_sample :
  Utf8.runes
    (String "h" (String (ascii_of_nat 195) (String (ascii_of_nat 169)
      (String (ascii_of_nat 226) (String (ascii_of_nat 130) (String (ascii_of_nat 172)
        (String (ascii_of_nat 255)
          (String (ascii_of_nat 237) (String (ascii_of_nat 160)
            (String (ascii_of_nat 128) EmptyString))))))))))
  = [104; 233; 8364; 65533; 65533; 65533; 65533].
Proof. vm_compute. reflexivity. Qed.

(** The secret [hello] for an i32 placeholder: the same non-negative
    literal every time. *)
Example hello_literal floatLiteral :
  convertSecretToWASMValue floatLiteral "hello" "i32" = Ok "99162322".
Proof. vm_compute. reflexivity. Qed.

Example numeric_literals floatLiteral :
  convertSecretToWASMValue floatLiteral "42" "i32" = Ok "42" /\
  convertSecretToWASMValue floatLiteral "007" "i32" = Ok "7" /\
  convertSecretToWASMValue floatLiteral "-0" "i64" = Ok "0" /\
  convertSecretToWASMValue floatLiteral "2147483648" "i32" = Ok "359771091" /\
  convertSecretToWASMValue floatLiteral "2147483648" "i64" = Ok "2147483648".
Proof. repeat split; vm_compute; reflexivity. Qed.

(** C2 (failing input).  The secret [xfjfxtf] is no integer, the
    polynomial accumulates to the smallest 32-bit integer over it, the
    negation wraps to the same value, and the literal produced for kind
    i32 is negative. *)
Theorem C2_hash_literal_negative :
  snd (ParseInt "xfjfxtf" 10 32) = Some ErrSyntax /\
  simpleStringHash "xfjfxtf" = - 2 ^ 31 /\
  forall floatLiteral,
    convertSecretToWASMValue floatLiteral "xfjfxtf" "i32" = Ok "-2147483648".
Proof.
  split; [vm_compute; reflexivity |].
  split; [vm_compute; reflexivity |].
  intros floatLiteral. vm_compute. reflexivity.
Qed.

(** C5 (counterexample).  The secret [+7] parses as the 32-bit integer 7,
    and the literal produced for kind i32 is [7], not the secret. *)
Lemma C5_counterexample :
  ParseInt "+7" 10 32 = (7, None) /\
  (forall floatLiteral,
     convertSecretToWASMValue floatLiteral "+7" "i32" = Ok "7") /\
  "7" <> "+7".
Proof.
  split; [vm_compute; reflexivity |].
  split; [intros floatLiteral; vm_compute; reflexivity | discriminate].
Qed.

(** C5 (amended).  For a secret that parses as a base-10 integer within the
    range of the kind (32 bits for i32, 64 bits for i64), coercion returns
    the decimal rendering of the parsed integer; that is the secret itself,
    character for character, exactly when the secret is a canonical numeral
    (no plus sign, no leading zero, no negative zero). *)
Theorem C5_integer_secret_literal floatLiteral s kind bits n :
  (kind = "i32" /\ bits = 32) \/ (kind = "i64" /\ bits = 64) ->
  ParseInt s 10 bits = (n, None) ->
  convertSecretToWASMValue floatLiteral s kind = Ok (FormatInt n) /\
  (canonicalDecimal s = true <-> FormatInt n = s).
Proof.
  intros Hk HP.
  assert (Hbits : bits = 32 \/ bits = 64)
    by (destruct Hk as [[_ ->] | [_ ->]]; [left | right]; reflexivity).
  split; [| split].
  - unfold convertSecretToWASMValue.
    destruct Hk as [[-> ->] | [-> ->]]; cbn [String.eqb Ascii.eqb Bool.eqb];
      rewrite HP; reflexivity.
  - now apply (FormatInt_canonical s bits n).
  - now apply (FormatInt_verbatim s bits n).
Qed.

Lemma C5_integer_secret_literal_witness :
  convertSecretToWASMValue (fun _ => None) "-9223372036854775808" "i64"
  = Ok (FormatInt (- 9223372036854775808)) /\
  (canonicalDecimal "-9223372036854775808" = true <->
   FormatInt (- 9223372036854775808) = "-9223372036854775808").
Proof.
  apply (C5_integer_secret_literal (fun _ => None) "-9223372036854775808" "i64" 64).
  - right. split; reflexivity.
  - vm_compute. reflexivity.
Defined.

(** Reduction to 32 bits commutes with the steps of the polynomial. *)
Lemma int32_absorb u k y : int32 (int32 u * k + y) = int32 (u * k + y).
Proof.
  unfold int32, wrapS. change (2 ^ (32 - 1)) with (2 ^ 31).
  rewrite (Z.mod_eq (u + 2 ^ 31) (2 ^ 32)) by lia.
  replace ((u + 2 ^ 31 - 2 ^ 32 * ((u + 2 ^ 31) / 2 ^ 32) - 2 ^ 31) * k + y + 2 ^ 31)
    with (u * k + y + 2 ^ 31 + (- ((u + 2 ^ 31) / 2 ^ 32) * k) * 2 ^ 32) by ring.
  now rewrite Z_mod_plus_full.
Qed.

Lemma int32_absorb_r x c : int32 (x + int32 c) = int32 (x + c).
Proof.
  pose proof (int32_absorb c 1 x) as H.
  replace (int32 c * 1 + x) with (x + int32 c) in H by ring.
  replace (c * 1 + x) with (x + c) in H by ring. exact H.
Qed.

Lemma hash_fold_polynomial (cs : list Z) : forall a,
  fold_left (fun hash c => int32 (hash * 31 + int32 c)) cs (int32 a)
  = int32 (a * 31 ^ Z.of_nat (List.length cs) + Polynomial.polynomial cs).
Proof.
  induction cs as [| c cs IH]; intros a; cbn [fold_left Polynomial.polynomial List.length].
  - f_equal. change (31 ^ Z.of_nat 0) with 1. ring.
  - rewrite int32_absorb_r, int32_absorb, IH. f_equal.
    rewrite Nat2Z.inj_succ, Z.pow_succ_r by lia. ring.
Qed.

(** The hash of the code is the polynomial hash of the code points. *)
Lemma simpleStringHash_polynomial s :
  simpleStringHash s = Polynomial.hash32 (Utf8.runes s).
Proof.
  unfold simpleStringHash, Polynomial.hash32.
  pose proof (hash_fold_polynomial (Utf8.runes s) 0) as H.
  change (int32 0) with 0 in H. rewrite H, Z.mul_0_l, Z.add_0_l. reflexivity.
Qed.

(** C9.  For a secret that does not parse as a base-10 64-bit integer,
    coercion to kind i64 prints the 32-bit hash widened to 64 bits, and
    that hash is the polynomial hash of the code points of the secret: the
    polynomial in 31 reduced to 32 bits and negated when negative.  The
    widening keeps the value, the value lies in the 32-bit signed range,
    and the literal is the one coercion to kind i32 gives for the same
    secret. *)
Theorem C9_i64_fallback_is_i32_hash floatLiteral s e :
  snd (ParseInt s 10 64) = Some e ->
  convertSecretToWASMValue floatLiteral s "i64"
  = Ok (FormatInt (int64 (simpleStringHash s))) /\
  int64 (simpleStringHash s) = simpleStringHash s /\
  - 2 ^ 31 <= int64 (simpleStringHash s) < 2 ^ 31 /\
  convertSecretToWASMValue floatLiteral s "i64"
  = convertSecretToWASMValue floatLiteral s "i32" /\
  convertSecretToWASMValue floatLiteral s "i64"
  = Ok (FormatInt (Polynomial.hash32 (Utf8.runes s))).
Proof.
  intros H.
  pose proof (simpleStringHash_range s) as Hr.
  assert (Hw : int64 (simpleStringHash s) = simpleStringHash s)
    by (apply int64_small; lia).
  destruct (ParseInt_64_fails_32 s e H) as [e' H32].
  rewrite (convert_i64_fallback floatLiteral s e H).
  rewrite (convert_i32_fallback floatLiteral s e' H32).
  rewrite Hw. repeat split; try lia.
  now rewrite simpleStringHash_polynomial.
Qed.

Lemma C9_i64_fallback_is_i32_hash_witness :
  (convertSecretToWASMValue (fun _ => None) "sk-abc123def456" "i64"
   = Ok (FormatInt (int64 (simpleStringHash "sk-abc123def456"))) /\
   int64 (simpleStringHash "sk-abc123def456") = simpleStringHash "sk-abc123def456" /\
   - 2 ^ 31 <= int64 (simpleStringHash "sk-abc123def456") < 2 ^ 31 /\
   convertSecretToWASMValue (fun _ => None) "sk-abc123def456" "i64"
   = convertSecretToWASMValue (fun _ => None) "sk-abc123def456" "i32" /\
   convertSecretToWASMValue (fun _ => None) "sk-abc123def456" "i64"
   = Ok (FormatInt (Polynomial.hash32 (Utf8.runes "sk-abc123def456")))) /\
  Polynomial.polynomial (Utf8.runes "sk-abc123def456") = 89699222436057863935893 /\
  FormatInt (Polynomial.hash32 (Utf8.runes "sk-abc123def456")) = "102508651".
Proof.
  split.
  - apply (C9_i64_fallback_is_i32_hash (fun _ => None) "sk-abc123def456" ErrSyntax).
    vm_compute. reflexivity.
  - split; vm_compute; reflexivity.
Defined.

End CoercionProps.

Module DecodeProps.
Import GoInt Strconv Strings Executor Encoding.
Import GoIntFacts StringFacts.

Lemma HasPrefix_char c a r :
  HasPrefix (String a r) (String c EmptyString) = Ascii.eqb c a.
Proof. cbn [HasPrefix]. destruct r; apply andb_true_r. Qed.

Lemma dropS_length n s : (String.length (dropS n s) <= String.length s)%nat.
Proof.
  revert s. induction n as [| n IH]; intros [| a r]; cbn [dropS String.length]; try lia.
  specialize (IH r). lia.
Qed.

(** The first occurrence of a character splits the string into a part
    without the character and a shorter rest. *)
Lemma Index_char c s :
  match Index s (String c EmptyString) with
  | None => removeChar c s = s
  | Some j =>
    removeChar c s = takeS j s ++ removeChar c (dropS (j + 1) s) /\
    (String.length (dropS (j + 1) s) < String.length s)%nat
  end.
Proof.
  induction s as [| a r IH].
  - reflexivity.
  - cbn [Index]. rewrite HasPrefix_char. cbn [removeChar].
    destruct (Ascii.eqb c a) eqn:E.
    + cbn [takeS dropS Nat.add String.length]. rewrite app_empty_l. split; [reflexivity | lia].
    + destruct (Index r (String c EmptyString)) as [j |]; cbn [option_map].
      * destruct IH as [IH1 IH2]. cbn [takeS dropS Nat.add String.length].
        rewrite app_cons, IH1. split; [reflexivity | lia].
      * now rewrite IH.
Qed.

Lemma replaceAllLoop_char c : forall fuel s,
  (String.length s <= fuel)%nat ->
  replaceAllLoop fuel s (String c EmptyString) EmptyString = removeChar c s.
Proof.
  induction fuel as [| fuel IH]; intros s Hlen.
  - destruct s; [reflexivity | cbn [String.length] in Hlen; lia].
  - cbn [replaceAllLoop]. pose proof (Index_char c s) as HI.
    destruct (Index s (String c EmptyString)) as [j |].
    + destruct HI as [HI1 HI2]. rewrite app_empty_l.
      cbn [String.length]. rewrite IH by lia. now rewrite HI1.
    + now rewrite HI.
Qed.

Lemma ReplaceAll_char c s :
  ReplaceAll s (String c EmptyString) EmptyString = removeChar c s.
Proof. apply replaceAllLoop_char. lia. Qed.

(** In base 16 the digits of ParseUint are the hex digits. *)
Lemma digitVal_hex c :
  match digitVal (byteOf c) with
  | Some d => if 16 <=? d then None else Some d
  | None => None
  end = hexVal c.
Proof. destruct c as [[] [] [] [] [] [] [] []]; vm_compute; reflexivity. Qed.

Lemma hexVal_range c x : hexVal c = Some x -> 0 <= x < 16.
Proof.
  unfold hexVal.
  repeat match goal with
  | |- context [if ?b then _ else _] => destruct b eqn:?
  end; intros H; try discriminate; injection H as <-;
  repeat match goal with
  | H : (_ && _) = true |- _ => apply andb_true_iff in H as [? ?]
  | H : (_ <=? _) = true |- _ => apply Z.leb_le in H
  end; lia.
Qed.

(** ParseUint on a pair of characters, base 16, 8 bits. *)
Lemma ParseUint_hex_pair a b :
  match hexVal a, hexVal b with
  | Some x, Some y =>
    ParseUint (String a (String b EmptyString)) 16 8 = (16 * x + y, None)
  | _, _ =>
    exists v e, ParseUint (String a (String b EmptyString)) 16 8 = (v, Some e)
  end.
Proof.
  pose proof (digitVal_hex a) as Ha. pose proof (digitVal_hex b) as Hb.
  pose proof (hexVal_range a) as Ra. pose proof (hexVal_range b) as Rb.
  unfold ParseUint. cbn [parseUintLoop].
  destruct (digitVal (byteOf a)) as [da |].
  2:{ rewrite <- Ha. eauto. }
  destruct (16 <=? da) eqn:Ea.
  { rewrite <- Ha. eauto. }
  rewrite <- Ha in *. specialize (Ra da eq_refl).
  change ((2 ^ 64 - 1) / 16 + 1 <=? 0) with false. cbn iota.
  replace (0 * 16 + da) with da by lia.
  rewrite (uint64_small da) by (change (2 ^ 64) with 18446744073709551616; lia).
  replace (da <? 0 * 16) with false by (symmetry; apply Z.ltb_ge; lia).
  replace (2 ^ 8 - 1 <? da) with false
    by (symmetry; apply Z.ltb_ge; change (2 ^ 8 - 1) with 255; lia).
  cbn [orb].
  destruct (digitVal (byteOf b)) as [db |].
  2:{ rewrite <- Hb. eauto. }
  destruct (16 <=? db) eqn:Eb.
  { rewrite <- Hb. eauto. }
  rewrite <- Hb in *. specialize (Rb db eq_refl).
  replace ((2 ^ 64 - 1) / 16 + 1 <=? da) with false
    by (symmetry; apply Z.leb_gt;
        change ((2 ^ 64 - 1) / 16 + 1) with 1152921504606846976; lia).
  rewrite (uint64_small (da * 16 + db))
    by (change (2 ^ 64) with 18446744073709551616; lia).
  replace (da * 16 + db <? da * 16) with false by (symmetry; apply Z.ltb_ge; lia).
  replace (2 ^ 8 - 1 <? da * 16 + db) with false
    by (symmetry; apply Z.ltb_ge; change (2 ^ 8 - 1) with 255; lia).
  cbn [orb]. f_equal. lia.
Qed.

(** The hex loop yields the bytes of the pairs, and fails exactly when a
    pair holds a character that is no hex digit. *)
Lemma hexLoop_hexBytes : forall n s,
  (String.length s <= n)%nat -> hexLoop s = hexBytes s.
Proof.
  induction n as [| n IH]; intros s Hlen.
  - destruct s; [reflexivity | cbn [String.length] in Hlen; lia].
  - destruct s as [| a [| b r]]; [reflexivity | reflexivity |].
    cbn [hexLoop hexBytes]. cbn [String.length] in Hlen.
    rewrite (IH r) by lia.
    pose proof (ParseUint_hex_pair a b) as HP.
    destruct (hexVal a) as [x |], (hexVal b) as [y |];
      try (destruct HP as (v & e & ->); reflexivity).
    rewrite HP. reflexivity.
Qed.

End DecodeProps.

Module BinaryInputProps.
Import GoInt Strconv Strings Executor Encoding.
Import GoIntFacts StringFacts DecodeProps.

Section WithEngine.
Variable floatLiteral : string -> option string.
Variable base64Std : string -> outcome string.
Variables (Module_ Instance Extern Func : Type).
Variable NewModule : string -> outcome Module_.
Variable NewInstance : Module_ -> completion (outcome Instance).
Variable GetExport : Instance -> string -> option Extern.
Variable ExternFunc : Extern -> option Func.
Variable Call : Func -> list Z -> completion (outcome Val).

Lemma base64DecodeWASM_spec encoded :
  base64DecodeWASM base64Std encoded =
  match base64Std (cleaned encoded) with
  | Ok decoded => Ok decoded
  | Err err =>
    if Nat.even (String.length (cleaned encoded)) then
      match hexBytes (cleaned encoded) with
      | Some hexDecoded => Ok hexDecoded
      | None => Err err
      end
    else Err err
  end.
Proof.
  unfold base64DecodeWASM. rewrite !ReplaceAll_char.
  change (String " " EmptyString) with " ".
  fold (cleaned encoded). set (cl := cleaned encoded).
  destruct (base64Std cl) as [decoded | err]; [reflexivity |].
  rewrite (hexLoop_hexBytes (String.length cl) cl (Nat.le_refl _)).
  replace (Nat.even (String.length cl)) with (Nat.eqb (String.length cl mod 2) 0);
    [reflexivity |].
  generalize (String.length cl). intros n.
  destruct (Nat.even n) eqn:E.
  - apply Nat.eqb_eq. apply Nat.even_spec in E. destruct E as [k ->].
    rewrite Nat.mul_comm. apply Nat.Div0.mod_mul.
  - apply Nat.eqb_neq. intros Hm.
    assert (Nat.even n = true); [| congruence].
    apply Nat.even_spec. exists (n / 2)%nat.
    pose proof (Nat.div_mod_eq n 2). lia.
Qed.

End WithEngine.

(** C10.  For an input not detected as WAT text, decoding works on the
    input without spaces, newlines and tabs, and tries standard base64
    first.  When base64 fails, the hex pairs are decoded only for a cleaned
    string of even length; for a cleaned string of odd length, or with a
    pair that holds a character that is no hex digit, the error is the one
    base64 gave, and ExecuteWASM reports that error. *)
Theorem C10_binary_decoding_fallback
    (floatLiteral : string -> option string) (base64Std : string -> outcome string)
    (Module_ Instance Extern Func : Type)
    (NewModule : string -> outcome Module_) (NewInstance : Module_ -> completion (outcome Instance))
    (GetExport : Instance -> string -> option Extern)
    (ExternFunc : Extern -> option Func) (Call : Func -> list Z -> completion (outcome Val))
    (env : CompileEnv) (encoded functionName : string) (args : list Z)
    (secrets : gmap string string) :
  isWATText encoded = false ->
  base64DecodeWASM base64Std encoded =
  match base64Std (cleaned encoded) with
  | Ok decoded => Ok decoded
  | Err err =>
    if Nat.even (String.length (cleaned encoded)) then
      match hexBytes (cleaned encoded) with
      | Some hexDecoded => Ok hexDecoded
      | None => Err err
      end
    else Err err
  end /\
  (forall err,
     base64Std (cleaned encoded) = Err err ->
     Nat.even (String.length (cleaned encoded)) = false
     \/ hexBytes (cleaned encoded) = None ->
     base64DecodeWASM base64Std encoded = Err err /\
     ExecuteWASM floatLiteral base64Std Module_ Instance Extern Func NewModule
       NewInstance GetExport ExternFunc Call env encoded functionName args secrets
     = Returns (0, Some ("failed to decode WASM bytecode: " ++ err))).
Proof.
  intros Hwat. pose proof (base64DecodeWASM_spec base64Std encoded) as Hspec.
  split; [exact Hspec |].
  intros err Hb64 Hbad.
  assert (Hdec : base64DecodeWASM base64Std encoded = Err err).
  { rewrite Hspec, Hb64. destruct Hbad as [-> | ->]; [reflexivity |].
    destruct (Nat.even _); reflexivity. }
  split; [exact Hdec |].
  unfold ExecuteWASM. rewrite Hwat, Hdec. reflexivity.
Qed.

Lemma C10_binary_decoding_fallback_witness :
  base64DecodeWASM stdDecode "0g 1" = Err "illegal base64 data" /\
  ExecuteWASM (fun _ => None) stdDecode unit unit unit unit
    (fun _ => Ok tt) (fun _ => Returns (Ok tt)) (fun _ _ => Some tt) (fun _ => Some tt)
    (fun _ _ => Returns (Ok (VI32 0)))
    {| writeErr := fun _ _ => None;
       runWat2wasm := fun _ => (EmptyString, None);
       readBack := fun _ => Ok EmptyString |}
    "0g 1" "square" [7] ∅
  = Returns (0, Some "failed to decode WASM bytecode: illegal base64 data").
Proof.
  refine (proj2 (C10_binary_decoding_fallback (fun _ => None) stdDecode
            unit unit unit unit _ _ _ _ _ _ "0g 1" "square" [7] ∅ _)
            "illegal base64 data" _ _).
  - vm_compute. reflexivity.
  - vm_compute. reflexivity.
  - left. vm_compute. reflexivity.
Defined.

End BinaryInputProps.

Module SearchFacts.
Import Strings StringFacts.

Lemma takeS_app pre s : takeS (String.length pre) (pre ++ s) = pre.
Proof.
  induction pre as [| c pre IH]; [destruct s; reflexivity |].
  rewrite app_cons. cbn [String.length takeS]. now rewrite IH.
Qed.

Lemma dropS_app pre s : dropS (String.length pre) (pre ++ s) = s.
Proof.
  induction pre as [| c pre IH]; [destruct s; reflexivity |].
  rewrite app_cons. cbn [String.length dropS]. exact IH.
Qed.

Lemma HasPrefix_app s p : HasPrefix (p ++ s) p = true.
Proof.
  induction p as [| c p IH]; [destruct s; reflexivity |].
  rewrite app_cons. cbn [HasPrefix]. rewrite IH.
  now rewrite (proj2 (Ascii.eqb_eq c c) eq_refl).
Qed.

Lemma HasPrefix_split s p : HasPrefix s p = true -> s = p ++ dropS (String.length p) s.
Proof.
  revert s. induction p as [| c p IH]; intros s H.
  - destruct s; reflexivity.
  - destruct s as [| a s]; [discriminate |].
    cbn [HasPrefix] in H. apply andb_true_iff in H as [Hc Hp].
    apply Ascii.eqb_eq in Hc. subst a.
    rewrite app_cons. cbn [String.length dropS]. f_equal. now apply IH.
Qed.

Lemma HasPrefix_length s p :
  HasPrefix s p = true -> (String.length p <= String.length s)%nat.
Proof.
  intros H.
  assert (E : String.length s = String.length (p ++ dropS (String.length p) s))
    by (f_equal; now apply HasPrefix_split).
  rewrite length_app in E. lia.
Qed.

(** A prefix of [s] that is no longer than [s] stays decided when text is
    appended. *)
Lemma HasPrefix_app_r s t p :
  (String.length p <= String.length s)%nat ->
  HasPrefix (s ++ t) p = HasPrefix s p.
Proof.
  revert s. induction p as [| c p IH]; intros s Hlen.
  - destruct s; destruct t; reflexivity.
  - destruct s as [| a s]; [cbn [String.length] in Hlen; lia |].
    rewrite app_cons. cbn [HasPrefix]. rewrite IH; [reflexivity |].
    cbn [String.length] in Hlen. lia.
Qed.

Lemma Index_bound s old j :
  Index s old = Some j -> (j + String.length old <= String.length s)%nat.
Proof.
  revert j. induction s as [| a s IH]; intros j H; cbn [Index] in H.
  - destruct (HasPrefix EmptyString old) eqn:E; [| discriminate].
    injection H as <-. apply HasPrefix_length in E. lia.
  - destruct (HasPrefix (String a s) old) eqn:E.
    + injection H as <-. apply HasPrefix_length in E. lia.
    + destruct (Index s old) as [k |]; [| discriminate].
      injection H as <-. specialize (IH k eq_refl). cbn [String.length]. lia.
Qed.

(** The first occurrence stays the first when text is appended. *)
Lemma Index_app s t old j :
  Index s old = Some j -> Index (s ++ t) old = Some j.
Proof.
  revert j. induction s as [| a s IH]; intros j H.
  - cbn [Index] in H. destruct (HasPrefix EmptyString old) eqn:E; [| discriminate].
    injection H as <-. destruct old; [| discriminate].
    rewrite app_empty_l. destruct t; reflexivity.
  - pose proof (Index_bound _ _ _ H) as Hb.
    cbn [Index] in H. rewrite app_cons. cbn [Index]. rewrite <- app_cons.
    destruct (HasPrefix (String a s) old) eqn:E.
    + injection H as <-. rewrite HasPrefix_app_r by lia. now rewrite E.
    + destruct (Index s old) as [k |] eqn:Ek; [| discriminate].
      injection H as <-.
      rewrite HasPrefix_app_r, E by lia.
      now rewrite (IH k eq_refl).
Qed.

(** Replacing the first occurrence, when it is the one after [pre]. *)
Lemma ReplaceFirst_at pre old new post :
  Index (pre ++ old) old = Some (String.length pre) ->
  ReplaceFirst (pre ++ old ++ post) old new = pre ++ new ++ post.
Proof.
  intros H. unfold ReplaceFirst.
  rewrite <- app_assoc. rewrite (Index_app _ post _ _ H).
  rewrite app_assoc, takeS_app. f_equal. f_equal.
  rewrite <- app_assoc, <- length_app. apply dropS_app.
Qed.

(** The first occurrence splits the text, no occurrence starts earlier,
    and text that holds an occurrence has a first one. *)
Lemma Index_sound s sub : forall j,
  Index s sub = Some j -> s = takeS j s ++ sub ++ dropS (j + String.length sub) s.
Proof.
  induction s as [| c s IH]; intros j H; cbn [Index] in H.
  - destruct (HasPrefix EmptyString sub) eqn:E; [| discriminate].
    injection H as <-. rewrite app_empty_l. cbn [Nat.add]. now apply HasPrefix_split.
  - destruct (HasPrefix (String c s) sub) eqn:E.
    + injection H as <-. cbn [takeS Nat.add]. rewrite app_empty_l.
      now apply HasPrefix_split.
    + destruct (Index s sub) as [k |]; [| discriminate]. injection H as <-.
      cbn [takeS dropS Nat.add]. rewrite app_cons. f_equal. now apply IH.
Qed.

Lemma Index_complete a : forall sub b, Index (a ++ sub ++ b) sub <> None.
Proof.
  induction a as [| c a IH]; intros sub b.
  - rewrite app_empty_l.
    destruct (sub ++ b) eqn:E; cbn [Index]; rewrite <- E, HasPrefix_app; discriminate.
  - rewrite app_cons. cbn [Index].
    destruct (HasPrefix _ sub); [discriminate |].
    specialize (IH sub b). destruct (Index (a ++ sub ++ b) sub); [discriminate | congruence].
Qed.

Lemma Index_least a : forall sub b j,
  Index (a ++ sub ++ b) sub = Some j -> (j <= String.length a)%nat.
Proof.
  induction a as [| c a IH]; intros sub b j H.
  - rewrite app_empty_l in H.
    destruct (sub ++ b) eqn:E; cbn [Index] in H; rewrite <- E, HasPrefix_app in H;
      injection H as <-; lia.
  - rewrite app_cons in H. cbn [Index] in H.
    destruct (HasPrefix _ sub); [injection H as <-; lia |].
    destruct (Index (a ++ sub ++ b) sub) as [k |] eqn:E; [| discriminate].
    injection H as <-. apply IH in E. cbn [String.length]. lia.
Qed.

Lemma length_takeS n : forall s,
  (n <= String.length s)%nat -> String.length (takeS n s) = n.
Proof.
  induction n as [| n IH]; intros [| c s] H; cbn [takeS String.length] in *;
    try reflexivity; try lia.
  rewrite IH; [reflexivity | lia].
Qed.

Lemma app_inj_length a : forall a' x y,
  String.length a = String.length a' -> a ++ x = a' ++ y -> a = a' /\ x = y.
Proof.
  induction a as [| c a IH]; intros [| c' a'] x y Hl H; cbn [String.length] in Hl;
    try discriminate.
  - rewrite !app_empty_l in H. now split.
  - rewrite !app_cons in H. injection H as -> H.
    destruct (IH a' x y ltac:(lia) H) as [-> ->]. now split.
Qed.

End SearchFacts.

Module RegexpFacts.
Import Strings Regexp Template StringFacts SearchFacts.

Lemma takeS_dropS n s : takeS n s ++ dropS n s = s.
Proof.
  revert s. induction n as [| n IH]; intros [| a s]; cbn [takeS dropS]; try reflexivity.
  rewrite app_cons. now rewrite IH.
Qed.

Lemma lit_sound p s r : lit p s = Some r -> s = p ++ r.
Proof.
  unfold lit. destruct (HasPrefix s p) eqn:E; [| discriminate].
  intros [= <-]. now apply HasPrefix_split.
Qed.

Lemma span_sound f s : forall a r, span f s = (a, r) -> s = a ++ r.
Proof.
  induction s as [| c s IH]; intros a r H; cbn [span] in H.
  - now injection H as <- <-.
  - destruct (f c).
    + destruct (span f s) as [a' r'] eqn:E. injection H as <- <-.
      rewrite app_cons. f_equal. now apply IH.
    + now injection H as <- <-.
Qed.

Lemma star_sound f s a r : star f s = Some (a, r) -> s = a ++ r.
Proof. unfold star. intros [= H]. now apply (span_sound f). Qed.

Lemma plus_sound f s a r : plus f s = Some (a, r) -> s = a ++ r.
Proof.
  unfold plus. destruct (span f s) as [a' r'] eqn:E.
  destruct a'; [discriminate |]. intros [= <- <-]. now apply (span_sound f).
Qed.

Lemma numType_sound s t r : numType s = Some (t, r) -> s = t ++ r.
Proof.
  unfold numType. destruct (_ || _); [| discriminate].
  intros H.
  assert (Ht : t = takeS 3 s /\ r = dropS 3 s) by (split; congruence).
  destruct Ht as [-> ->]. symmetry. apply takeS_dropS.
Qed.

Ltac bind_inv H :=
  repeat first
    [ match type of H with
      | (?m ≫= _) = Some _ =>
        let E := fresh "E" in
        destruct m eqn:E; [cbn [mbind option_bind] in H | discriminate H]
      end
    | match type of H with
      | (let '(_, _) := ?p in _) = _ => destruct p
      end ].

(** A match is a prefix of the text it was found in, and it is not empty. *)
Lemma matchAt_sound s m rest :
  matchAt s = Some (m, rest) ->
  s = fullImport m ++ rest /\ (1 <= String.length (fullImport m))%nat.
Proof.
  intros H. unfold matchAt in H. bind_inv H.
  injection H as <- <-. cbn [fullImport].
  repeat match goal with
  | E : lit _ _ = Some _ |- _ => apply lit_sound in E
  | E : plus _ _ = Some _ |- _ => apply plus_sound in E
  | E : star _ _ = Some _ |- _ => apply star_sound in E
  | E : numType _ = Some _ |- _ => apply numType_sound in E
  end.
  split.
  - subst. rewrite ?app_assoc, ?app_cons, ?app_empty_l.
    repeat (rewrite ?app_assoc, ?app_cons, ?app_empty_l; f_equal).
  - rewrite length_app. cbn [String.length]. lia.
Qed.

Lemma dropS_empty n : dropS n EmptyString = EmptyString.
Proof. destruct n; reflexivity. Qed.

(** The scanning loop splits the text: the gaps and matches it returns,
    put together again, are the text it was given. *)
Lemma scan_render s : forall skip gap ps tl,
  (skip <= String.length s)%nat ->
  scan s skip gap = (ps, tl) -> render ps tl = gap ++ dropS skip s.
Proof.
  induction s as [| c r IH]; intros skip gap ps tl Hk H; cbn [scan] in H.
  - injection H as <- <-. cbn [render]. now rewrite dropS_empty, app_empty_r.
  - destruct skip as [| k].
    + destruct (matchAt (String c r)) as [[m rest] |] eqn:EM.
      * destruct (scan r (String.length (fullImport m) - 1) EmptyString)
          as [ps' tl'] eqn:ES.
        injection H as <- <-.
        destruct (matchAt_sound _ _ _ EM) as [Hs Hlen].
        assert (Hlr : String.length (String c r)
                      = (String.length (fullImport m) + String.length rest)%nat)
          by (rewrite Hs at 1; apply length_app).
        cbn [String.length] in Hlr.
        apply IH in ES; [| lia]. cbn [render]. rewrite ES, app_empty_l.
        cbn [dropS]. f_equal.
        assert (Hd : dropS (String.length (fullImport m) - 1) r = rest).
        { replace (dropS (String.length (fullImport m) - 1) r)
            with (dropS (String.length (fullImport m)) (String c r)).
          - rewrite Hs. apply dropS_app.
          - destruct (String.length (fullImport m)) as [| n]; [lia |].
            replace (S n - 1)%nat with n by lia. reflexivity. }
        rewrite Hd. symmetry. exact Hs.
      * apply IH in H; [| lia]. rewrite H. cbn [dropS].
        now rewrite app_assoc, app_cons, app_empty_l.
    + apply IH in H; [| cbn [String.length] in Hk; lia]. exact H.
Qed.

Lemma pieces_render s ps tl : pieces s = (ps, tl) -> s = render ps tl.
Proof.
  intros H. apply scan_render in H; [| lia].
  now rewrite H, app_empty_l.
Qed.

(** *** The pattern finds the declarations of the usual layout *)

Lemma lit_app p s : lit p (p ++ s) = Some s.
Proof. unfold lit. now rewrite HasPrefix_app, dropS_app. Qed.

Lemma lit_char c s : lit (String c EmptyString) (String c s) = Some s.
Proof. apply (lit_app (String c EmptyString) s). Qed.

Lemma span_until f a : forall c s,
  allS f a = true -> f c = false -> span f (a ++ String c s) = (a, String c s).
Proof.
  induction a as [| x a IH]; intros c s Ha Hc.
  - rewrite app_empty_l. cbn [span]. now rewrite Hc.
  - rewrite app_cons. cbn [allS] in Ha. apply andb_prop in Ha as [Hx Ha].
    cbn [span]. now rewrite Hx, (IH c s Ha Hc).
Qed.

Lemma star_until f a c s :
  allS f a = true -> f c = false -> star f (a ++ String c s) = Some (a, String c s).
Proof. intros Ha Hc. unfold star. now rewrite span_until. Qed.

Lemma plus_until f a c s :
  nonEmpty a = true -> allS f a = true -> f c = false ->
  plus f (a ++ String c s) = Some (a, String c s).
Proof.
  intros Hn Ha Hc. unfold plus. rewrite span_until by assumption.
  destruct a; [discriminate | reflexivity].
Qed.

Lemma plus_space c s :
  isSpace c = false -> plus isSpace (String " " (String c s)) = Some (" ", String c s).
Proof. intros Hc. now apply (plus_until isSpace " " c s). Qed.

Lemma plus_space_lit c p s :
  isSpace c = false ->
  plus isSpace (String " " (String c p ++ s)) = Some (" ", String c p ++ s).
Proof. intros Hc. rewrite app_cons. now apply plus_space. Qed.

Lemma numType_app k r :
  (String.eqb k "i32" || String.eqb k "i64" || String.eqb k "f32" || String.eqb k "f64")
  = true ->
  numType (k ++ r) = Some (k, r).
Proof.
  intros H.
  repeat (apply orb_prop in H; destruct H as [H | H]);
    apply String.eqb_eq in H; subst k; reflexivity.
Qed.

Lemma declText_split d rest :
  declText d ++ rest
  = "(import" ++ String " " (String dquote (dModule d ++ String dquote (String " "
      (String dquote (dName d ++ String dquote (String " " ("(global" ++ String " "
         (String "$" (dIdent d ++ String " " (dKind d ++ "))" ++ rest)))))))))).
Proof.
  unfold declText.
  repeat (rewrite ?app_assoc, ?app_cons, ?app_empty_l; f_equal).
Qed.

Lemma matchAt_declaration d rest :
  wfDecl d = true -> matchAt (declText d ++ rest) = Some (declMatch d, rest).
Proof.
  unfold wfDecl. intros H.
  apply andb_prop in H as [H Hk]. apply andb_prop in H as [H Hi].
  apply andb_prop in H as [H Hi0]. apply andb_prop in H as [H Hn].
  apply andb_prop in H as [Hm Hn0].
  rewrite declText_split. unfold matchAt.
  rewrite lit_app. cbn [mbind option_bind].
  rewrite plus_space by reflexivity. cbn [mbind option_bind].
  rewrite lit_char. cbn [mbind option_bind].
  rewrite (star_until notQuote _ _ _ Hm) by reflexivity. cbn [mbind option_bind].
  rewrite lit_char. cbn [mbind option_bind].
  rewrite plus_space by reflexivity. cbn [mbind option_bind].
  rewrite lit_char. cbn [mbind option_bind].
  rewrite (plus_until notQuote _ _ _ Hn0 Hn) by reflexivity. cbn [mbind option_bind].
  rewrite lit_char. cbn [mbind option_bind].
  rewrite (plus_space_lit "(" "global") by reflexivity. cbn [mbind option_bind].
  rewrite lit_app. cbn [mbind option_bind].
  rewrite plus_space by reflexivity. cbn [mbind option_bind].
  rewrite lit_char. cbn [mbind option_bind].
  rewrite (plus_until identChar _ _ _ Hi0 Hi) by reflexivity. cbn [mbind option_bind].
  assert (Hsp : forall r, plus isSpace (String " " (dKind d ++ r))
                          = Some (" ", dKind d ++ r)).
  { intros r.
    repeat (apply orb_prop in Hk; destruct Hk as [Hk | Hk]);
      apply String.eqb_eq in Hk; rewrite Hk; reflexivity. }
  rewrite Hsp. cbn [mbind option_bind].
  rewrite (numType_app _ _ Hk). cbn [mbind option_bind].
  rewrite lit_app. cbn [mbind option_bind].
  reflexivity.
Qed.

Lemma matchAt_no_import s : HasPrefix s "(import" = false -> matchAt s = None.
Proof. intros H. unfold matchAt, lit. now rewrite H. Qed.

Lemma scan_skip a : forall rest g, scan (a ++ rest) (String.length a) g = scan rest O g.
Proof.
  induction a as [| c a IH]; intros rest g; [reflexivity |].
  rewrite app_cons. cbn [String.length scan]. apply IH.
Qed.

Lemma quiet_tail c g : quiet (String c g) = true -> quiet g = true.
Proof.
  unfold quiet, Contains. cbn [Index].
  destruct (HasPrefix (String c g) "(im"); [discriminate |].
  destruct (Index g "(im"); [discriminate | reflexivity].
Qed.

Lemma quiet_head g : quiet g = true -> HasPrefix g "(im" = false.
Proof.
  unfold quiet, Contains.
  destruct g as [| c g]; cbn [Index]; [reflexivity |].
  destruct (HasPrefix (String c g) "(im"); [discriminate | reflexivity].
Qed.

(** No import begins inside a quiet gap, whether the gap ends the text or
    an opening parenthesis follows it. *)
Lemma quiet_no_import c g rest :
  quiet (String c g) = true ->
  match rest with EmptyString => True | String x _ => x = "("%char end ->
  HasPrefix (String c g ++ rest) "(import" = false.
Proof.
  intros Hq Hr. apply quiet_head in Hq.
  assert (Hi : HasPrefix rest "import" = false)
    by (destruct rest as [| x r]; [reflexivity | subst x; reflexivity]).
  assert (Hm : HasPrefix rest "mport" = false)
    by (destruct rest as [| x r]; [reflexivity | subst x; reflexivity]).
  destruct g as [| c2 [| c3 g]]; rewrite ?app_cons, ?app_empty_l;
    cbn [HasPrefix] in *.
  - rewrite Hi. apply andb_false_r.
  - rewrite Hm. now rewrite !andb_false_r.
  - destruct (Ascii.eqb "(" c); [| reflexivity].
    destruct (Ascii.eqb "i" c2); [| reflexivity].
    destruct (Ascii.eqb "m" c3); [| reflexivity].
    destruct g; discriminate.
Qed.

Lemma scan_gap g : forall rest acc,
  quiet g = true ->
  match rest with EmptyString => True | String x _ => x = "("%char end ->
  scan (g ++ rest) O acc = scan rest O (acc ++ g).
Proof.
  induction g as [| c g IH]; intros rest acc Hq Hr.
  - now rewrite app_empty_l, app_empty_r.
  - pose proof (quiet_no_import c g rest Hq Hr) as Hn.
    rewrite app_cons in *. cbn [scan].
    rewrite (matchAt_no_import _ Hn).
    rewrite (IH rest _ (quiet_tail c g Hq) Hr).
    now rewrite app_assoc, app_cons, app_empty_l.
Qed.

Lemma scan_located ds : forall tl,
  Forall (fun p => quiet (fst p) && wfDecl (snd p) = true) ds ->
  quiet tl = true ->
  scan (render (located ds) tl) O EmptyString = (located ds, tl).
Proof.
  induction ds as [| [g d] ds IH]; intros tl Hds Htl; cbn [located map render fst snd].
  - rewrite <- (app_empty_r tl) at 1.
    rewrite (scan_gap tl EmptyString EmptyString Htl I). now rewrite app_empty_l.
  - apply Forall_cons_1 in Hds as [Hg Hds]. cbn [fst snd] in Hg.
    apply andb_prop in Hg as [Hg Hd].
    rewrite (scan_gap g _ EmptyString Hg) by reflexivity. rewrite app_empty_l.
    cbn [fullImport declMatch]. fold (located ds).
    assert (Ht : exists t, declText d = String "(" t) by (eexists; reflexivity).
    destruct Ht as [t Ht].
    pose proof (matchAt_declaration d (render (located ds) tl) Hd) as Hm.
    rewrite Ht, app_cons in *. cbn [scan]. rewrite Hm. cbn [fullImport declMatch].
    rewrite Ht. cbn [String.length]. replace (S (String.length t) - 1)%nat
      with (String.length t) by lia.
    rewrite scan_skip. rewrite (IH tl Hds Htl).
    reflexivity.
Qed.

End RegexpFacts.

Module TemplateProps.
Import Strings Regexp Executor Template Samples StringFacts SearchFacts RegexpFacts.

Section Loop.
Variable floatLiteral : string -> option string.

Lemma firstAt_Index pre old :
  firstAt pre old = true -> Index (pre ++ old) old = Some (String.length pre).
Proof.
  unfold firstAt. destruct (Index (pre ++ old) old) as [j |]; [| discriminate].
  intros H. apply Nat.eqb_eq in H. now subst.
Qed.

(** The loop of injectSecretsIntoWAT against rewriting in place: [done] is
    the part of the working text already behind the loop. *)
Lemma injectLoop_inPlace secrets ps : forall done tl,
  separated floatLiteral secrets done ps = true ->
  injectLoop floatLiteral secrets (map snd ps) (done ++ render ps tl)
  = match inPlace floatLiteral secrets ps tl with
    | Ok t => Ok (done ++ t)
    | Err e => Err e
    end.
Proof.
  induction ps as [| [gap m] rest IH]; intros done tl Hsep.
  - reflexivity.
  - cbn [map snd injectLoop render inPlace separated] in *.
    unfold replacement in *.
    destruct (secrets !! secretName m) as [secretValue |].
    + destruct (convertSecretToWASMValue floatLiteral secretValue (wasmType m))
        as [wasmValue | e]; [| reflexivity].
      apply andb_true_iff in Hsep as [Hfirst Hsep].
      apply firstAt_Index in Hfirst.
      change (inlineGlobal (globalName m) (wasmType m) wasmValue)
        with (globalDef (globalName m) (wasmType m) wasmValue) in *.
      set (G := globalDef (globalName m) (wasmType m) wasmValue) in *.
      replace (done ++ gap ++ fullImport m ++ render rest tl)
        with ((done ++ gap) ++ fullImport m ++ render rest tl)
        by (now rewrite !app_assoc).
      rewrite (ReplaceFirst_at (done ++ gap) (fullImport m) G (render rest tl) Hfirst).
      replace ((done ++ gap) ++ G ++ render rest tl)
        with ((done ++ gap ++ G) ++ render rest tl)
        by (now rewrite !app_assoc).
      rewrite (IH _ tl Hsep).
      destruct (inPlace floatLiteral secrets rest tl) as [t | e]; [| reflexivity].
      now rewrite !app_assoc.
    + replace (done ++ gap ++ fullImport m ++ render rest tl)
        with ((done ++ gap ++ fullImport m) ++ render rest tl)
        by (now rewrite !app_assoc).
      rewrite (IH _ tl Hsep).
      destruct (inPlace floatLiteral secrets rest tl) as [t | e]; [| reflexivity].
      now rewrite !app_assoc.
Qed.

Lemma injectLoop_unreferenced secrets ms : forall text,
  (forall m, In m ms -> secrets !! secretName m = None) ->
  injectLoop floatLiteral secrets ms text = Ok text.
Proof.
  induction ms as [| m ms IH]; intros text H; [reflexivity |].
  cbn [injectLoop]. rewrite (H m (or_introl eq_refl)).
  apply IH. intros m' Hm'. apply H. now right.
Qed.

Lemma injectLoop_insert secrets k v ms : forall text,
  (forall m, In m ms -> secretName m <> k) ->
  injectLoop floatLiteral (<[k := v]> secrets) ms text
  = injectLoop floatLiteral secrets ms text.
Proof.
  induction ms as [| m ms IH]; intros text H; [reflexivity |].
  cbn [injectLoop].
  rewrite lookup_insert_ne by (intros E; apply (H m (or_introl eq_refl)); now symmetry).
  assert (Hrest : forall m', In m' ms -> secretName m' <> k)
    by (intros m' Hm'; apply H; now right).
  destruct (secrets !! secretName m) as [secretValue |]; [| now apply IH].
  destruct (convertSecretToWASMValue _ _ _); [now apply IH | reflexivity].
Qed.

Lemma inPlace_app secrets ps1 : forall ps2 tl out,
  inPlace floatLiteral secrets (ps1 ++ ps2)%list tl = Ok out ->
  exists pre post,
    inPlace floatLiteral secrets ps1 EmptyString = Ok pre /\
    inPlace floatLiteral secrets ps2 tl = Ok post /\
    out = pre ++ post.
Proof.
  induction ps1 as [| [gap m] ps1 IH]; intros ps2 tl out H.
  - exists EmptyString, out. repeat split. exact H.
  - cbn [app inPlace] in *.
    destruct (replacement floatLiteral secrets m) as [r | e]; [| discriminate].
    destruct (inPlace floatLiteral secrets (ps1 ++ ps2)%list tl) as [t | e] eqn:E;
      [| discriminate].
    injection H as <-.
    destruct (IH _ _ _ E) as (pre & post & Hpre & Hpost & ->).
    rewrite Hpre. exists (gap ++ r ++ pre), post.
    repeat split; [exact Hpost |]. now rewrite !app_assoc.
Qed.

(** The first occurrence found by the search is the first occurrence. *)
Lemma Index_firstOccurrence s old j :
  Index s old = Some j ->
  firstOccurrence (takeS j s) old (dropS (j + String.length old) s) s.
Proof.
  intros H. split; [now apply Index_sound |].
  intros a' b' E. pose proof (Index_bound _ _ _ H) as Hb.
  rewrite length_takeS by lia. subst s. now apply Index_least in H.
Qed.

Lemma Index_absent s old : Index s old = None -> absent old s.
Proof. intros H a b E. subst s. now apply Index_complete in H. Qed.

Lemma firstOccurrence_unique a1 b1 a2 b2 old text :
  firstOccurrence a1 old b1 text -> firstOccurrence a2 old b2 text ->
  a1 = a2 /\ b1 = b2.
Proof.
  intros [E1 L1] [E2 L2].
  pose proof (L1 _ _ E2) as H12. pose proof (L2 _ _ E1) as H21.
  rewrite E1 in E2.
  destruct (app_inj_length a1 a2 _ _ ltac:(lia) E2) as [-> E].
  destruct (app_inj_length old old _ _ eq_refl E) as [_ ->]. now split.
Qed.

(** The loop of injectSecretsIntoWAT rewrites the working text match by
    match, at the first remaining occurrence of the text of the match. *)
Lemma injectLoop_Rewritten secrets ms : forall text,
  Rewritten floatLiteral secrets ms text (injectLoop floatLiteral secrets ms text).
Proof.
  induction ms as [| m ms IH]; intros text; cbn [injectLoop]; [constructor |].
  destruct (secrets !! secretName m) as [secretValue |] eqn:Es;
    [| now apply RwNoSecret].
  destruct (convertSecretToWASMValue floatLiteral secretValue (wasmType m))
    as [literal | e] eqn:Ec; [| now apply (RwNoLiteral _ _ _ _ _ secretValue)].
  unfold ReplaceFirst. destruct (Index text (fullImport m)) as [j |] eqn:Ei.
  - apply (RwFirst _ _ _ _ _ secretValue literal (takeS j text)
             (dropS (j + String.length (fullImport m)) text)); try assumption.
    + now apply Index_firstOccurrence.
    + apply IH.
  - apply (RwAbsent _ _ _ _ _ secretValue literal); try assumption.
    + now apply Index_absent.
    + apply IH.
Qed.

(** Rewriting has one result. *)
Lemma Rewritten_functional secrets ms text out1 :
  Rewritten floatLiteral secrets ms text out1 ->
  forall out2, Rewritten floatLiteral secrets ms text out2 -> out1 = out2.
Proof.
  induction 1 as [text | m ms text out Hs _ IH | m ms text v e Hs Hc
                  | m ms text v lit a b out Hs Hc Hf _ IH
                  | m ms text v lit out Hs Hc Ha _ IH];
    intros out2 H2; inversion H2; subst;
    repeat match goal with
    | H1 : ?x = Some ?u, H2 : ?x = Some ?w |- _ =>
      assert (u = w) by congruence; subst w; clear H2
    | H1 : ?x = Ok ?u, H2 : ?x = Ok ?w |- _ =>
      assert (u = w) by congruence; subst w; clear H2
    end;
    try congruence; try (now apply IH).
  - match goal with
    | Hf2 : firstOccurrence _ _ _ text |- _ =>
      destruct (firstOccurrence_unique _ _ _ _ _ _ Hf Hf2) as [<- <-]
    end.
    now apply IH.
  - exfalso.
    match goal with
    | Ha2 : absent _ text |- _ => destruct Hf as [E _]; exact (Ha2 _ _ E)
    end.
  - exfalso.
    match goal with
    | Hf2 : firstOccurrence _ _ _ text |- _ => destruct Hf2 as [E _]; exact (Ha _ _ E)
    end.
Qed.

Lemma inject_Rewritten secrets src out :
  Rewritten floatLiteral secrets (FindAllStringSubmatch src) src out <->
  injectSecretsIntoWAT floatLiteral src secrets = out.
Proof.
  unfold injectSecretsIntoWAT. split.
  - intros H. symmetry.
    exact (Rewritten_functional _ _ _ _ H _ (injectLoop_Rewritten _ _ _)).
  - intros <-. apply injectLoop_Rewritten.
Qed.

Lemma inject_inPlace secrets src ps tl :
  pieces src = (ps, tl) ->
  separated floatLiteral secrets EmptyString ps = true ->
  injectSecretsIntoWAT floatLiteral src secrets = inPlace floatLiteral secrets ps tl.
Proof.
  intros Hp Hsep. unfold injectSecretsIntoWAT, FindAllStringSubmatch.
  rewrite Hp. cbn [fst].
  rewrite (pieces_render _ _ _ Hp) at 1.
  rewrite <- (app_empty_l (render ps tl)).
  rewrite (injectLoop_inPlace secrets ps EmptyString tl Hsep).
  destruct (inPlace floatLiteral secrets ps tl); reflexivity.
Qed.

End Loop.

(** C6 (counterexample).  The source is WAT text for the executor, its
    second declaration has a secret, and yet the output still holds that
    declaration as an import, character for character: the replacement
    went to the earlier occurrence of its text inside the first
    declaration. *)
Lemma C6_counterexample :
  isWATText overlapSource = true /\
  FindAllStringSubmatch overlapSource = [overlapFirst; overlapSecond] /\
  overlapSecrets !! secretName overlapSecond = Some "5" /\
  forall floatLiteral,
    injectSecretsIntoWAT floatLiteral overlapSource overlapSecrets
    = Ok (wat "(module (import '(global $y i32 (i32.const 5)) "
          ++ fullImport overlapSecond ++ " (func))") /\
    injectSecretsIntoWAT floatLiteral overlapSource overlapSecrets
    <> inPlace floatLiteral overlapSecrets
         (fst (pieces overlapSource)) (snd (pieces overlapSource)).
Proof.
  split; [vm_compute; reflexivity |].
  split; [vm_compute; reflexivity |].
  split; [vm_compute; reflexivity |].
  intros floatLiteral. split; [vm_compute; reflexivity |].
  vm_compute. discriminate.
Qed.

(** C6 (amended).  The matches are taken in order against the working
    text, and the result of inject is the one result of this rewriting: a
    match whose name has a secret with a literal has the first remaining
    occurrence of its text replaced by [(global $ident k (k.const literal))],
    nothing is replaced when no occurrence remains, and a secret without
    literal ends inject with its error.  The declarations of a source in
    the usual layout, separated by text in which no import begins, are
    exactly the matches.  When no declaration that has a secret is preceded
    in the working text by another occurrence of its own text, the result
    is the source with every declaration that has a secret replaced where
    it stands, once each and also when identical declarations repeat. *)
Theorem C6_declarations_rewritten_in_place floatLiteral src secrets :
  (forall out,
     Rewritten floatLiteral secrets (FindAllStringSubmatch src) src out <->
     injectSecretsIntoWAT floatLiteral src secrets = out) /\
  (forall ds tl,
     Forall (fun p => quiet (fst p) && wfDecl (snd p) = true) ds ->
     quiet tl = true ->
     src = render (located ds) tl ->
     pieces src = (located ds, tl) /\
     FindAllStringSubmatch src = map (fun p => declMatch (snd p)) ds) /\
  (forall ps tl,
     pieces src = (ps, tl) ->
     separated floatLiteral secrets EmptyString ps = true ->
     src = render ps tl /\
     injectSecretsIntoWAT floatLiteral src secrets = inPlace floatLiteral secrets ps tl).
Proof.
  split; [intros out; apply inject_Rewritten |]. split.
  - intros ds tl Hds Htl ->.
    assert (Hp : pieces (render (located ds) tl) = (located ds, tl))
      by (now apply scan_located).
    split; [exact Hp |].
    unfold FindAllStringSubmatch. rewrite Hp. cbn [fst]. unfold located.
    rewrite map_map. reflexivity.
  - intros ps tl Hp Hsep. split; [now apply pieces_render | now apply inject_inPlace].
Qed.

Lemma C6_declarations_rewritten_in_place_witness :
  FindAllStringSubmatch repeatedSource
  = map (fun p => declMatch (snd p)) repeatedDecls /\
  injectSecretsIntoWAT (fun _ => None) repeatedSource repeatedSecrets
  = Ok (wat "(module (global $K i32 (i32.const 42)) (global $K i32 (i32.const 42)) (import 'env' 'L' (global $L i64)))").
Proof.
  pose proof (C6_declarations_rewritten_in_place (fun _ => None)
                repeatedSource repeatedSecrets) as [_ [Hfound Hplace]].
  split.
  - refine (proj2 (Hfound repeatedDecls ")" _ _ _)).
    + repeat constructor.
    + reflexivity.
    + vm_compute. reflexivity.
  - refine (eq_trans (proj2 (Hplace (fst (pieces repeatedSource))
                               (snd (pieces repeatedSource)) _ _)) _).
    + vm_compute. reflexivity.
    + vm_compute. reflexivity.
    + vm_compute. reflexivity.
Defined.

(** C7 (counterexample).  The source is WAT text for the executor, its
    first declaration has no secret, the text of that declaration occurs in
    the source, and the output no longer holds it. *)
Lemma C7_counterexample :
  isWATText overlapSource = true /\
  FindAllStringSubmatch overlapSource = [overlapFirst; overlapSecond] /\
  overlapSecrets !! secretName overlapFirst = None /\
  Contains overlapSource (fullImport overlapFirst) = true /\
  forall floatLiteral,
    exists out,
      injectSecretsIntoWAT floatLiteral overlapSource overlapSecrets = Ok out /\
      Contains out (fullImport overlapFirst) = false.
Proof.
  split; [vm_compute; reflexivity |].
  split; [vm_compute; reflexivity |].
  split; [vm_compute; reflexivity |].
  split; [vm_compute; reflexivity |].
  intros floatLiteral. eexists. split; vm_compute; reflexivity.
Qed.

(** C7 (amended).  Let the source split into declarations and the text
    between them.  A declaration whose name has no secret stands in the
    output character for character, between the rewritten text before it
    and the rewritten text after it, when no declaration that has a secret
    is preceded in the working text by another occurrence of its own text.
    A source without declarations, and more generally a source none of
    whose declarations has a secret, comes back unchanged.  A secret whose
    name no declaration carries changes nothing: inject gives the result it
    gives without that secret.  The declarations are those the pattern
    finds: for a source in the usual layout, whose declarations are
    separated by text in which no import begins, exactly these. *)
Theorem C7_unreferenced_left_alone floatLiteral src secrets ps tl :
  pieces src = (ps, tl) ->
  (forall ps1 gap m ps2 out,
     separated floatLiteral secrets EmptyString ps = true ->
     ps = (ps1 ++ (gap, m) :: ps2)%list ->
     secrets !! secretName m = None ->
     injectSecretsIntoWAT floatLiteral src secrets = Ok out ->
     exists pre post,
       inPlace floatLiteral secrets ps1 EmptyString = Ok pre /\
       inPlace floatLiteral secrets ps2 tl = Ok post /\
       out = pre ++ gap ++ fullImport m ++ post) /\
  (ps = [] -> injectSecretsIntoWAT floatLiteral src secrets = Ok src) /\
  ((forall gap m, In (gap, m) ps -> secrets !! secretName m = None) ->
   injectSecretsIntoWAT floatLiteral src secrets = Ok src) /\
  (forall k v,
     (forall gap m, In (gap, m) ps -> secretName m <> k) ->
     injectSecretsIntoWAT floatLiteral src (<[k := v]> secrets)
     = injectSecretsIntoWAT floatLiteral src secrets) /\
  (forall ds tl',
     Forall (fun p => quiet (fst p) && wfDecl (snd p) = true) ds ->
     quiet tl' = true ->
     src = render (located ds) tl' ->
     ps = located ds /\ tl = tl').
Proof.
  intros Hp.
  assert (Hin : forall m, In m (FindAllStringSubmatch src) -> exists gap, In (gap, m) ps).
  { unfold FindAllStringSubmatch. rewrite Hp. cbn [fst]. intros m Hm.
    apply in_map_iff in Hm as ([gap m'] & <- & Hm). eauto. }
  assert (Hnone : (forall gap m, In (gap, m) ps -> secrets !! secretName m = None) ->
                  injectSecretsIntoWAT floatLiteral src secrets = Ok src).
  { intros H. apply injectLoop_unreferenced.
    intros m Hm. destruct (Hin m Hm) as [gap Hg]. eapply H. exact Hg. }
  split; [| split; [| split; [| split]]].
  - intros ps1 gap m ps2 out Hsep -> Hm Hout.
    rewrite (inject_inPlace floatLiteral secrets src _ tl Hp Hsep) in Hout.
    destruct (inPlace_app floatLiteral secrets ps1 _ tl out Hout)
      as (pre & post' & Hpre & Hpost & ->).
    cbn [inPlace] in Hpost. unfold replacement in Hpost. rewrite Hm in Hpost.
    destruct (inPlace floatLiteral secrets ps2 tl) as [post | e]; [| discriminate].
    injection Hpost as <-. exists pre, post. repeat split. exact Hpre.
  - intros ->. apply Hnone. intros gap m [].
  - exact Hnone.
  - intros k v H. apply injectLoop_insert.
    intros m Hm. destruct (Hin m Hm) as [gap Hg]. eapply H. exact Hg.
  - intros ds tl' Hds Htl Hsrc.
    pose proof (scan_located ds tl' Hds Htl) as Hs. fold (pieces (render (located ds) tl')) in Hs.
    rewrite <- Hsrc, Hp in Hs. now injection Hs as -> ->.
Qed.

Lemma C7_unreferenced_left_alone_witness :
  (exists pre post,
     injectSecretsIntoWAT (fun _ => None) mixedSource {[ "K" := "42" ]}
     = Ok (pre ++ " " ++ fullImport importL ++ post)) /\
  injectSecretsIntoWAT (fun _ => None) mixedSource {[ "UNUSED" := "1" ]}
  = Ok mixedSource /\
  injectSecretsIntoWAT (fun _ => None) mixedSource (<[ "UNUSED" := "1" ]> {[ "K" := "42" ]})
  = injectSecretsIntoWAT (fun _ => None) mixedSource {[ "K" := "42" ]}.
Proof.
  assert (Hp : pieces mixedSource = (mixedPieces, " (func))"))
    by (vm_compute; reflexivity).
  pose proof (fun secrets =>
    C7_unreferenced_left_alone (fun _ => None) mixedSource secrets
      mixedPieces " (func))" Hp) as H.
  split; [| split].
  - destruct (proj1 (H {[ "K" := "42" ]}) [("(module ", importK)] " " importL []
      (wat "(module (global $K i32 (i32.const 42)) (import 'env' 'L' (global $L i64)) (func))"))
      as (pre & post & _ & _ & Hout).
    + vm_compute. reflexivity.
    + reflexivity.
    + vm_compute. reflexivity.
    + vm_compute. reflexivity.
    + exists pre, post. rewrite <- Hout. vm_compute. reflexivity.
  - apply (proj1 (proj2 (proj2 (H {[ "UNUSED" := "1" ]})))).
    intros gap m Hin.
    refine (proj1 (List.Forall_forall
      (fun p => ({[ "UNUSED" := "1" ]} : gmap string string) !! secretName (snd p) = None)
      mixedPieces) _ (gap, m) Hin).
    repeat constructor.
  - apply (proj1 (proj2 (proj2 (proj2 (H {[ "K" := "42" ]}))))).
    intros gap m Hin.
    refine (proj1 (List.Forall_forall
      (fun p => secretName (snd p) <> "UNUSED") mixedPieces) _ (gap, m) Hin).
    repeat constructor; discriminate.
Defined.

End TemplateProps.

Module ExecutionProps.
Import Strings Executor Stream.

Section WithEngine.
Variable floatLiteral : string -> option string.
Variable base64Std : string -> outcome string.
Variables (Module_ Instance Extern Func : Type).
Variable NewModule : string -> outcome Module_.
Variable NewInstance : Module_ -> completion (outcome Instance).
Variable GetExport : Instance -> string -> option Extern.
Variable ExternFunc : Extern -> option Func.
Variable Call : Func -> list Z -> completion (outcome Val).

Let execute :=
  ExecuteWASM floatLiteral base64Std Module_ Instance Extern Func NewModule
    NewInstance GetExport ExternFunc Call.
Let answer :=
  respond floatLiteral base64Std Module_ Instance Extern Func NewModule
    NewInstance GetExport ExternFunc Call.
Let serve :=
  handleConnection floatLiteral base64Std Module_ Instance Extern Func NewModule
    NewInstance GetExport ExternFunc Call.
Let got := obtained floatLiteral base64Std.
Let success :=
  succeeds floatLiteral base64Std Module_ Instance Extern Func NewModule
    NewInstance GetExport ExternFunc Call.

(** Every path of ExecuteWASM that returns an error returns the value 0. *)
Lemma ExecuteWASM_error_zero env wasmCode functionName args secrets r e :
  execute env wasmCode functionName args secrets = Returns (r, Some e) -> r = 0.
Proof.
  unfold execute, ExecuteWASM.
  repeat match goal with
  | |- context [match ?x with _ => _ end] => destruct x
  end; intros H; try discriminate; now injection H as <- _.
Qed.

(** ExecuteWASM from the instance on. *)
Lemma ExecuteWASM_instance env req wasmBytes module instance :
  got env req wasmBytes ->
  NewModule wasmBytes = Ok module ->
  NewInstance module = Returns (Ok instance) ->
  execute env (WASMCode req) (FunctionName req) (Args req) (Secrets req)
  = match GetExport instance (FunctionName req) with
    | None =>
      Returns (0, Some ("function '" ++ FunctionName req ++ "' not found in WASM module"))
    | Some exportedFunc =>
      match ExternFunc exportedFunc with
      | None => Returns (0, Some ("'" ++ FunctionName req ++ "' is not a function"))
      | Some wasmFunc =>
        match Call wasmFunc (Args req) with
        | Panics => Panics
        | Diverges => Diverges
        | Returns (Err e) => Returns (0, Some ("WASM function call failed: " ++ e))
        | Returns (Ok (VI32 resultVal)) => Returns (resultVal, None)
        | Returns (Ok v) =>
          Returns (0, Some ("unexpected return type from WASM function: " ++ typeName v))
        end
      end
    end.
Proof.
  intros Hg Hm Hi. unfold execute, ExecuteWASM.
  destruct Hg as [[Hw (processedWAT & Hp & Hc)] | [Hw Hd]]; rewrite Hw.
  - rewrite Hp, Hc, Hm, Hi. reflexivity.
  - rewrite Hd, Hm, Hi. reflexivity.
Qed.

(** ExecuteWASM returns a value without error exactly when every stage
    succeeds and the call returns that value as an i32. *)
Lemma ExecuteWASM_success env req v :
  execute env (WASMCode req) (FunctionName req) (Args req) (Secrets req) = Returns (v, None)
  <-> success env req v.
Proof.
  split.
  - unfold execute, ExecuteWASM, success, succeeds, obtained. intros H.
    destruct (isWATText (WASMCode req)) eqn:Ew.
    + destruct (if bool_decide (Secrets req = ∅) then Ok (WASMCode req)
                else injectSecretsIntoWAT floatLiteral (WASMCode req) (Secrets req))
        as [processedWAT | e] eqn:Ep; [| discriminate].
      destruct (fst (compileWATToWASM env processedWAT)) as [wasmBytes | e] eqn:Ec;
        [| discriminate].
      destruct (NewModule wasmBytes) as [module | e] eqn:Em; [| discriminate].
      destruct (NewInstance module) as [[instance | e] | |] eqn:Ei; try discriminate.
      destruct (GetExport instance (FunctionName req)) as [exportedFunc |] eqn:Eg;
        [| discriminate].
      destruct (ExternFunc exportedFunc) as [wasmFunc |] eqn:Ef; [| discriminate].
      destruct (Call wasmFunc (Args req)) as [[[] | e] | |] eqn:Ecall; try discriminate.
      injection H as ->.
      exists wasmBytes, module, instance, exportedFunc, wasmFunc.
      split.
      { left. split; [reflexivity |]. exists processedWAT.
        split; [reflexivity | exact Ec]. }
      repeat split; assumption.
    + destruct (base64DecodeWASM base64Std (WASMCode req)) as [wasmBytes | e] eqn:Ed;
        [| discriminate].
      destruct (NewModule wasmBytes) as [module | e] eqn:Em; [| discriminate].
      destruct (NewInstance module) as [[instance | e] | |] eqn:Ei; try discriminate.
      destruct (GetExport instance (FunctionName req)) as [exportedFunc |] eqn:Eg;
        [| discriminate].
      destruct (ExternFunc exportedFunc) as [wasmFunc |] eqn:Ef; [| discriminate].
      destruct (Call wasmFunc (Args req)) as [[[] | e] | |] eqn:Ecall; try discriminate.
      injection H as ->.
      exists wasmBytes, module, instance, exportedFunc, wasmFunc.
      split; [right; split; reflexivity |].
      repeat split; assumption.
  - intros (wasmBytes & module & instance & exportedFunc & wasmFunc
            & Hg & Hm & Hi & He & Hf & Hc).
    rewrite (ExecuteWASM_instance env req wasmBytes module instance Hg Hm Hi).
    now rewrite He, Hf, Hc.
Qed.

Lemma respond_returns env req resp :
  answer env req = Returns resp ->
  exists r oe,
    execute env (WASMCode req) (FunctionName req) (Args req) (Secrets req)
    = Returns (r, oe) /\
    resp = match oe with
           | Some err => {| Result := r; Error := "WASM execution failed: " ++ err |}
           | None => {| Result := r; Error := EmptyString |}
           end.
Proof.
  unfold answer, respond. fold execute.
  destruct (execute env _ _ _ _) as [[r [e |]] | |]; intros H; try discriminate;
    injection H as <-; eauto.
Qed.

(** The error of a response is empty exactly when execution succeeded with
    the result of the response, and a response with an error has result 0. *)
Lemma respond_error env req resp :
  answer env req = Returns resp ->
  (Error resp = EmptyString <-> success env req (Result resp)) /\
  (Error resp <> EmptyString -> Result resp = 0).
Proof.
  intros H. destruct (respond_returns env req resp H) as (r & [e |] & Hx & ->);
    cbn [Error Result].
  - split; [split |].
    + discriminate.
    + intros Hs. apply ExecuteWASM_success in Hs. fold execute in Hs. congruence.
    + intros _. exact (ExecuteWASM_error_zero _ _ _ _ _ _ _ Hx).
  - split; [split |].
    + intros _. now apply ExecuteWASM_success.
    + reflexivity.
    + congruence.
Qed.

(** The response for a text that does not compile. *)
Lemma respond_compile_failure env req processedWAT e :
  isWATText (WASMCode req) = true ->
  (if bool_decide (Secrets req = ∅) then Ok (WASMCode req)
   else injectSecretsIntoWAT floatLiteral (WASMCode req) (Secrets req))
  = Ok processedWAT ->
  fst (compileWATToWASM env processedWAT) = Err e ->
  answer env req
  = Returns {| Result := 0;
               Error := "WASM execution failed: failed to compile WAT to WASM: " ++ e |}.
Proof.
  intros Hw Hp Hc. unfold answer, respond, ExecuteWASM. now rewrite Hw, Hp, Hc.
Qed.

(** When every execution returns, the loop hands the encoder one response
    for every request it decodes, in order, and returns. *)
Lemma handleConnection_decoded incoming :
  Forall (fun p => exists resp, answer (snd (fst p)) (fst (fst p)) = Returns resp)
    incoming ->
  Forall2 (fun p resp => answer (snd p) (fst p) = Returns resp)
    (decoded incoming) (fst (serve incoming)) /\
  snd (serve incoming) = Closed.
Proof.
  induction incoming as [| [[req env] ok] later IH]; intros H.
  - split; [constructor | reflexivity].
  - apply Forall_cons_1 in H as [[resp Hr] Hl]. cbn [fst snd] in Hr.
    specialize (IH Hl). unfold serve, answer in *.
    cbn [handleConnection decoded]. rewrite Hr. destruct ok.
    + destruct (handleConnection _ _ _ _ _ _ _ _ _ _ _ later) as [rs how].
      cbn [fst snd] in *. destruct IH as [IH1 IH2].
      split; [constructor; [exact Hr | exact IH1] | exact IH2].
    + cbn [fst snd]. split; [| reflexivity]. constructor; [exact Hr | constructor].
Qed.

(** A request whose execution does not return gets no response, and the
    task serves nothing after it. *)
Lemma handleConnection_stuck pre : forall req env ok later,
  Forall (fun p => snd p = true /\
                   exists resp, answer (snd (fst p)) (fst (fst p)) = Returns resp) pre ->
  answer env req = Panics \/ answer env req = Diverges ->
  Forall2 (fun p resp => answer (snd (fst p)) (fst (fst p)) = Returns resp)
    pre (fst (serve (pre ++ (req, env, ok) :: later)%list)) /\
  snd (serve (pre ++ (req, env, ok) :: later)%list)
  = match answer env req with Panics => Crashed | _ => Blocked end.
Proof.
  induction pre as [| [[req0 env0] ok0] pre IH]; intros req env ok later Hpre Hstuck.
  - unfold serve, answer in *. cbn [app handleConnection].
    destruct Hstuck as [-> | ->]; cbn [fst snd]; split; (constructor || reflexivity).
  - apply Forall_cons_1 in Hpre as [[Hok [resp Hr]] Hpre]. cbn [fst snd] in Hok, Hr.
    subst ok0. specialize (IH req env ok later Hpre Hstuck).
    unfold serve, answer in *. cbn [app handleConnection]. rewrite Hr.
    destruct (handleConnection _ _ _ _ _ _ _ _ _ _ _ (pre ++ (req, env, ok) :: later)%list)
      as [rs how].
    cbn [fst snd] in *. destruct IH as [IH1 IH2].
    split; [constructor; [exact Hr | exact IH1] | exact IH2].
Qed.

End WithEngine.

(** C8 (counterexample).  The exported function of the request never
    returns: the request is decoded, no response is written for it, and
    the task of the connection stays in the call. *)
Lemma C8_counterexample :
  let incoming := [(Scenario.squareOf 7, Bench.quietEnv, true)] in
  decoded incoming = [(Scenario.squareOf 7, Bench.quietEnv)] /\
  handleConnection (fun _ => None) Encoding.stdDecode unit unit unit unit
    (fun _ => Ok tt) (fun _ => Returns (Ok tt)) (fun _ _ => Some tt) (fun _ => Some tt)
    (fun _ _ => Diverges) incoming
  = ([], Blocked).
Proof. split; vm_compute; reflexivity. Qed.

(** C8 (amended).  When the execution of every request returns, the
    connection loop hands the encoder exactly one response for every
    request it decodes, in order.  The error of a response is empty exactly
    when execution succeeded: the module was obtained, created and
    instantiated, the export exists and is a function, and its call
    returned the result of the response as an i32.  An unknown function, an
    export that is no function, a text that does not compile, a trap and a
    return value of another type each give the result 0 and an error that
    names the cause.  A request whose execution panics or never returns
    gets no response, and the task serves nothing after it. *)
Theorem C8_one_response_per_request
    (floatLiteral : string -> option string) (base64Std : string -> outcome string)
    (Module_ Instance Extern Func : Type)
    (NewModule : string -> outcome Module_)
    (NewInstance : Module_ -> completion (outcome Instance))
    (GetExport : Instance -> string -> option Extern)
    (ExternFunc : Extern -> option Func)
    (Call : Func -> list Z -> completion (outcome Val))
    (incoming : list (WASMRequest * CompileEnv * bool)) :
  let answer :=
    respond floatLiteral base64Std Module_ Instance Extern Func NewModule
      NewInstance GetExport ExternFunc Call in
  let serve :=
    handleConnection floatLiteral base64Std Module_ Instance Extern Func NewModule
      NewInstance GetExport ExternFunc Call in
  let success :=
    succeeds floatLiteral base64Std Module_ Instance Extern Func NewModule
      NewInstance GetExport ExternFunc Call in
  let failure env req cause :=
    answer env req
    = Returns {| Result := 0; Error := "WASM execution failed: " ++ cause |} in
  (Forall (fun p => exists resp, answer (snd (fst p)) (fst (fst p)) = Returns resp)
     incoming ->
   Forall2 (fun p resp => answer (snd p) (fst p) = Returns resp)
     (decoded incoming) (fst (serve incoming)) /\
   snd (serve incoming) = Closed) /\
  (forall env req resp,
     answer env req = Returns resp ->
     (Error resp = EmptyString <-> success env req (Result resp)) /\
     (Error resp <> EmptyString -> Result resp = 0)) /\
  (forall env req wasmBytes module instance,
     obtained floatLiteral base64Std env req wasmBytes ->
     NewModule wasmBytes = Ok module ->
     NewInstance module = Returns (Ok instance) ->
     (GetExport instance (FunctionName req) = None ->
      failure env req ("function '" ++ FunctionName req ++ "' not found in WASM module")) /\
     (forall exportedFunc,
        GetExport instance (FunctionName req) = Some exportedFunc ->
        ExternFunc exportedFunc = None ->
        failure env req ("'" ++ FunctionName req ++ "' is not a function")) /\
     (forall exportedFunc wasmFunc,
        GetExport instance (FunctionName req) = Some exportedFunc ->
        ExternFunc exportedFunc = Some wasmFunc ->
        (forall e,
           Call wasmFunc (Args req) = Returns (Err e) ->
           failure env req ("WASM function call failed: " ++ e)) /\
        (forall v,
           Call wasmFunc (Args req) = Returns (Ok v) ->
           (forall z, v <> VI32 z) ->
           failure env req ("unexpected return type from WASM function: " ++ typeName v)) /\
        (forall z,
           Call wasmFunc (Args req) = Returns (Ok (VI32 z)) ->
           answer env req = Returns {| Result := z; Error := EmptyString |}) /\
        (Call wasmFunc (Args req) = Panics -> answer env req = Panics) /\
        (Call wasmFunc (Args req) = Diverges -> answer env req = Diverges))) /\
  (forall env req processedWAT e,
     isWATText (WASMCode req) = true ->
     (if bool_decide (Secrets req = ∅) then Ok (WASMCode req)
      else injectSecretsIntoWAT floatLiteral (WASMCode req) (Secrets req))
     = Ok processedWAT ->
     fst (compileWATToWASM env processedWAT) = Err e ->
     failure env req ("failed to compile WAT to WASM: " ++ e)) /\
  (forall pre req env ok later,
     Forall (fun p => snd p = true /\
                      exists resp, answer (snd (fst p)) (fst (fst p)) = Returns resp) pre ->
     answer env req = Panics \/ answer env req = Diverges ->
     Forall2 (fun p resp => answer (snd (fst p)) (fst (fst p)) = Returns resp)
       pre (fst (serve (pre ++ (req, env, ok) :: later)%list)) /\
     snd (serve (pre ++ (req, env, ok) :: later)%list)
     = match answer env req with Panics => Crashed | _ => Blocked end).
Proof.
  intros answer serve success failure.
  split; [apply handleConnection_decoded |].
  split; [apply respond_error |].
  split; [| split; [intros env req processedWAT e; apply respond_compile_failure
                   | intros pre; apply handleConnection_stuck]].
  intros env req wasmBytes module instance Hg Hm Hi.
  pose proof (ExecuteWASM_instance floatLiteral base64Std Module_ Instance Extern Func
                NewModule NewInstance GetExport ExternFunc Call
                env req wasmBytes module instance Hg Hm Hi) as Hx.
  unfold failure, answer, respond.
  split; [intros He; now rewrite Hx, He |].
  split; [intros exportedFunc He Hf; now rewrite Hx, He, Hf |].
  intros exportedFunc wasmFunc He Hf. rewrite Hx, He, Hf.
  split; [intros e Hc; now rewrite Hc |].
  split; [intros v Hc Hv; rewrite Hc;
          destruct v; try reflexivity; now destruct (Hv z) |].
  split; [intros z Hc; now rewrite Hc |].
  split; intros Hc; now rewrite Hc.
Qed.

(** The requests of a runtime without the export [missing_fn] are answered
    with the result 0 and the error that the function was not found. *)
Lemma C8_one_response_per_request_witness :
  respond (fun _ => None) Encoding.stdDecode unit unit unit unit
    (fun _ => Ok tt) (fun _ => Returns (Ok tt)) (fun _ _ => None) (fun _ => Some tt)
    (fun _ _ => Returns (Ok (VI32 49))) Bench.quietEnv
    {| WASMCode := "(module)"; FunctionName := "missing_fn"; Args := [7]; Secrets := ∅ |}
  = Returns {| Result := 0;
               Error := "WASM execution failed: function 'missing_fn' not found in WASM module" |}.
Proof.
  refine (proj1 (proj1 (proj2 (proj2
    (C8_one_response_per_request (fun _ => None) Encoding.stdDecode unit unit unit unit
       (fun _ => Ok tt) (fun _ => Returns (Ok tt)) (fun _ _ => None) (fun _ => Some tt)
       (fun _ _ => Returns (Ok (VI32 49))) [])))
    Bench.quietEnv
    {| WASMCode := "(module)"; FunctionName := "missing_fn"; Args := [7]; Secrets := ∅ |}
    EmptyString tt tt _ eq_refl eq_refl) eq_refl).
  left. split; [reflexivity |]. exists "(module)". split; reflexivity.
Defined.

(** C4 (failing input).  Any two runs of the compile bridge, whatever text
    they compile and whatever the operating system answers, write that text
    to the one path [/tmp/temp.wat] and, when the write succeeds, ask the
    compiler for the one output path [/tmp/temp.wasm]. *)
Theorem C4_same_paths_every_invocation env1 env2 :
  let code1 := "(module)" in
  let code2 := "(module (func))" in
  hd_error (snd (compileWATToWASM env1 code1)) = Some (WriteFile "/tmp/temp.wat" code1) /\
  hd_error (snd (compileWATToWASM env2 code2)) = Some (WriteFile "/tmp/temp.wat" code2) /\
  forall env code args,
    In (Run "wat2wasm" args) (snd (compileWATToWASM env code)) ->
    args = ["/tmp/temp.wat"; "-o"; "/tmp/temp.wasm"].
Proof.
  intros code1 code2.
  assert (Hhd : forall env code,
    hd_error (snd (compileWATToWASM env code)) = Some (WriteFile "/tmp/temp.wat" code)).
  { intros env code. unfold compileWATToWASM.
    repeat match goal with
    | |- context [match ?x with _ => _ end] => destruct x
    end; reflexivity. }
  split; [apply Hhd |]. split; [apply Hhd |].
  intros env code args. unfold compileWATToWASM.
  repeat match goal with
  | |- context [match ?x with _ => _ end] => destruct x
  end; cbn [snd In]; intros H;
  repeat match goal with
  | H : _ \/ _ |- _ => destruct H as [H | H]
  | H : False |- _ => destruct H
  end; try discriminate; injection H as <-; reflexivity.
Qed.

End ExecutionProps.

Module RelayProps.
Import Executor Host.

Section WithConn.
Variable Conn : Type.

(** forwardToEnclave leaves the service as it found it: it has no
    assignment to a field of the service, on any path. *)
Lemma handleRequest_connected io (h : HostService Conn) req :
  enclaveConnected Conn h = true ->
  fst (fst (handleRequest Conn io h req)) = h /\
  ~ In (Host.Dial) (snd (handleRequest Conn io h req)).
Proof.
  intros Hc. unfold handleRequest. rewrite Hc.
  unfold forwardToEnclave. rewrite Hc.
  destruct (enclaveConn Conn h) as [conn |];
    [destruct (sendErr Conn io); [| destruct (received Conn io) as [[] |]] |];
    cbn [fst snd app In]; (split; [reflexivity |]); intros H;
    repeat match goal with
    | H : _ \/ _ |- _ => destruct H as [H | H]
    | H : False |- _ => destruct H
    end; discriminate.
Qed.


End WithConn.



End RelayProps.

Module SharedChannelProps.
Import Executor Host Scenario RelayProps.


(** C1 (failing input).  Two client tasks forward the requests [reqA] and
    [reqB] on the established channel.  Both hold the read lock at the same
    time, and in the schedule [overlapping] the task that sent [reqB]
    returns the response the enclave computed for [reqA], and the other
    way round. *)
Theorem C1_responses_cross (Conn : Type) (enclave : WASMRequest -> WASMResponse)
    (conn : Conn) (reqA reqB : WASMRequest) :
  let begin := start Conn conn [reqA; reqB] in
  option_map (fun s => (readers Conn s, clients Conn s))
    (run Conn enclave [Client 0; Client 1] begin)
  = Some (2%nat, [Holding reqA; Holding reqB]) /\
  option_map (fun s => (readers Conn s, clients Conn s))
    (run Conn enclave overlapping begin)
  = Some (0%nat, [Returned reqA (Ok (enclave reqB)); Returned reqB (Ok (enclave reqA))]).
Proof. split; vm_compute; reflexivity. Qed.

(** The same two requests without overlap: each task gets its own response. *)
Lemma serial_responses_match (Conn : Type) (enclave : WASMRequest -> WASMResponse)
    (conn : Conn) (reqA reqB : WASMRequest) :
  option_map (clients Conn)
    (run Conn enclave
       [Client 0; Client 0; Enclave; Client 0; Client 0;
        Client 1; Client 1; Enclave; Client 1; Client 1]
       (start Conn conn [reqA; reqB]))
  = Some [Returned reqA (Ok (enclave reqA)); Returned reqB (Ok (enclave reqB))].
Proof. vm_compute. reflexivity. Qed.

(** A decoder that takes both responses leaves the other task waiting with
    nothing to read. *)
Lemma read_ahead_starves (Conn : Type) (enclave : WASMRequest -> WASMResponse)
    (conn : Conn) (reqA reqB : WASMRequest) :
  option_map (fun s => (clients Conn s, downstream Conn s))
    (run Conn enclave starving (start Conn conn [reqA; reqB]))
  = Some ([Waiting reqA; Returned reqB (Ok (enclave reqA))], []).
Proof. vm_compute. reflexivity. Qed.

End SharedChannelProps.

(** * Further properties of the code *)

Module RoundTripFacts.
Import GoInt Strconv Decimal.
Import GoIntFacts StringFacts StrconvFacts FormatFacts ParseIntFacts.

Lemma decValue_app a : forall b n, decValue n (a ++ b) = decValue (decValue n a) b.
Proof.
  induction a as [| c a IH]; intros b n; [reflexivity |].
  rewrite app_cons. cbn [decValue]. apply IH.
Qed.

Lemma allDigits_app a b : allDigits (a ++ b) = allDigits a && allDigits b.
Proof.
  induction a as [| c a IH]; [reflexivity |].
  rewrite app_cons. cbn [allDigits]. now rewrite IH, andb_assoc.
Qed.

Lemma digitChar_digit d :
  0 <= d < 10 -> isDigit (digitChar d) = true /\ byteOf (digitChar d) - 48 = d.
Proof.
  intros H.
  assert (E : d = 0 \/ d = 1 \/ d = 2 \/ d = 3 \/ d = 4 \/ d = 5 \/ d = 6 \/ d = 7
              \/ d = 8 \/ d = 9) by lia.
  repeat destruct E as [-> | E]; try subst d; split; reflexivity.
Qed.

(** The digit loop accepts every digit string whose value fits. *)
Lemma parseUintLoop_complete ds : forall n maxVal,
  allDigits ds = true -> 0 <= n -> decValue n ds <= maxVal -> maxVal < 2 ^ 64 ->
  parseUintLoop 10 cutoff10 maxVal n ds = (decValue n ds, None).
Proof.
  induction ds as [| c r IH]; intros n maxVal Hall Hn Hfit Hmax;
    cbn [parseUintLoop decValue allDigits] in *; [reflexivity |].
  apply andb_true_iff in Hall as [Hc Hr].
  pose proof (isDigit_bounds c Hc) as Hd.
  rewrite (digitVal_of_digit c Hc).
  replace (10 <=? byteOf c - 48) with false by (symmetry; apply Z.leb_gt; lia).
  assert (Hn' : 0 <= n * 10 + (byteOf c - 48)) by lia.
  pose proof (decValue_lower r _ Hr Hn') as Hlow.
  assert (Hp : 1 <= 10 ^ Z.of_nat (String.length r))
    by (pose proof (Z.pow_pos_nonneg 10 (Z.of_nat (String.length r))); lia).
  assert (Hstep : n * 10 + (byteOf c - 48) <= maxVal) by nia.
  assert (Hcut : cutoff10 = 1844674407370955162) by reflexivity.
  change (2 ^ 64) with 18446744073709551616 in *.
  replace (cutoff10 <=? n) with false by (symmetry; apply Z.leb_gt; lia).
  rewrite uint64_small by (change (2 ^ 64) with 18446744073709551616; lia).
  replace (n * 10 + (byteOf c - 48) <? n * 10) with false
    by (symmetry; apply Z.ltb_ge; lia).
  replace (maxVal <? n * 10 + (byteOf c - 48)) with false
    by (symmetry; apply Z.ltb_ge; lia).
  cbn [orb]. apply IH; assumption.
Qed.

Lemma formatBits_step f u acc :
  formatBits (S f) u acc
  = if u <? 10 then String (digitChar (u mod 10)) acc
    else formatBits f (u / 10) (String (digitChar (u mod 10)) acc).
Proof. reflexivity. Qed.

(** With fuel left, formatBits puts a non-empty digit string that denotes
    the number in front of the accumulator. *)
Lemma formatBits_digits f : forall u acc,
  0 <= u < 10 ^ Z.of_nat (S f) ->
  exists ds,
    formatBits (S f) u acc = ds ++ acc /\ allDigits ds = true /\
    ds <> EmptyString /\
    forall n, decValue n ds = n * 10 ^ Z.of_nat (String.length ds) + u.
Proof.
  induction f as [| f IH]; intros u acc Hu.
  - change (10 ^ Z.of_nat 1) with 10 in Hu. rewrite formatBits_step.
    replace (u <? 10) with true by (symmetry; apply Z.ltb_lt; lia).
    rewrite Z.mod_small by lia.
    destruct (digitChar_digit u Hu) as [Hd Hv].
    exists (String (digitChar u) EmptyString). repeat split.
    + cbn [allDigits]. now rewrite Hd.
    + discriminate.
    + intros n. cbn [decValue String.length]. change (10 ^ Z.of_nat 1) with 10. lia.
  - rewrite formatBits_step. destruct (u <? 10) eqn:E.
    + apply Z.ltb_lt in E. rewrite Z.mod_small by lia.
      destruct (digitChar_digit u ltac:(lia)) as [Hd Hv].
      exists (String (digitChar u) EmptyString). repeat split.
      * cbn [allDigits]. now rewrite Hd.
      * discriminate.
      * intros n. cbn [decValue String.length]. change (10 ^ Z.of_nat 1) with 10. lia.
    + apply Z.ltb_ge in E.
      assert (Hq : 0 <= u / 10 < 10 ^ Z.of_nat (S f)).
      { rewrite (Nat2Z.inj_succ (S f)), Z.pow_succ_r in Hu by lia.
        split; [apply Z.div_pos; lia | apply Z.div_lt_upper_bound; lia]. }
      assert (Hm : 0 <= u mod 10 < 10) by (apply Z.mod_pos_bound; lia).
      destruct (digitChar_digit (u mod 10) Hm) as [Hd Hv].
      destruct (IH (u / 10) (String (digitChar (u mod 10)) acc) Hq)
        as (ds & Hf & Hall & Hne & Hval).
      exists (ds ++ String (digitChar (u mod 10)) EmptyString). repeat split.
      * rewrite Hf. now rewrite app_assoc, app_cons, app_empty_l.
      * rewrite allDigits_app, Hall. cbn [allDigits]. now rewrite Hd.
      * destruct ds; [congruence | discriminate].
      * intros n. rewrite decValue_app, Hval. cbn [decValue].
        rewrite length_app. cbn [String.length].
        rewrite Nat2Z.inj_add, Z.pow_add_r by lia.
        change (10 ^ Z.of_nat 1) with 10.
        pose proof (Z.div_mod u 10 ltac:(lia)). lia.
Qed.

Lemma FormatUint_digits u :
  0 <= u < 2 ^ 64 ->
  exists ds,
    FormatUint u = ds /\ allDigits ds = true /\ ds <> EmptyString /\
    decValue 0 ds = u.
Proof.
  intros Hu.
  destruct (formatBits_digits 19 u EmptyString) as (ds & Hf & Hall & Hne & Hval).
  { change (10 ^ Z.of_nat 20) with 100000000000000000000.
    change (2 ^ 64) with 18446744073709551616 in Hu. lia. }
  exists ds. rewrite app_empty_r in Hf. repeat split; try assumption.
  rewrite Hval. lia.
Qed.

(** Parsing what FormatInt printed gives the number back. *)
Lemma ParseInt_FormatInt bits n :
  bits = 32 \/ bits = 64 ->
  - 2 ^ (bits - 1) <= n < 2 ^ (bits - 1) ->
  ParseInt (FormatInt n) 10 bits = (n, None).
Proof.
  intros Hbits Hn.
  assert (Hpow : 2 ^ (bits - 1) <= 2 ^ 63 /\ 2 * 2 ^ (bits - 1) = 2 ^ bits /\
                 2 ^ bits <= 2 ^ 64)
    by (destruct Hbits as [-> | ->]; repeat split; vm_compute; congruence).
  destruct Hpow as (Hp1 & Hp2 & Hp3).
  assert (H64 : 2 ^ 64 = 2 * 2 ^ 63) by reflexivity.
  unfold FormatInt. destruct (n <? 0) eqn:E.
  - apply Z.ltb_lt in E.
    rewrite uint64_small by lia.
    destruct (FormatUint_digits (- n)) as (ds & -> & Hall & Hne & Hval); [lia |].
    unfold ParseInt. cbn [Ascii.eqb Bool.eqb orb].
    unfold ParseUint. destruct ds as [| c r]; [congruence |].
    change ((2 ^ 64 - 1) / 10 + 1) with cutoff10.
    rewrite parseUintLoop_complete; try assumption; try lia.
    rewrite Hval. cbn [negb andb].
    replace (2 ^ (bits - 1) <? - n) with false by (symmetry; apply Z.ltb_ge; lia).
    rewrite int64_neg_unsigned by lia. f_equal. lia.
  - apply Z.ltb_ge in E.
    rewrite uint64_small by lia.
    destruct (FormatUint_digits n) as (ds & -> & Hall & Hne & Hval); [lia |].
    destruct ds as [| c r]; [congruence |].
    assert (Hc : isDigit c = true)
      by (cbn [allDigits] in Hall; now apply andb_true_iff in Hall).
    unfold ParseInt.
    assert (Hm : Ascii.eqb c "-" = false).
    { destruct (Ascii.eqb c "-") eqn:Em; [| reflexivity].
      apply Ascii.eqb_eq in Em. subst c. discriminate Hc. }
    assert (Hpl : Ascii.eqb c "+" = false).
    { destruct (Ascii.eqb c "+") eqn:Em; [| reflexivity].
      apply Ascii.eqb_eq in Em. subst c. discriminate Hc. }
    rewrite Hm, Hpl. cbn [orb negb andb].
    unfold ParseUint. change ((2 ^ 64 - 1) / 10 + 1) with cutoff10.
    rewrite parseUintLoop_complete; try assumption; try lia.
    rewrite Hval.
    replace (2 ^ (bits - 1) <=? n) with false by (symmetry; apply Z.leb_gt; lia).
    rewrite int64_small by lia. reflexivity.
Qed.

End RoundTripFacts.

Module CoercionMore.
Import GoInt Strconv Decimal Executor.
Import GoIntFacts StringFacts StrconvFacts FormatFacts ParseIntFacts CoercionProps
  RoundTripFacts.

(** For the kinds i32 and i64 the literal prints an integer of the range
    of the kind. *)
Lemma integer_coercion_range
    (floatLiteral : string -> option string) (secret kind : string) (bits : Z) :
  (kind = "i32" /\ bits = 32) \/ (kind = "i64" /\ bits = 64) ->
  exists v,
    convertSecretToWASMValue floatLiteral secret kind = Ok (FormatInt v) /\
    - 2 ^ (bits - 1) <= v < 2 ^ (bits - 1).
Proof.
  intros Hk.
  assert (Hbits : bits = 32 \/ bits = 64)
    by (destruct Hk as [[_ ->] | [_ ->]]; [left | right]; reflexivity).
  destruct (ParseInt secret 10 bits) as [n [e |]] eqn:EP.
    - pose proof (simpleStringHash_range secret) as Hr.
      exists (simpleStringHash secret). split.
      + destruct Hk as [[-> ->] | [-> ->]].
        * apply (convert_i32_fallback floatLiteral secret e). now rewrite EP.
        * rewrite (convert_i64_fallback floatLiteral secret e) by now rewrite EP.
          rewrite int64_small; [reflexivity | lia].
      + destruct Hbits as [-> | ->];
          [change (2 ^ (32 - 1)) with (2 ^ 31)
          | change (2 ^ (64 - 1)) with (2 ^ 63)]; lia.
    - exists n. split.
      + unfold convertSecretToWASMValue.
        destruct Hk as [[-> ->] | [-> ->]]; cbn [String.eqb Ascii.eqb Bool.eqb];
          rewrite EP; reflexivity.
      + destruct (ParseInt_decimal secret bits n Hbits EP) as (body & _ & _ & Hcase).
        assert (0 < 2 ^ (bits - 1)) by (destruct Hbits as [-> | ->]; reflexivity).
        destruct Hcase as [(_ & _ & Hr) | (_ & _ & Hr)]; lia.
Qed.

(** X1.  For the kinds i32 and i64 coercion never fails, whatever the secret:
    the literal is the decimal rendering of an integer within the range of
    the kind, and parsing the literal at that size gives the integer
    back. *)
Theorem integer_coercion_yields_valid_literal
    (floatLiteral : string -> option string) (secret kind : string) (bits : Z) :
  (kind = "i32" /\ bits = 32) \/ (kind = "i64" /\ bits = 64) ->
  exists v,
    convertSecretToWASMValue floatLiteral secret kind = Ok (FormatInt v) /\
    - 2 ^ (bits - 1) <= v < 2 ^ (bits - 1) /\
    ParseInt (FormatInt v) 10 bits = (v, None).
Proof.
  intros Hk.
  destruct (integer_coercion_range floatLiteral secret kind bits Hk) as (v & Hc & Hr).
  exists v. split; [exact Hc |]. split; [exact Hr |].
  apply ParseInt_FormatInt; [| exact Hr].
  destruct Hk as [[_ ->] | [_ ->]]; [left | right]; reflexivity.
Qed.

Lemma integer_coercion_yields_valid_literal_witness :
  exists v,
    convertSecretToWASMValue (fun _ => None) "sk-abc123def456" "i32" = Ok (FormatInt v) /\
    - 2 ^ (32 - 1) <= v < 2 ^ (32 - 1) /\
    ParseInt (FormatInt v) 10 32 = (v, None).
Proof.
  apply (integer_coercion_yields_valid_literal (fun _ => None) "sk-abc123def456" "i32" 32).
  left. split; reflexivity.
Defined.

(** X2.  Coercing a literal that coercion produced for the kind i32 or i64
    gives the same literal again. *)
Theorem integer_coercion_idempotent
    (floatLiteral : string -> option string) (secret kind literal : string) (bits : Z) :
  (kind = "i32" /\ bits = 32) \/ (kind = "i64" /\ bits = 64) ->
  convertSecretToWASMValue floatLiteral secret kind = Ok literal ->
  convertSecretToWASMValue floatLiteral literal kind = Ok literal.
Proof.
  intros Hk Hc.
  destruct (integer_coercion_range floatLiteral secret kind bits Hk) as (v & Hv & Hr).
  assert (Hp : ParseInt (FormatInt v) 10 bits = (v, None)).
  { apply ParseInt_FormatInt; [| exact Hr].
    destruct Hk as [[_ ->] | [_ ->]]; [left | right]; reflexivity. }
  rewrite Hv in Hc. injection Hc as <-.
  unfold convertSecretToWASMValue.
  destruct Hk as [[-> ->] | [-> ->]]; cbn [String.eqb Ascii.eqb Bool.eqb];
    rewrite Hp; reflexivity.
Qed.

Lemma integer_coercion_idempotent_witness :
  convertSecretToWASMValue (fun _ => None) "99162322" "i64" = Ok "99162322".
Proof.
  apply (integer_coercion_idempotent (fun _ => None) "hello" "i64" "99162322" 64).
  - right. split; reflexivity.
  - vm_compute. reflexivity.
Defined.

End CoercionMore.

Module InputProps.
Import Strings Executor Encoding Text.
Import StringFacts SearchFacts RegexpFacts DecodeProps BinaryInputProps.

Lemma Contains_occurs s sub : Contains s sub = true <-> occurs sub s.
Proof.
  unfold Contains, occurs. split.
  - destruct (Index s sub) as [j |] eqn:E; [| discriminate]. intros _.
    exists (takeS j s), (dropS (j + String.length sub) s).
    apply Index_sound. exact E.
  - intros (a & b & ->). pose proof (Index_complete a sub b) as H.
    destruct (Index _ sub); [reflexivity | congruence].
Qed.

(** X3.  Input counts as WAT text exactly when its first byte is an opening
    parenthesis and the word module or the word func occurs in it.  The
    empty input and text that starts with white space or a comment are
    not WAT text. *)
Theorem isWATText_iff (input : string) :
  isWATText input = true <->
  (exists r, input = String "(" r) /\ (occurs "module" input \/ occurs "func" input).
Proof.
  unfold isWATText. destruct input as [| c r].
  - split; [discriminate | intros [(r & H) _]; discriminate].
  - rewrite andb_true_iff, orb_true_iff, !Contains_occurs. split.
    + intros [Hc Ho]. apply Ascii.eqb_eq in Hc. subst c. split; [eauto | exact Ho].
    + intros [(r' & H) Ho]. split; [| exact Ho].
      apply Ascii.eqb_eq. congruence.
Qed.

Lemma removeChar_app c a : forall b,
  removeChar c (a ++ b) = removeChar c a ++ removeChar c b.
Proof.
  induction a as [| x a IH]; intros b; [reflexivity |].
  rewrite app_cons. cbn [removeChar]. rewrite IH.
  destruct (Ascii.eqb c x); [reflexivity | now rewrite app_cons].
Qed.

Lemma cleaned_app a b : cleaned (a ++ b) = cleaned a ++ cleaned b.
Proof. unfold cleaned. now rewrite !removeChar_app. Qed.

Lemma cleaned_blank w : onlyBlank w = true -> cleaned w = EmptyString.
Proof.
  induction w as [| c w IH]; [reflexivity |].
  cbn [onlyBlank]. intros H. apply andb_true_iff in H as [Hc Hw].
  change (String c w) with (String c EmptyString ++ w).
  rewrite cleaned_app, (IH Hw), app_empty_r.
  apply orb_true_iff in Hc as [Hc | Hc]; [apply orb_true_iff in Hc as [Hc | Hc] |];
    apply Ascii.eqb_eq in Hc; subst c; reflexivity.
Qed.

(** X4.  Spaces, newlines and tabs anywhere in an encoded module do not change
    what it decodes to, whatever the base64 decoder does. *)
Theorem decoding_ignores_blanks (base64Std : string -> outcome string) (a w b : string) :
  onlyBlank w = true ->
  base64DecodeWASM base64Std (a ++ w ++ b) = base64DecodeWASM base64Std (a ++ b).
Proof.
  intros Hw. rewrite !base64DecodeWASM_spec.
  now rewrite !cleaned_app, (cleaned_blank w Hw), app_empty_l.
Qed.

Lemma decoding_ignores_blanks_witness :
  base64DecodeWASM stdDecode ("aGVs" ++ String (ascii_of_nat 10) (String (ascii_of_nat 9) " ") ++ "bG8=")
  = base64DecodeWASM stdDecode ("aGVs" ++ "bG8=").
Proof.
  apply (decoding_ignores_blanks stdDecode "aGVs"
           (String (ascii_of_nat 10) (String (ascii_of_nat 9) " ")) "bG8=").
  reflexivity.
Defined.

End InputProps.

Module HexProps.
Import GoInt Strings Executor Encoding Text.
Import StringFacts DecodeProps BinaryInputProps InputProps.

Lemma hexEncode_byte c :
  hexBytes (hexEncode (String c EmptyString)) = Some (String c EmptyString) /\
  cleaned (hexEncode (String c EmptyString)) = hexEncode (String c EmptyString).
Proof. destruct c as [[] [] [] [] [] [] [] []]; split; vm_compute; reflexivity. Qed.

Lemma hexBytes_cons a b r :
  hexBytes (String a (String b r))
  = match hexBytes (String a (String b EmptyString)), hexBytes r with
    | Some (String x _), Some tl => Some (String x tl)
    | _, _ => None
    end.
Proof.
  cbn [hexBytes]. destruct (hexVal a), (hexVal b), (hexBytes r); reflexivity.
Qed.

Lemma hexEncode_decodes bytes :
  hexBytes (hexEncode bytes) = Some bytes /\
  cleaned (hexEncode bytes) = hexEncode bytes /\
  String.length (hexEncode bytes) = (2 * String.length bytes)%nat.
Proof.
  induction bytes as [| c r (IH1 & IH2 & IH3)]; [repeat split |].
  destruct (hexEncode_byte c) as [Hb Hc].
  cbn [hexEncode] in *. split; [| split].
  - rewrite hexBytes_cons, Hb, IH1. reflexivity.
  - change (String (hexDigit (byteOf c / 16))
              (String (hexDigit (byteOf c mod 16)) (hexEncode r)))
      with (String (hexDigit (byteOf c / 16))
              (String (hexDigit (byteOf c mod 16)) EmptyString) ++ hexEncode r).
    now rewrite cleaned_app, Hc, IH2.
  - cbn [String.length]. rewrite IH3. lia.
Qed.

(** X5.  Hex text is the fallback of base64: the two-digit hex rendering of any
    bytes decodes to those bytes whenever the base64 decoder rejects the
    text. *)
Theorem hex_text_decodes_to_its_bytes (base64Std : string -> outcome string)
    (bytes err : string) :
  base64Std (hexEncode bytes) = Err err ->
  base64DecodeWASM base64Std (hexEncode bytes) = Ok bytes.
Proof.
  intros Hb. destruct (hexEncode_decodes bytes) as (Hh & Hc & Hl).
  rewrite base64DecodeWASM_spec, Hc, Hb, Hh, Hl.
  replace (Nat.even (2 * String.length bytes)) with true; [reflexivity |].
  symmetry. apply Nat.even_spec. now exists (String.length bytes).
Qed.

Lemma hex_text_decodes_to_its_bytes_witness :
  base64DecodeWASM stdDecode (hexEncode "asm") = Ok "asm".
Proof.
  apply (hex_text_decodes_to_its_bytes stdDecode "asm" "illegal base64 data").
  vm_compute. reflexivity.
Defined.

End HexProps.

Module HashProps.
Import GoInt Strconv Executor GoIntFacts CoercionProps.

(** X6.  The hash of a secret is a non-negative 31-bit number or the smallest
    32-bit integer, the one accumulator whose negation wraps to itself: no
    other negative value is ever produced. *)
Theorem hash_nonnegative_or_min (s : string) :
  0 <= simpleStringHash s < 2 ^ 31 \/ simpleStringHash s = - 2 ^ 31.
Proof.
  pose proof (simpleStringHash_range s) as Hr.
  destruct (simpleStringHash_sign s) as [Hs | Hs]; [left; lia | right; exact Hs].
Qed.

End HashProps.

Module InlineProps.
Import GoInt Strings Executor Text Client.
Import StringFacts SearchFacts InputProps.

Lemma asciiSpace_ascii c : asciiSpace c = true -> (RuneSelf <=? byteOf c) = false.
Proof.
  unfold asciiSpace, RuneSelf. intros H. apply Z.leb_gt.
  repeat (apply orb_prop in H; destruct H as [H | H]); apply Z.eqb_eq in H; lia.
Qed.

Lemma onlySpace_ascii7 w : onlySpace w = true -> ascii7 w = true.
Proof.
  induction w as [| c w IH]; [reflexivity |]. cbn [onlySpace ascii7].
  intros [Hc Hw]%andb_prop. rewrite (IH Hw), andb_true_r.
  apply asciiSpace_ascii in Hc. apply Z.leb_gt in Hc. now apply Z.ltb_lt.
Qed.

Lemma ascii7_app a b : ascii7 (a ++ b) = ascii7 a && ascii7 b.
Proof.
  induction a as [| c a IH]; [reflexivity |].
  rewrite app_cons. cbn [ascii7]. now rewrite IH, andb_assoc.
Qed.

Lemma trimStart_space w t : onlySpace w = true -> trimStart (w ++ t) = trimStart t.
Proof.
  induction w as [| c w IH]; [reflexivity |]. cbn [onlySpace].
  intros [Hc Hw]%andb_prop. rewrite app_cons. cbn [trimStart].
  now rewrite (asciiSpace_ascii c Hc), Hc, IH.
Qed.

(** On ASCII text the first loop splits off the leading spaces. *)
Lemma trimStart_ascii s :
  ascii7 s = true ->
  exists w t, s = w ++ t /\ onlySpace w = true /\ trimStart s = inr t /\
    match t with EmptyString => True | String c _ => asciiSpace c = false end.
Proof.
  induction s as [| c s IH]; intros H.
  - exists EmptyString, EmptyString. repeat split.
  - cbn [ascii7] in H. apply andb_prop in H as [Hc Hs]. cbn [trimStart].
    apply Z.ltb_lt in Hc. apply Z.leb_gt in Hc. rewrite Hc.
    destruct (asciiSpace c) eqn:E.
    + destruct (IH Hs) as (w & t & -> & Hw & Ht & Hf).
      exists (String c w), t. rewrite app_cons. cbn [onlySpace]. rewrite E, Hw.
      repeat split; assumption.
    + exists EmptyString, (String c s). repeat split. exact E.
Qed.

Lemma get_ascii7 s : forall i c,
  ascii7 s = true -> String.get i s = Some c -> (RuneSelf <=? byteOf c) = false.
Proof.
  induction s as [| a s IH]; intros i c H G; [destruct i; discriminate |].
  cbn [ascii7] in H. apply andb_prop in H as [Ha Hs].
  destruct i as [| i]; cbn [String.get] in G.
  - injection G as <-. apply Z.ltb_lt in Ha. now apply Z.leb_gt.
  - exact (IH i c Hs G).
Qed.

(** On ASCII text the second loop cuts at some offset, and only spaces
    lie between the cut and the end. *)
Lemma trimStop_ascii TrimRightFunc t :
  ascii7 t = true ->
  forall stop, exists k,
    (k <= stop)%nat /\ trimStop TrimRightFunc t stop = takeS k t /\
    forall i c, (k <= i < stop)%nat -> String.get i t = Some c -> asciiSpace c = true.
Proof.
  intros H. induction stop as [| stop IH].
  - exists O. repeat split; [lia | intros; lia].
  - cbn [trimStop]. destruct (String.get stop t) as [c |] eqn:G.
    + rewrite (get_ascii7 t stop c H G). destruct (asciiSpace c) eqn:E.
      * destruct IH as (k & Hk & -> & Hsp). exists k. repeat split; [lia |].
        intros i c' Hi Gi. destruct (Nat.eq_dec i stop) as [-> | Hne].
        -- rewrite G in Gi. injection Gi as <-. exact E.
        -- apply (Hsp i c'); [lia | exact Gi].
      * exists (S stop). repeat split; [lia | intros; lia].
    + exists (S stop). repeat split; [lia | intros; lia].
Qed.

Lemma HasPrefix_takeS p : forall k t,
  HasPrefix (takeS k t) p = true -> HasPrefix t p = true.
Proof.
  induction p as [| a p IH]; intros k t H; [destruct t; reflexivity |].
  destruct k as [| k], t as [| b t]; cbn [takeS HasPrefix] in *; try discriminate.
  apply andb_prop in H as [-> H]. exact (IH k t H).
Qed.

Lemma HasPrefix_takeS_long p : forall k t,
  (String.length p <= k)%nat -> HasPrefix t p = true -> HasPrefix (takeS k t) p = true.
Proof.
  induction p as [| a p IH]; intros k t Hk H.
  - destruct (takeS k t); reflexivity.
  - cbn [String.length] in Hk. destruct k as [| k]; [lia |].
    destruct t as [| b t]; cbn [takeS HasPrefix] in *; [discriminate |].
    apply andb_prop in H as [-> H]. apply IH; [lia | exact H].
Qed.

Section WithTrim.
Variable TrimFunc TrimRightFunc : string -> string.

(** On ASCII text the client takes its first argument for inline WAT
    exactly when the argument is spaces followed by an opening parenthesis
    and the word module. *)
Lemma isInlineWAT_shape input :
  ascii7 input = true ->
  isInlineWAT TrimFunc TrimRightFunc input = true <->
  exists w rest, onlySpace w = true /\ input = w ++ "(module" ++ rest.
Proof.
  intros H. unfold isInlineWAT, TrimSpace. split.
  - destruct (trimStart_ascii input H) as (w & t & -> & Hw & -> & _).
    rewrite ascii7_app in H. apply andb_prop in H as [_ Ht].
    destruct (trimStop_ascii TrimRightFunc t Ht (String.length t)) as (k & _ & -> & _).
    intros Hp. apply HasPrefix_takeS, HasPrefix_split in Hp.
    exists w, (dropS (String.length "(module") t). split; [exact Hw |]. now rewrite <- Hp.
  - intros (w & rest & Hw & ->). rewrite (trimStart_space w _ Hw).
    rewrite ascii7_app in H. apply andb_prop in H as [_ Ht].
    change (trimStart ("(module" ++ rest)) with (@inr string string ("(module" ++ rest)).
    destruct (trimStop_ascii TrimRightFunc _ Ht (String.length ("(module" ++ rest)))
      as (k & Hk & -> & Hsp).
    apply HasPrefix_takeS_long; [| apply HasPrefix_app].
    destruct (le_lt_dec 7 k) as [Hle | Hlt]; [exact Hle | exfalso].
    assert (Hlen : (6 < String.length ("(module" ++ rest))%nat)
      by (rewrite length_app; cbn [String.length]; lia).
    specialize (Hsp 6%nat "e"%char ltac:(lia) eq_refl). discriminate Hsp.
Qed.

End WithTrim.

(** X7.  On ASCII text, the client takes its first argument for inline WAT
    exactly when the argument is ASCII spaces followed by an opening
    parenthesis and the word module; nothing is asked of what follows. *)
Theorem inline_wat_accepted_iff (TrimFunc TrimRightFunc : string -> string)
    (input : string) :
  ascii7 input = true ->
  isInlineWAT TrimFunc TrimRightFunc input = true <->
  exists w rest, onlySpace w = true /\ input = w ++ "(module" ++ rest.
Proof. apply isInlineWAT_shape. Qed.

Lemma inline_wat_accepted_iff_witness :
  isInlineWAT (fun s => s) (fun s => s)
    (String (ascii_of_nat 10) "  (module (func))  ") = true <->
  exists w rest, onlySpace w = true /\
    String (ascii_of_nat 10) "  (module (func))  " = w ++ "(module" ++ rest.
Proof.
  apply (inline_wat_accepted_iff (fun s => s) (fun s => s)
           (String (ascii_of_nat 10) "  (module (func))  ")).
  vm_compute. reflexivity.
Defined.

(** X8.  Inline WAT is sent as it was given, leading spaces included, and the
    executor takes it for WAT text only when there are none: with leading
    spaces the text that the client accepted as inline WAT is handled by
    the executor as an encoded binary module. *)
Theorem inline_wat_sent_untrimmed (TrimFunc TrimRightFunc : string -> string)
    (readFile : string -> outcome string) (w rest : string) :
  onlySpace w = true -> ascii7 rest = true ->
  chooseCode TrimFunc TrimRightFunc readFile (w ++ "(module" ++ rest)
  = Ok (w ++ "(module" ++ rest) /\
  isWATText (w ++ "(module" ++ rest)
  = match w with EmptyString => true | String _ _ => false end.
Proof.
  intros Hw Hr. split.
  - unfold chooseCode.
    assert (H7 : ascii7 (w ++ "(module" ++ rest) = true).
    { rewrite !ascii7_app, (onlySpace_ascii7 w Hw), Hr. reflexivity. }
    destruct (isInlineWAT_shape TrimFunc TrimRightFunc _ H7) as [_ Hb].
    rewrite Hb; [reflexivity |]. now exists w, rest.
  - destruct w as [| c w].
    + rewrite app_empty_l. change ("(module" ++ rest) with (String "(" ("module" ++ rest)).
      cbn [isWATText]. change (String "(" ("module" ++ rest)) with ("(" ++ "module" ++ rest).
      assert (Hc : Contains ("(" ++ "module" ++ rest) "module" = true)
        by (apply Contains_occurs; now exists "(", rest).
      rewrite Hc. reflexivity.
    + rewrite app_cons. cbn [isWATText]. cbn [onlySpace] in Hw.
      apply andb_prop in Hw as [Hc _].
      destruct (Ascii.eqb c "(") eqn:E; [| reflexivity].
      apply Ascii.eqb_eq in E. subst c. discriminate Hc.
Qed.

Lemma inline_wat_sent_untrimmed_witness :
  chooseCode (fun s => s) (fun s => s) (fun _ => Err "no such file")
    (" " ++ "(module" ++ " (func))")
  = Ok (" " ++ "(module" ++ " (func))") /\
  isWATText (" " ++ "(module" ++ " (func))") = false.
Proof.
  apply (inline_wat_sent_untrimmed (fun s => s) (fun s => s)
           (fun _ => Err "no such file") " " " (func))");
    vm_compute; reflexivity.
Defined.

End InlineProps.

Module InjectionProps.
Import Strings Regexp Executor Template Text.
Import StringFacts SearchFacts RegexpFacts TemplateProps.

Lemma numType_kind s t r : numType s = Some (t, r) -> numericKind t.
Proof.
  unfold numType, numericKind. intros H.
  destruct (String.eqb (takeS 3 s) "i32") eqn:E1;
    [apply String.eqb_eq in E1; cbn [orb] in H; left; congruence |].
  destruct (String.eqb (takeS 3 s) "i64") eqn:E2;
    [apply String.eqb_eq in E2; cbn [orb] in H; right; left; congruence |].
  destruct (String.eqb (takeS 3 s) "f32") eqn:E3;
    [apply String.eqb_eq in E3; cbn [orb] in H; right; right; left; congruence |].
  destruct (String.eqb (takeS 3 s) "f64") eqn:E4; [| discriminate].
  apply String.eqb_eq in E4. cbn [orb] in H. right. right. right. congruence.
Qed.

Lemma matchAt_kind s m rest : matchAt s = Some (m, rest) -> numericKind (wasmType m).
Proof.
  intros H. unfold matchAt in H. bind_inv H.
  injection H as <- <-. cbn [wasmType].
  match goal with E : numType _ = Some _ |- _ => exact (numType_kind _ _ _ E) end.
Qed.

Lemma scan_kinds s : forall skip gap ps tl,
  scan s skip gap = (ps, tl) -> Forall (fun p => numericKind (wasmType (snd p))) ps.
Proof.
  induction s as [| c r IH]; intros skip gap ps tl H; cbn [scan] in H.
  - injection H as <- <-. constructor.
  - destruct skip as [| k]; [| eapply IH; exact H].
    destruct (matchAt (String c r)) as [[m rest] |] eqn:EM; [| eapply IH; exact H].
    destruct (scan r (String.length (fullImport m) - 1) EmptyString) as [ps' tl'] eqn:ES.
    injection H as <- <-. constructor; [| eapply IH; exact ES].
    cbn [snd]. eapply matchAt_kind. exact EM.
Qed.

(** Every match carries one of the four numeric kinds. *)
Lemma FindAll_kinds src m :
  In m (FindAllStringSubmatch src) -> numericKind (wasmType m).
Proof.
  unfold FindAllStringSubmatch, pieces.
  destruct (scan src 0 EmptyString) as [ps tl] eqn:E. cbn [fst].
  intros Hin. apply in_map_iff in Hin as (p & <- & Hp).
  pose proof (scan_kinds _ _ _ _ _ E) as HF.
  exact (proj1 (List.Forall_forall _ _) HF p Hp).
Qed.

Section Failure.
Variable floatLiteral : string -> option string.

(** Coercion to a numeric kind fails for a float kind whose secret does
    not parse, and in no other case. *)
Lemma convert_numeric_error secretValue k e :
  numericKind k ->
  convertSecretToWASMValue floatLiteral secretValue k = Err e ->
  floatKind k /\ floatLiteral secretValue = None /\
  e = "cannot convert string secret to float type " ++ k.
Proof.
  unfold convertSecretToWASMValue, floatKind.
  intros [-> | [-> | [-> | ->]]]; cbn [String.eqb Ascii.eqb Bool.eqb orb].
  - destruct (Strconv.ParseInt secretValue 10 32) as [v [x |]]; discriminate.
  - destruct (Strconv.ParseInt secretValue 10 64) as [v [x |]]; discriminate.
  - destruct (floatLiteral secretValue); [discriminate |].
    intros [= <-]. repeat split. now left.
  - destruct (floatLiteral secretValue); [discriminate |].
    intros [= <-]. repeat split. now right.
Qed.

Lemma injectLoop_error secrets ms : forall text e,
  Forall (fun m => numericKind (wasmType m)) ms ->
  injectLoop floatLiteral secrets ms text = Err e ->
  exists m secretValue,
    In m ms /\ secrets !! secretName m = Some secretValue /\
    floatKind (wasmType m) /\ floatLiteral secretValue = None /\
    e = "failed to convert secret " ++ secretName m
        ++ ": cannot convert string secret to float type " ++ wasmType m.
Proof.
  induction ms as [| m ms IH]; intros text e HF H; [discriminate |].
  apply Forall_cons_iff in HF as [Hk HF]. cbn [injectLoop] in H.
  assert (Hrest : forall text',
    injectLoop floatLiteral secrets ms text' = Err e ->
    exists m0 secretValue,
      In m0 (m :: ms) /\ secrets !! secretName m0 = Some secretValue /\
      floatKind (wasmType m0) /\ floatLiteral secretValue = None /\
      e = "failed to convert secret " ++ secretName m0
          ++ ": cannot convert string secret to float type " ++ wasmType m0).
  { intros text' H'. destruct (IH text' e HF H') as (m0 & v & Hin & Hrest).
    exists m0, v. split; [now right | exact Hrest]. }
  destruct (secrets !! secretName m) as [secretValue |] eqn:Es;
    [| eapply Hrest; exact H].
  destruct (convertSecretToWASMValue floatLiteral secretValue (wasmType m))
    as [wasmValue | e'] eqn:Ec; [eapply Hrest; exact H |].
  injection H as <-.
  destruct (convert_numeric_error _ _ _ Hk Ec) as (Hf & Hn & ->).
  exists m, secretValue. split; [now left |]. repeat split; assumption.
Qed.

End Failure.

(** X9.  Injection fails only because of a float declaration: some declaration
    of kind f32 or f64 has a secret that does not parse as a float, and the
    error names that secret.  When every float declaration that has a
    secret parses, injection succeeds; declarations of kind i32 and i64
    never make it fail. *)
Theorem inject_fails_only_on_float
    (floatLiteral : string -> option string) (src : string)
    (secrets : gmap string string) :
  (forall e,
     injectSecretsIntoWAT floatLiteral src secrets = Err e ->
     exists m secretValue,
       In m (FindAllStringSubmatch src) /\
       secrets !! secretName m = Some secretValue /\
       floatKind (wasmType m) /\ floatLiteral secretValue = None /\
       e = "failed to convert secret " ++ secretName m
           ++ ": cannot convert string secret to float type " ++ wasmType m) /\
  ((forall m secretValue,
      In m (FindAllStringSubmatch src) ->
      secrets !! secretName m = Some secretValue ->
      floatKind (wasmType m) -> floatLiteral secretValue <> None) ->
   exists out, injectSecretsIntoWAT floatLiteral src secrets = Ok out).
Proof.
  assert (Herr : forall e,
    injectSecretsIntoWAT floatLiteral src secrets = Err e ->
    exists m secretValue,
      In m (FindAllStringSubmatch src) /\
      secrets !! secretName m = Some secretValue /\
      floatKind (wasmType m) /\ floatLiteral secretValue = None /\
      e = "failed to convert secret " ++ secretName m
          ++ ": cannot convert string secret to float type " ++ wasmType m).
  { intros e H. apply (injectLoop_error floatLiteral secrets _ src e); [| exact H].
    apply List.Forall_forall. intros m Hm. now apply (FindAll_kinds src). }
  split; [exact Herr |].
  intros Hall. destruct (injectSecretsIntoWAT floatLiteral src secrets) as [out | e] eqn:E.
  - now exists out.
  - exfalso. destruct (Herr e eq_refl) as (m & v & Hin & Hs & Hf & Hn & _).
    now apply (Hall m v Hin Hs Hf).
Qed.

End InjectionProps.

Module CompileProps.
Import Strings Executor.

(** X10.  The compile bridge removes the source file on every path on which it
    was written, as its last system call, and removes the output file
    exactly when the compiler reported success, before the source file:
    after a failed compiler run the output path is left alone.  When the
    write fails nothing else is attempted. *)
Theorem compile_cleanup (env : CompileEnv) (watCode : string) :
  let calls := snd (compileWATToWASM env watCode) in
  let compilerOk := snd (runWat2wasm env [watFile; "-o"; wasmFile]) = None in
  (writeErr env watFile watCode = None -> last calls = Some (Remove watFile)) /\
  (writeErr env watFile watCode <> None -> calls = [WriteFile watFile watCode]) /\
  (In (Remove wasmFile) calls <-> writeErr env watFile watCode = None /\ compilerOk) /\
  (In (Remove wasmFile) calls ->
   exists before, calls = (before ++ [Remove wasmFile; Remove watFile])%list).
Proof.
  cbv zeta. unfold compileWATToWASM.
  destruct (writeErr env watFile watCode) as [e |].
  - cbn [snd]. split; [discriminate |]. split; [reflexivity |]. split.
    + split; [| intros [H _]; discriminate].
      intros [H | []]. discriminate.
    + intros [H | []]. discriminate.
  - destruct (runWat2wasm env [watFile; "-o"; wasmFile]) as [output [e |]].
    + cbn [snd]. split; [reflexivity |]. split; [congruence |]. split.
      * split; [| intros [_ H]; discriminate].
        intros [H | [H | [H | []]]]; discriminate.
      * intros [H | [H | [H | []]]]; discriminate.
    + cbn [snd].
      assert (Hin : In (Remove wasmFile)
                [WriteFile watFile watCode; Run "wat2wasm" [watFile; "-o"; wasmFile];
                 ReadFile wasmFile; Remove wasmFile; Remove watFile])
        by (right; right; right; left; reflexivity).
      destruct (readBack env wasmFile); cbn [snd];
        (split; [reflexivity |]); (split; [congruence |]);
        (split; [split; [intros _; split; reflexivity | intros _; exact Hin] |]);
        intros _;
        exists [WriteFile watFile watCode; Run "wat2wasm" [watFile; "-o"; wasmFile];
                ReadFile wasmFile]; reflexivity.
Qed.

(** X11.  The compile bridge returns bytes exactly when the write, the compiler
    and the read all succeed, and the bytes are those read back from the
    output path; a compiler failure is reported with the compiler's
    combined output. *)
Theorem compile_outcome (env : CompileEnv) (watCode bytes : string) :
  (fst (compileWATToWASM env watCode) = Ok bytes <->
   writeErr env watFile watCode = None /\
   snd (runWat2wasm env [watFile; "-o"; wasmFile]) = None /\
   readBack env wasmFile = Ok bytes) /\
  (forall output e,
     writeErr env watFile watCode = None ->
     runWat2wasm env [watFile; "-o"; wasmFile] = (output, Some e) ->
     fst (compileWATToWASM env watCode)
     = Err ("wat2wasm compilation failed: " ++ e ++ ", output: " ++ output)).
Proof.
  unfold compileWATToWASM. split.
  - destruct (writeErr env watFile watCode) as [e |].
    { cbn [fst]. split; [discriminate | intros [H _]; discriminate]. }
    destruct (runWat2wasm env [watFile; "-o"; wasmFile]) as [output [e |]].
    { cbn [fst snd]. split; [discriminate | intros (_ & H & _); discriminate]. }
    cbn [snd]. destruct (readBack env wasmFile) as [b | e]; cbn [fst].
    + split; [intros [= ->]; repeat split | intros (_ & _ & H); exact H].
    + split; [discriminate | intros (_ & _ & H); discriminate].
  - intros output e Hw Hr. rewrite Hw, Hr. reflexivity.
Qed.

End CompileProps.

Module PipelineProps.
Import Strings Regexp Executor Encoding Template.
Import TemplateProps.

(** X12.  Secrets that no declaration of the template names do not change the
    outcome of a request: it is the outcome of the same request without
    secrets. *)
Theorem unreferenced_secrets_change_nothing
    (floatLiteral : string -> option string) (base64Std : string -> outcome string)
    (Module_ Instance Extern Func : Type)
    (NewModule : string -> outcome Module_) (NewInstance : Module_ -> completion (outcome Instance))
    (GetExport : Instance -> string -> option Extern)
    (ExternFunc : Extern -> option Func) (Call : Func -> list Z -> completion (outcome Val))
    (env : CompileEnv) (wasmCode functionName : string) (args : list Z)
    (secrets : gmap string string) :
  (forall m, In m (FindAllStringSubmatch wasmCode) -> secrets !! secretName m = None) ->
  ExecuteWASM floatLiteral base64Std Module_ Instance Extern Func NewModule
    NewInstance GetExport ExternFunc Call env wasmCode functionName args secrets
  = ExecuteWASM floatLiteral base64Std Module_ Instance Extern Func NewModule
      NewInstance GetExport ExternFunc Call env wasmCode functionName args ∅.
Proof.
  intros H. unfold ExecuteWASM.
  destruct (isWATText wasmCode); [| reflexivity].
  assert (Hinj : injectSecretsIntoWAT floatLiteral wasmCode secrets = Ok wasmCode)
    by (now apply injectLoop_unreferenced).
  rewrite Hinj.
  replace (bool_decide ((∅ : gmap string string) = ∅)) with true
    by (symmetry; now apply bool_decide_eq_true).
  destruct (bool_decide (secrets = ∅)); reflexivity.
Qed.

Lemma unreferenced_secrets_change_nothing_witness :
  ExecuteWASM (fun _ => None) stdDecode unit unit unit unit
    (fun _ => Ok tt) (fun _ => Returns (Ok tt)) (fun _ _ => Some tt) (fun _ => Some tt)
    (fun _ _ => Returns (Ok (VI32 49)))
    Bench.quietEnv
    Samples.mixedSource "square" [7] {[ "UNUSED" := "1" ]}
  = ExecuteWASM (fun _ => None) stdDecode unit unit unit unit
      (fun _ => Ok tt) (fun _ => Returns (Ok tt)) (fun _ _ => Some tt) (fun _ => Some tt)
      (fun _ _ => Returns (Ok (VI32 49)))
      Bench.quietEnv
      Samples.mixedSource "square" [7] ∅.
Proof.
  apply unreferenced_secrets_change_nothing.
  assert (HF : Forall
    (fun m => ({[ "UNUSED" := "1" ]} : gmap string string) !! secretName m = None)
    (FindAllStringSubmatch Samples.mixedSource)).
  { replace (FindAllStringSubmatch Samples.mixedSource)
      with [Samples.importK; Samples.importL] by (vm_compute; reflexivity).
    repeat constructor. }
  intros m Hm. exact (proj1 (List.Forall_forall _ _) HF m Hm).
Defined.

(** X13.  A result without error is the i32 value that the requested export, a
    function, returned when called with the arguments of the request, on
    an instance of the module that was built from the code of the request:
    compiled from the processed text for WAT input, decoded for binary
    input. *)
Theorem success_is_the_call_result
    (floatLiteral : string -> option string) (base64Std : string -> outcome string)
    (Module_ Instance Extern Func : Type)
    (NewModule : string -> outcome Module_) (NewInstance : Module_ -> completion (outcome Instance))
    (GetExport : Instance -> string -> option Extern)
    (ExternFunc : Extern -> option Func) (Call : Func -> list Z -> completion (outcome Val))
    (env : CompileEnv) (wasmCode functionName : string) (args : list Z)
    (secrets : gmap string string) (v : Z) :
  ExecuteWASM floatLiteral base64Std Module_ Instance Extern Func NewModule
    NewInstance GetExport ExternFunc Call env wasmCode functionName args secrets
  = Returns (v, None) ->
  exists wasmBytes module instance exportedFunc wasmFunc,
    ((isWATText wasmCode = true /\
      exists processedWAT,
        (if bool_decide (secrets = ∅) then Ok wasmCode
         else injectSecretsIntoWAT floatLiteral wasmCode secrets) = Ok processedWAT /\
        fst (compileWATToWASM env processedWAT) = Ok wasmBytes)
     \/ (isWATText wasmCode = false /\ base64DecodeWASM base64Std wasmCode = Ok wasmBytes)) /\
    NewModule wasmBytes = Ok module /\
    NewInstance module = Returns (Ok instance) /\
    GetExport instance functionName = Some exportedFunc /\
    ExternFunc exportedFunc = Some wasmFunc /\
    Call wasmFunc args = Returns (Ok (VI32 v)).
Proof.
  unfold ExecuteWASM. intros H.
  destruct (isWATText wasmCode) eqn:Ew.
  - destruct (if bool_decide (secrets = ∅) then Ok wasmCode
              else injectSecretsIntoWAT floatLiteral wasmCode secrets)
      as [processedWAT | e] eqn:Ep; [| discriminate].
    destruct (fst (compileWATToWASM env processedWAT)) as [wasmBytes | e] eqn:Ec;
      [| discriminate].
    destruct (NewModule wasmBytes) as [module | e] eqn:Em; [| discriminate].
    destruct (NewInstance module) as [[instance | e] | |] eqn:Ei; try discriminate.
    destruct (GetExport instance functionName) as [exportedFunc |] eqn:Eg; [| discriminate].
    destruct (ExternFunc exportedFunc) as [wasmFunc |] eqn:Ef; [| discriminate].
    destruct (Call wasmFunc args) as [[[] | e] | |] eqn:Ecall; try discriminate.
    injection H as ->.
    exists wasmBytes, module, instance, exportedFunc, wasmFunc.
    split.
    { left. split; [reflexivity |]. exists processedWAT. split; [reflexivity | exact Ec]. }
    repeat split; assumption.
  - destruct (base64DecodeWASM base64Std wasmCode) as [wasmBytes | e] eqn:Ed;
      [| discriminate].
    destruct (NewModule wasmBytes) as [module | e] eqn:Em; [| discriminate].
    destruct (NewInstance module) as [[instance | e] | |] eqn:Ei; try discriminate.
    destruct (GetExport instance functionName) as [exportedFunc |] eqn:Eg; [| discriminate].
    destruct (ExternFunc exportedFunc) as [wasmFunc |] eqn:Ef; [| discriminate].
    destruct (Call wasmFunc args) as [[[] | e] | |] eqn:Ecall; try discriminate.
    injection H as ->.
    exists wasmBytes, module, instance, exportedFunc, wasmFunc.
    split; [right; split; reflexivity |].
    repeat split; assumption.
Qed.

Lemma success_is_the_call_result_witness :
  exists wasmBytes module instance exportedFunc wasmFunc,
    ((isWATText Bench.headerBase64 = true /\
      exists processedWAT,
        (if bool_decide (({[ "K" := "42" ]} : gmap string string) = ∅) then Ok Bench.headerBase64
         else injectSecretsIntoWAT (fun _ => None) Bench.headerBase64 {[ "K" := "42" ]})
        = Ok processedWAT /\
        fst (compileWATToWASM
               Bench.quietEnv processedWAT) = Ok wasmBytes)
     \/ (isWATText Bench.headerBase64 = false /\
         base64DecodeWASM stdDecode Bench.headerBase64 = Ok wasmBytes)) /\
    (fun _ : string => Ok tt) wasmBytes = Ok module /\
    (fun _ : unit => Returns (Ok tt)) module = Returns (Ok instance) /\
    (fun (_ : unit) (_ : string) => Some tt) instance "square" = Some exportedFunc /\
    (fun _ : unit => Some tt) exportedFunc = Some wasmFunc /\
    (fun (_ : unit) (_ : list Z) => Returns (Ok (VI32 49))) wasmFunc [7]
    = Returns (Ok (VI32 49)).
Proof.
  apply (success_is_the_call_result (fun _ => None) stdDecode unit unit unit unit
           (fun _ => Ok tt) (fun _ => Returns (Ok tt)) (fun _ _ => Some tt) (fun _ => Some tt)
           (fun _ _ => Returns (Ok (VI32 49)))
           Bench.quietEnv
           Bench.headerBase64 "square" [7] {[ "K" := "42" ]} 49).
  vm_compute. reflexivity.
Defined.

End PipelineProps.

Module ClientProps.
Import GoInt Strconv Executor Client.
Import GoIntFacts RoundTripFacts.

(** X14.  The client converts every argument to int32 without a range check: the
    decimal numerals of 64-bit integers are accepted and reduced modulo
    2^32, in order; numerals of 32-bit integers come through unchanged. *)
Theorem parseArgs_wraps_to_int32 (ns : list Z) :
  Forall (fun n => - 2 ^ 63 <= n < 2 ^ 63) ns ->
  parseArgs (map FormatInt ns) = inl (map int32 ns) /\
  (Forall (fun n => - 2 ^ 31 <= n < 2 ^ 31) ns ->
   parseArgs (map FormatInt ns) = inl ns).
Proof.
  intros H.
  assert (Hwrap : parseArgs (map FormatInt ns) = inl (map int32 ns)).
  { induction H as [| n ns Hn Hns IH]; [reflexivity |].
    cbn [map parseArgs]. unfold Atoi.
    rewrite (ParseInt_FormatInt 64 n (or_intror eq_refl)) by exact Hn.
    now rewrite IH. }
  split; [exact Hwrap |].
  intros H32. rewrite Hwrap. f_equal.
  clear H Hwrap. induction H32 as [| n ns Hn Hns IH]; [reflexivity |].
  cbn [map]. rewrite IH. f_equal.
  unfold int32. apply wrapS_small; [lia |].
  unfold inInt. change (2 ^ (32 - 1)) with (2 ^ 31). exact Hn.
Qed.

Lemma parseArgs_wraps_to_int32_witness :
  parseArgs (map FormatInt [7; 4294967303; - 1]) = inl (map int32 [7; 4294967303; - 1]) /\
  (Forall (fun n => - 2 ^ 31 <= n < 2 ^ 31) [7; 4294967303; - 1] ->
   parseArgs (map FormatInt [7; 4294967303; - 1]) = inl [7; 4294967303; - 1]).
Proof.
  apply (parseArgs_wraps_to_int32 [7; 4294967303; - 1]).
  repeat constructor; vm_compute; congruence.
Defined.

(** X15.  The first argument that Atoi rejects ends the program and is the one
    reported; the arguments after it are not looked at. *)
Theorem parseArgs_reports_first_bad (good : list Z) (bad : string) (err : NumError)
    (rest : list string) :
  Forall (fun n => - 2 ^ 63 <= n < 2 ^ 63) good ->
  snd (Atoi bad) = Some err ->
  parseArgs (map FormatInt good ++ bad :: rest)%list = inr (bad, err).
Proof.
  intros Hgood Hbad.
  induction Hgood as [| n ns Hn Hns IH].
  - cbn [map app parseArgs]. destruct (Atoi bad) as [v e]. cbn [snd] in Hbad.
    now subst e.
  - cbn [map app parseArgs]. unfold Atoi at 1.
    rewrite (ParseInt_FormatInt 64 n (or_intror eq_refl)) by exact Hn.
    now rewrite IH.
Qed.

Lemma parseArgs_reports_first_bad_witness :
  parseArgs (map FormatInt [7] ++ "seven" :: ["x"; "9"])%list = inr ("seven", ErrSyntax).
Proof.
  apply (parseArgs_reports_first_bad [7] "seven" ErrSyntax ["x"; "9"]).
  - repeat constructor; vm_compute; congruence.
  - vm_compute. reflexivity.
Defined.

End ClientProps.

Module LoggingProps.
Import Strings Logging StringFacts SearchFacts.

(** X16.  A secret of at most eight bytes is masked entirely.  A longer secret is
    shown by its first four and its last four bytes around three stars:
    the masked text does not depend on the bytes in between, nor on how
    many there are. *)
Theorem maskSecret_shows_ends_only (secret a m b : string) :
  ((String.length secret <= 8)%nat -> maskSecret secret = "***") /\
  (String.length a = 4%nat -> String.length b = 4%nat -> m <> EmptyString ->
   maskSecret (a ++ m ++ b) = a ++ "***" ++ b).
Proof.
  split.
  - intros H. unfold maskSecret.
    now replace (String.length secret <=? 8)%nat with true
      by (symmetry; apply Nat.leb_le; exact H).
  - intros Ha Hb Hm. unfold maskSecret.
    assert (Hlm : (1 <= String.length m)%nat)
      by (destruct m; [congruence | cbn [String.length]; lia]).
    rewrite !length_app.
    replace (String.length a + (String.length m + String.length b) <=? 8)%nat
      with false by (symmetry; apply Nat.leb_gt; lia).
    rewrite <- Ha at 1. rewrite takeS_app. f_equal. f_equal.
    replace (String.length a + (String.length m + String.length b) - 4)%nat
      with (String.length (a ++ m)) by (rewrite length_app; lia).
    rewrite <- app_assoc. apply dropS_app.
Qed.

Lemma maskSecret_shows_ends_only_witness :
  maskSecret "sk-abc123def456" = "sk-a" ++ "***" ++ "f456".
Proof.
  apply (proj2 (maskSecret_shows_ends_only EmptyString "sk-a" "bc123de" "f456"));
    [reflexivity | reflexivity | discriminate].
Defined.

End LoggingProps.

Module RelayLoopProps.
Import Executor Host Tally Scenario RelayProps.

(** X17.  Once the channel is established, nothing a client connection does
    changes the service again: whatever requests follow and whatever the
    outside world answers, the service at the end of the connection is the
    one at its start, and no dial is made. *)
Theorem established_channel_is_kept (Conn : Type) (h : HostService Conn)
    (incoming : list (WASMRequest * IO Conn)) :
  enclaveConnected Conn h = true ->
  fst (handleClientConnection Conn h incoming) = h /\
  ~ In Dial (snd (handleClientConnection Conn h incoming)).
Proof.
  intros Hc. induction incoming as [| [req io] later IH]; cbn [handleClientConnection].
  - split; [reflexivity | intros []].
  - destruct (handleRequest_connected Conn io h req Hc) as [Hh Hd].
    destruct (handleRequest Conn io h req) as [[h1 continue] ev]. cbn [fst snd] in *.
    subst h1. destruct continue; [| split; [reflexivity | exact Hd]].
    destruct (handleClientConnection Conn h later) as [h2 evs]. cbn [fst snd] in *.
    destruct IH as [-> Hd2]. split; [reflexivity |].
    intros Hin. apply in_app_or in Hin as [Hin | Hin]; [now apply Hd | now apply Hd2].
Qed.

Lemma established_channel_is_kept_witness :
  fst (handleClientConnection nat established
         [(squareOf 7, brokenWrite); (squareOf 3, brokenRead)]) = established /\
  ~ In Dial (snd (handleClientConnection nat established
                    [(squareOf 7, brokenWrite); (squareOf 3, brokenRead)])).
Proof.
  apply (established_channel_is_kept nat established). reflexivity.
Defined.

(** X18.  While the enclave cannot be reached, every request of a connection
    costs one dial and gets the reply that the enclave could not be
    connected, with the error of that dial; nothing is sent, the service
    stays disconnected, and the connection stays open. *)
Theorem unreachable_enclave_is_retried (Conn : Type) (h : HostService Conn)
    (incoming : list (WASMRequest * IO Conn)) :
  enclaveConnected Conn h = false ->
  Forall (fun p => exists e, dial Conn (snd p) = Err e) incoming ->
  fst (handleClientConnection Conn h incoming) = h /\
  snd (handleClientConnection Conn h incoming)
  = concat (map (fun p =>
      match dial Conn (snd p) with
      | Err e =>
        [Dial;
         Reply {| Result := 0;
                  Error := "Could not connect to enclave: failed to connect to enclave: " ++ e |}]
      | Ok _ => []
      end) incoming).
Proof.
  intros Hc HF. induction HF as [| [req io] later [e He] HF IH];
    cbn [handleClientConnection map concat]; [split; reflexivity |].
  cbn [snd] in *. unfold handleRequest, connectToEnclave. rewrite Hc, He.
  cbv beta iota.
  destruct (handleClientConnection Conn h later) as [h2 evs]. cbn [fst snd] in *.
  destruct IH as [-> ->]. split; reflexivity.
Qed.

Lemma unreachable_enclave_is_retried_witness :
  fst (handleClientConnection nat (NewHostService nat)
         [(squareOf 7, brokenWrite); (squareOf 3, brokenRead)]) = NewHostService nat /\
  snd (handleClientConnection nat (NewHostService nat)
         [(squareOf 7, brokenWrite); (squareOf 3, brokenRead)])
  = concat (map (fun p =>
      match dial nat (snd p) with
      | Err e =>
        [Dial;
         Reply {| Result := 0;
                  Error := "Could not connect to enclave: failed to connect to enclave: " ++ e |}]
      | Ok _ => []
      end) [(squareOf 7, brokenWrite); (squareOf 3, brokenRead)]).
Proof.
  apply (unreachable_enclave_is_retried nat (NewHostService nat)).
  - reflexivity.
  - repeat constructor; eexists; reflexivity.
Defined.

(** X19.  A round of the relay in which the read of the response returns,
    or is not reached, ends with exactly one reply to the client, as its
    last event.  The reply is the response read from the enclave,
    unchanged, or it carries the result 0 together with an error that is
    not empty: the relay never answers with a bare zero of its own.  A
    round whose read of the response never returns sends no reply, and the
    loop does not go on to the next request. *)
Theorem one_reply_per_round (Conn : Type) (io : IO Conn) (h : HostService Conn)
    (req : WASMRequest) :
  let events := snd (handleRequest Conn io h req) in
  let continue := snd (fst (handleRequest Conn io h req)) in
  let stalled := received Conn io = None /\ exists c, In (Receive Conn c) events in
  (stalled -> List.filter isReply events = [] /\ continue = false) /\
  (~ stalled ->
   exists before resp,
     events = (before ++ [Reply resp])%list /\
     List.filter isReply before = [] /\
     ((received Conn io = Some (Ok resp) /\ exists c, In (Receive Conn c) before) \/
      (Result resp = 0 /\ Error resp <> EmptyString))).
Proof.
  cbv zeta. unfold handleRequest, connectToEnclave, forwardToEnclave.
  destruct (enclaveConnected Conn h) eqn:Ec;
    [cbv beta iota; rewrite ?Ec; destruct (enclaveConn Conn h) as [conn |] eqn:En
    | destruct (dial Conn io) as [conn | e0]; cbn [enclaveConnected enclaveConn]];
    try (destruct (sendErr Conn io) as [e |] eqn:Es;
         [| destruct (received Conn io) as [[r | e] |] eqn:Er]);
    cbn [fst snd app]; (split; [intros [Hr [c Hin]] | intros Hns]);
    try congruence;
    try (split; reflexivity);
    try (exfalso; cbn [In] in Hin;
         repeat match goal with
         | H : _ \/ _ |- _ => destruct H as [H | H]
         | H : False |- _ => destruct H
         end; discriminate);
    try (exfalso; apply Hns; split; [reflexivity |];
         eexists; cbn [In]; eauto 6; fail);
    match goal with
    | |- exists before resp, (?a :: ?b :: ?c :: [Reply ?r]) = _ /\ _ =>
      exists [a; b; c], r
    | |- exists before resp, (?a :: ?b :: [Reply ?r]) = _ /\ _ => exists [a; b], r
    | |- exists before resp, (?a :: [Reply ?r]) = _ /\ _ => exists [a], r
    | |- exists before resp, [Reply ?r] = _ /\ _ => exists [], r
    end;
    (split; [reflexivity |]); (split; [reflexivity |]);
    first [ right; split; [reflexivity | discriminate]
          | left; split; [reflexivity | eexists; cbn [In]; eauto 6] ].
Qed.

Lemma one_reply_per_round_witness :
  List.filter isReply (snd (handleRequest nat silent established (squareOf 7))) = [] /\
  snd (fst (handleRequest nat silent established (squareOf 7))) = false.
Proof.
  refine (proj1 (one_reply_per_round nat silent established (squareOf 7)) _).
  split; [reflexivity |]. exists 7%nat. right. left. reflexivity.
Defined.

End RelayLoopProps.

Module LockProps.
Import Executor Host Tally.

Lemma lockHolders_insert (tasks : list Pc) : forall i old new,
  tasks !! i = Some old ->
  (lockHolders (<[i := new]> tasks) + Nat.b2n (holdsLock old)
   = lockHolders tasks + Nat.b2n (holdsLock new))%nat.
Proof.
  unfold lockHolders.
  induction tasks as [| pc tasks IH]; intros i old new H; [discriminate |].
  destruct i as [| i]; cbn [lookup list_lookup] in H.
  - injection H as ->. cbn [insert list_insert List.filter].
    destruct (holdsLock old), (holdsLock new); cbn [List.length Nat.b2n]; lia.
  - specialize (IH i old new H).
    change (<[S i := new]> (pc :: tasks)) with (pc :: <[i := new]> tasks).
    cbn [List.filter]. destruct (holdsLock pc); cbn [List.length]; lia.
Qed.

Lemma lockHolders_start (reqs : list WASMRequest) : lockHolders (map Calling reqs) = O.
Proof. induction reqs as [| r reqs IH]; [reflexivity | exact IH]. Qed.

Section WithEnclave.
Variable Conn : Type.
Variable enclave : WASMRequest -> WASMResponse.

Lemma step_balanced a s s' :
  balanced s -> step Conn enclave a s = Some s' ->
  balanced s' /\ List.length (clients Conn s') = List.length (clients Conn s).
Proof.
  intros [Hr Hw] H. destruct s as [rd wh sv up down cl].
  cbn [readers clients writerHeld] in Hr, Hw. subst wh.
  unfold balanced. destruct a as [i | | i e | i e | i extra]; cbn in H;
    try (destruct up as [| req rest]; [discriminate |];
         injection H as <-; cbn [readers clients writerHeld]; repeat split; exact Hr);
    (destruct (cl !! i) as [pc |] eqn:El; [| discriminate]);
    destruct pc as [req | req | req | req resp | req resp]; try discriminate;
    repeat match type of H with
    | context [match ?x with _ => _ end] => destruct x
    end; try discriminate;
    injection H as <-; cbn [readers clients writerHeld setClient];
    rewrite length_insert;
    match goal with
    | |- context [<[i := ?new]> cl] =>
      pose proof (lockHolders_insert cl i _ new El) as Hi
    end; cbn [holdsLock Nat.b2n] in Hi; repeat split; lia.
Qed.

Lemma run_balanced schedule : forall s s',
  balanced s -> run Conn enclave schedule s = Some s' ->
  balanced s' /\ List.length (clients Conn s') = List.length (clients Conn s).
Proof.
  induction schedule as [| a later IH]; intros s s' Hb H; cbn [run] in H.
  - injection H as <-. split; [exact Hb | reflexivity].
  - destruct (step Conn enclave a s) as [s1 |] eqn:Es; [| discriminate].
    destruct (step_balanced a s s1 Hb Es) as [Hb1 Hl1].
    destruct (IH s1 s' Hb1 H) as [Hb' Hl']. split; [exact Hb' | congruence].
Qed.

End WithEnclave.

(** X21.  The read lock is taken and released in pairs on every path through
    forwardToEnclave, the returns after a failed write and after a failed
    read included: in every state that any schedule of any number of
    client tasks reaches, the number of read holders is the number of
    tasks between their RLock and their RUnlock, and no task is lost.
    When no task is inside forwardToEnclave, the lock is free. *)
Theorem read_lock_is_balanced (Conn : Type) (enclave : WASMRequest -> WASMResponse)
    (conn : Conn) (reqs : list WASMRequest) (schedule : list Action) (s : System Conn) :
  run Conn enclave schedule (start Conn conn reqs) = Some s ->
  readers Conn s = lockHolders (clients Conn s) /\
  writerHeld Conn s = false /\
  List.length (clients Conn s) = List.length reqs /\
  (Forall (fun pc => holdsLock pc = false) (clients Conn s) -> readers Conn s = O).
Proof.
  intros H.
  assert (Hb0 : balanced (start Conn conn reqs)).
  { split; [| reflexivity]. cbn. symmetry. apply lockHolders_start. }
  destruct (run_balanced Conn enclave schedule _ s Hb0 H) as [[Hr Hw] Hl].
  split; [exact Hr |]. split; [exact Hw |]. split.
  - rewrite Hl. cbn. apply length_map.
  - intros HF. rewrite Hr. unfold lockHolders. clear -HF.
    induction HF as [| pc l Hpc HF IH]; [reflexivity |].
    cbn [List.filter]. now rewrite Hpc.
Qed.

Lemma read_lock_is_balanced_witness :
  readers nat Bench.failed = lockHolders (clients nat Bench.failed) /\
  writerHeld nat Bench.failed = false /\
  List.length (clients nat Bench.failed)
  = List.length [Scenario.squareOf 7; Scenario.squareOf 3] /\
  (Forall (fun pc => holdsLock pc = false) (clients nat Bench.failed) ->
   readers nat Bench.failed = O).
Proof.
  apply (read_lock_is_balanced nat Bench.squaring 7%nat
           [Scenario.squareOf 7; Scenario.squareOf 3] Scenario.failing Bench.failed).
  vm_compute. reflexivity.
Defined.

Section Solo.
Variable Conn : Type.
Variable enclave : WASMRequest -> WASMResponse.
Variable req : WASMRequest.

Lemma step_solo a s s' :
  soloInv enclave req s -> step Conn enclave a s = Some s' -> soloInv enclave req s'.
Proof.
  intros (Hs & Hc & Hn) H. destruct s as [rd wh sv up down cl].
  unfold soloInv, soloState in *. cbn [clients upstream downstream service] in *.
  destruct (enclaveConn Conn sv) as [conn |] eqn:En; [| congruence].
  repeat match goal with
  | H : _ \/ _ |- _ => destruct H as [H | H]
  | H : _ /\ _ |- _ => destruct H as [? ?]
  | H : exists _, _ |- _ => destruct H as [? ?]
  end; subst;
  destruct a as [[| i] | | [| i] e | [| i] e | [| i] extra]; cbn in H;
  rewrite ?Hc, ?En in H;
  try discriminate;
  try (destruct wh; [discriminate |]);
  injection H as <-; cbn [clients upstream downstream service setClient];
  rewrite ?skipn_nil;
  (split; [| split; [exact Hc | now rewrite En]]);
  naive_solver.
Qed.

Lemma run_solo schedule : forall s s',
  soloInv enclave req s -> run Conn enclave schedule s = Some s' ->
  soloInv enclave req s'.
Proof.
  induction schedule as [| a later IH]; intros s s' Hi H; cbn [run] in H.
  - now injection H as <-.
  - destruct (step Conn enclave a s) as [s1 |] eqn:Es; [| discriminate].
    eapply IH; [eapply step_solo; eassumption | exact H].
Qed.

End Solo.

(** X22.  A client task that is alone on the established channel never gets
    a response that is not its own, under every schedule and whatever
    fails: whenever its call of forwardToEnclave has returned, it returned
    what the enclave answers to the request it sent, with nothing left
    under way in the channel, or it returned the error of a failed write or
    of a failed read. *)
Theorem lone_client_gets_its_own_response (Conn : Type)
    (enclave : WASMRequest -> WASMResponse) (conn : Conn) (req : WASMRequest)
    (schedule : list Action) (s : System Conn) (req' : WASMRequest)
    (resp : outcome WASMResponse) :
  run Conn enclave schedule (start Conn conn [req]) = Some s ->
  clients Conn s = [Returned req' resp] ->
  req' = req /\
  match resp with
  | Ok response =>
    response = enclave req /\ upstream Conn s = [] /\ downstream Conn s = []
  | Err msg =>
    exists e, msg = "failed to send request to enclave: " ++ e \/
              msg = "failed to decode WASM response from enclave: " ++ e
  end.
Proof.
  intros H Hret.
  assert (H0 : soloInv enclave req (start Conn conn [req])).
  { split; [left; repeat split |]. split; [reflexivity | discriminate]. }
  destruct (run_solo Conn enclave req schedule _ s H0 H) as [Hs _].
  unfold soloState in Hs. rewrite Hret in Hs.
  destruct Hs as [(E & _) | [(E & _) | [(E & _) | (r & [E | E] & Hs)]]];
    try discriminate.
  injection E as -> ->. split; [reflexivity |].
  destruct Hs as [(-> & Hu & Hd) | [(e & -> & _) | (e & -> & _)]].
  - repeat split; assumption.
  - exists e. now left.
  - exists e. now right.
Qed.

Lemma lone_client_gets_its_own_response_witness :
  Scenario.squareOf 7 = Scenario.squareOf 7 /\
  Bench.squaring (Scenario.squareOf 7) = Bench.squaring (Scenario.squareOf 7) /\
  upstream nat
    {| readers := 0; writerHeld := false; service := Scenario.established;
       upstream := []; downstream := [];
       clients := [Returned (Scenario.squareOf 7)
                     (Ok (Bench.squaring (Scenario.squareOf 7)))] |} = [] /\
  downstream nat
    {| readers := 0; writerHeld := false; service := Scenario.established;
       upstream := []; downstream := [];
       clients := [Returned (Scenario.squareOf 7)
                     (Ok (Bench.squaring (Scenario.squareOf 7)))] |} = [].
Proof.
  apply (lone_client_gets_its_own_response nat Bench.squaring 7%nat (Scenario.squareOf 7)
           [Client 0; Client 0; Enclave; ReadsAhead 0 3; Client 0]
           _ (Scenario.squareOf 7) (Ok (Bench.squaring (Scenario.squareOf 7)))).
  - vm_compute. reflexivity.
  - reflexivity.
Defined.

End LockProps.
